From Stdlib Require Import ZArith Ascii String List Lia Bool DecimalString.
From stdpp Require Import base gmap strings list sorting.

(** * Verification of kiro-go-proxy

    The Go packages are embedded package by package: utils, converter,
    model, parser, regexp (as far as the sources use it), stream, api,
    client and auth.  Definitions keep the names of the functions they are
    taken from; the statements about them follow after the definitions. *)

(** * Shared string helpers

    Go strings are byte strings; they are modelled as [string] (a list of
    8-bit [ascii] bytes).  [len(s)] is [String.length], [s[i:]] and [s[:i]]
    are [string_drop] and [string_take]. *)

(** The line feed, written "\n" in the Go sources. *)
Definition nl : string := String (ascii_of_nat 10) "".

(** The double quote and the backslash as bytes and as one-byte strings. *)
Definition quote_byte : ascii := ascii_of_nat 34.
Definition backslash_byte : ascii := ascii_of_nat 92.
Definition dq : string := String quote_byte "".

(** s[n:] for n <= len(s). *)
Fixpoint string_drop (n : nat) (s : string) : string :=
  match n, s with
  | O, _ => s
  | S n', String _ s' => string_drop n' s'
  | S _, EmptyString => EmptyString
  end.

(** s[:n] for n <= len(s). *)
Fixpoint string_take (n : nat) (s : string) : string :=
  match n, s with
  | O, _ => EmptyString
  | S n', String c s' => String c (string_take n' s')
  | S _, EmptyString => EmptyString
  end.

(** strings.Join(parts, sep) *)
Definition strings_Join (parts : list string) (sep : string) : string :=
  String.concat sep parts.

(** strings.Index(s, substr): [None] is the result -1. *)
Definition strings_Index (s substr : string) : option nat := String.index 0 substr s.

(** strings.Contains(s, substr) *)
Definition strings_Contains (s substr : string) : bool :=
  match strings_Index s substr with Some _ => true | None => false end.

(** m[k] on a map[string]bool: false when the key is absent. *)
Definition index_bool (m : gmap string bool) (k : string) : bool :=
  default false (m !! k).

(** * The Go runtime and libraries

    [for k, v := range m] visits every entry of [m] exactly once, in an
    order the runtime chooses.  [map_range] is that order; the only thing
    known about it is that it enumerates the entries of the map.
    [uuid_New n] is the text of the n-th identifier drawn from
    uuid.New().  [unicode_ToLower] is strings.ToLower on strings that are
    not pure ASCII. *)
Class GoRuntime := {
  map_range : forall {A : Type}, gmap string A -> list (string * A);
  map_range_perm : forall {A : Type} (m : gmap string A),
    map_range m ≡ₚ map_to_list m;
  uuid_New : nat -> string;
  unicode_ToLower : string -> string
}.

(** One possible runtime: the entries in stdpp's canonical order. *)
Definition canonical_runtime : GoRuntime :=
  {| map_range := fun A (m : gmap string A) => map_to_list m;
     map_range_perm := fun A (m : gmap string A) => reflexivity (map_to_list m);
     uuid_New := fun n => "00000000-0000-4000-8000-000000000000";
     unicode_ToLower := fun s => s |}.

(** Another one: the canonical order reversed. *)
Definition reversed_runtime : GoRuntime :=
  {| map_range := fun A (m : gmap string A) => reverse (map_to_list m);
     map_range_perm := fun A (m : gmap string A) => reverse_Permutation (map_to_list m);
     uuid_New := fun n => "00000000-0000-4000-8000-000000000000";
     unicode_ToLower := fun s => s |}.

(** sort.Strings: ascending byte-wise order. *)
Definition sort_Strings (l : list string) : list string :=
  merge_sort String.le l.

(** * Package utils (src/utils/utils.go) *)
Module utils.

(** One element of a []interface{} content value.  [ExtractTextContent]
    only looks at elements that are maps with "type" == "text" and a string
    under "text"; every other element is dropped. *)
Inductive ContentPart :=
| TextPart (text : string)
| OtherPart.

(** The dynamic type of a content value (Go interface{}). *)
Inductive Content :=
| ContentNil
| ContentString (s : string)
| ContentParts (parts : list ContentPart)
| ContentOther (formatted : string).   (* any other value; carries its %v rendering *)

(** ExtractTextContent extracts text from various content formats *)
Definition ExtractTextContent (content : Content) : string :=
  match content with
  | ContentNil => ""
  | ContentString v => v
  | ContentParts v =>
      strings_Join
        (omap (fun item => match item with TextPart t => Some t | OtherPart => None end) v)
        ""
  | ContentOther formatted => formatted
  end.

End utils.

(** * Package converter (converter/core.go) *)
Module converter.
Import utils.

(** ToolCall represents a tool call in unified format *)
Record ToolCall := mkToolCall {
  tc_ID : string;
  tc_Type : string;
  tc_Name : string;        (* Function.Name *)
  tc_Arguments : string    (* Function.Arguments *)
}.

(** ToolResult represents a tool result in unified format *)
Record ToolResult := mkToolResult {
  tr_ToolUseID : string;
  tr_Content : Content
}.

(** An entry of UnifiedMessage.Images: the "media_type" and "data" keys. *)
Record Image := mkImage {
  img_media_type : string;
  img_data : string
}.

(** UnifiedMessage represents a unified message format *)
Record UnifiedMessage := mkMsg {
  Role : string;
  MsgContent : Content;
  ToolCalls : list ToolCall;
  ToolResults : list ToolResult;
  Images : list Image
}.

(** UnifiedTool: only the number of tools matters to the message pipeline. *)
Record UnifiedTool := mkTool {
  tool_Name : string;
  tool_Description : string
}.

(** The composite literal UnifiedMessage{Role: r, Content: c}. *)
Definition synthetic (r c : string) : UnifiedMessage :=
  mkMsg r (ContentString c) [] [] [].

(** ToolCallsToText converts tool calls to text *)
Definition ToolCallsToText (calls : list ToolCall) : string :=
  strings_Join
    (map (fun tc =>
            if decide (tc_ID tc <> "")
            then "[Tool: " +:+ tc_Name tc +:+ " (" +:+ tc_ID tc +:+ ")]" +:+ nl +:+ tc_Arguments tc
            else "[Tool: " +:+ tc_Name tc +:+ "]" +:+ nl +:+ tc_Arguments tc)
         calls)
    (nl +:+ nl).

(** ToolResultsToText converts tool results to text *)
Definition ToolResultsToText (results : list ToolResult) : string :=
  strings_Join
    (map (fun tr =>
            let content := ExtractTextContent (tr_Content tr) in
            let content := if decide (content = "") then "(empty result)" else content in
            if decide (tr_ToolUseID tr <> "")
            then "[Tool Result (" +:+ tr_ToolUseID tr +:+ ")]" +:+ nl +:+ content
            else "[Tool Result]" +:+ nl +:+ content)
         results)
    (nl +:+ nl).

(** StripAllToolContent strips all tool-related content from messages *)
Definition StripAllToolContent (messages : list UnifiedMessage)
  : list UnifiedMessage * bool :=
  foldl
    (fun '(result, hadToolContent) msg =>
       if decide (0 < length (ToolCalls msg) \/ 0 < length (ToolResults msg)) then
         let content := ExtractTextContent (MsgContent msg) in
         let parts := [content] in
         let parts := if decide (0 < length (ToolCalls msg))
                      then parts ++ [ToolCallsToText (ToolCalls msg)] else parts in
         let parts := if decide (0 < length (ToolResults msg))
                      then parts ++ [ToolResultsToText (ToolResults msg)] else parts in
         (result ++ [mkMsg (Role msg)
                           (ContentString (strings_Join parts (nl +:+ nl)))
                           [] [] (Images msg)],
          true)
       else (result ++ [msg], hadToolContent))
    ([], false) messages.

(** The body of the loop of MergeAdjacentMessages: [merged] is the slice
    built so far, [last] points at its final element and is updated in
    place when the roles agree. *)
Definition merge_step (merged : list UnifiedMessage) (msg : UnifiedMessage)
  : list UnifiedMessage :=
  match last merged with
  | None => merged ++ [msg]
  | Some l =>
      if decide (Role msg = Role l) then
        let lastContent := ExtractTextContent (MsgContent l) in
        let currentContent := ExtractTextContent (MsgContent msg) in
        let l' := mkMsg (Role l)
                        (ContentString (lastContent +:+ nl +:+ currentContent))
                        (if decide (0 < length (ToolCalls msg))
                         then ToolCalls l ++ ToolCalls msg else ToolCalls l)
                        (if decide (0 < length (ToolResults msg))
                         then ToolResults l ++ ToolResults msg else ToolResults l)
                        (Images l) in
        <[ pred (length merged) := l' ]> merged
      else merged ++ [msg]
  end.

(** MergeAdjacentMessages merges adjacent messages with the same role *)
Definition MergeAdjacentMessages (messages : list UnifiedMessage)
  : list UnifiedMessage :=
  if decide (length messages = 0) then []
  else foldl merge_step [] messages.

(** EnsureFirstMessageIsUser ensures the first message is from user *)
Definition EnsureFirstMessageIsUser (messages : list UnifiedMessage)
  : list UnifiedMessage :=
  match messages with
  | [] => messages
  | m :: _ =>
      if decide (Role m = "user") then messages
      else synthetic "user" "(empty)" :: messages
  end.

(** NormalizeMessageRoles normalizes unknown roles to user *)
Definition NormalizeMessageRoles (messages : list UnifiedMessage)
  : list UnifiedMessage :=
  map (fun msg =>
         if decide (Role msg <> "user" /\ Role msg <> "assistant")
         then mkMsg "user" (MsgContent msg) (ToolCalls msg) (ToolResults msg) (Images msg)
         else msg)
      messages.

(** The body of the loop of EnsureAlternatingRoles for messages[i], i >= 1. *)
Definition alternate_step (result : list UnifiedMessage) (m : UnifiedMessage)
  : list UnifiedMessage :=
  let result :=
    if decide (Role m = "user" /\ (Role <$> last result) = Some "user")
    then result ++ [synthetic "assistant" "(empty)"]
    else result in
  result ++ [m].

(** EnsureAlternatingRoles ensures alternating user/assistant roles *)
Definition EnsureAlternatingRoles (messages : list UnifiedMessage)
  : list UnifiedMessage :=
  match messages with
  | [] | [_] => messages                     (* len(messages) < 2 *)
  | m0 :: rest => foldl alternate_step [m0] rest
  end.

(** The message pipeline of BuildKiroPayload (the statements between
    "Handle messages without tools" and the [len(messages) == 0] test). *)
Definition shaped_messages (tools : list UnifiedTool)
    (messages : list UnifiedMessage) : list UnifiedMessage :=
  let messages := if decide (length tools = 0)
                  then fst (StripAllToolContent messages) else messages in
  let messages := MergeAdjacentMessages messages in
  let messages := EnsureFirstMessageIsUser messages in
  let messages := NormalizeMessageRoles messages in
  EnsureAlternatingRoles messages.

(** BuildKiroPayload returns nil exactly when the shaped list is empty;
    every later statement of the function is total. *)
Definition BuildKiroPayload_returns_payload (tools : list UnifiedTool)
    (messages : list UnifiedMessage) : bool :=
  negb (Nat.eqb (length (shaped_messages tools messages)) 0).

End converter.

(** * Package model (model/resolver.go) *)
Module model.

(** Info represents model information *)
Record Info := mkInfo { ModelID : string }.

(** Cache provides model information caching (the lock, the timestamp and
    the TTL play no part in the listing and are left out). *)
Record Cache := mkCache {
  models : gmap string Info;
  maxInput : gmap string Z;
  cache_hiddenModels : gmap string string
}.

(** Resolver resolves model names to internal Kiro IDs *)
Record Resolver := mkResolver {
  cache : Cache;
  hiddenModels : gmap string string;
  aliases : gmap string string;
  hiddenFromList : gmap string bool
}.

(** m[k] on a map[string]bool: the zero value false when k is absent. *)
Definition index_bool (m : gmap string bool) (k : string) : bool :=
  default false (m !! k).

Section with_runtime.
Context `{GoRuntime}.

(** GetAllModelIDs returns all model IDs *)
Definition GetAllModelIDs (c : Cache) : list string :=
  let ids := foldl (fun ids '(id, _) => ids ++ [id]) [] (map_range (models c)) in
  sort_Strings ids.

(** GetAvailableModels returns all available model IDs for /v1/models endpoint *)
Definition GetAvailableModels (r : Resolver) : list string :=
  let models : gmap string bool := ∅ in
  (* Add cache models *)
  let models :=
    foldl (fun (models : gmap string bool) id =>
             if negb (index_bool (hiddenFromList r) id)
             then <[id := true]> models else models)
          models (GetAllModelIDs (cache r)) in
  (* Add hidden model display names *)
  let models :=
    foldl (fun (models : gmap string bool) '(displayName, _) =>
             if negb (index_bool (hiddenFromList r) displayName)
             then <[displayName := true]> models else models)
          models (map_range (hiddenModels r)) in
  (* Add aliases *)
  let models :=
    foldl (fun (models : gmap string bool) '(alias, _) => <[alias := true]> models)
          models (map_range (aliases r)) in
  (* Convert to sorted slice *)
  let result := foldl (fun result '(id, _) => result ++ [id]) [] (map_range models) in
  sort_Strings result.

End with_runtime.

(** The listing as the specification words it: the sorted union of cache
    entries, hidden display names and aliases, minus the deny-set. *)
Definition GetAvailableModels_as_specified (r : Resolver) : list string :=
  let deny : gset string := dom (filter (fun kv => kv.2 = true) (hiddenFromList r)) in
  sort_Strings
    (elements ((dom (models (cache r)) ∪ dom (hiddenModels r) ∪ dom (aliases r)) ∖ deny)).

End model.

(** * Package parser: the thinking-block parser (parser/thinking.go) *)
Module thinking.

(** ThinkingHandlingMode defines how to handle thinking blocks.  The type
    is a string; any other string takes the default branch of
    processForOutput. *)
Definition ThinkingHandlingMode := string.
Definition ThinkingHandlingAsReasoningContent : ThinkingHandlingMode := "as_reasoning_content".
Definition ThinkingHandlingRemove : ThinkingHandlingMode := "remove".
Definition ThinkingHandlingPass : ThinkingHandlingMode := "pass".
Definition ThinkingHandlingStripTags : ThinkingHandlingMode := "strip_tags".

(** ThinkingParseResult represents the result of parsing thinking content *)
Record ThinkingParseResult := mkResult {
  ThinkingContent : string;
  RegularContent : string;
  IsFirstThinkingChunk : bool;
  IsLastThinkingChunk : bool
}.

(** The zero value &ThinkingParseResult{}. *)
Definition empty_result : ThinkingParseResult := mkResult "" "" false false.

(** ThinkingParser parses thinking/reasoning blocks from model output *)
Record ThinkingParser := mkParser {
  handlingMode : ThinkingHandlingMode;
  openTags : list string;
  initialBufferSize : nat;
  foundThinking : bool;
  (* State *)
  buffer : string;
  inThinking : bool;
  thinkingContent : string;
  regularContent : string;
  thinkingTagOpen : string;
  thinkingTagClose : string;
  thinkingStarted : bool;
  thinkingEnded : bool;
  firstThinkingSent : bool
}.

(** NewThinkingParser creates a new thinking parser *)
Definition NewThinkingParser (handlingMode : ThinkingHandlingMode)
    (openTags : list string) (initialBufferSize : nat) : ThinkingParser :=
  let openTags :=
    if decide (length openTags = 0)
    then ["<thinking>"; "alettek"; "<reasoning>"; "<thought>"]
    else openTags in
  mkParser handlingMode openTags initialBufferSize false
           "" false "" "" "" "" false false false.

(** getCloseTag; [None] is the run-time panic of openTag[1:] on the empty
    string. *)
Definition getCloseTag (openTag : string) : option string :=
  if decide (openTag = "alettek") then Some "alettek"
  else if decide (openTag = "<thinking>") then Some "</thinking>"
  else if decide (openTag = "<reasoning>") then Some "</reasoning>"
  else if decide (openTag = "<thought>") then Some "</thought>"
  else match openTag with
       | EmptyString => None
       | String _ rest => Some ("</" +:+ rest)
       end.

(** processForOutput processes content for output based on handling mode *)
Definition processForOutput (p : ThinkingParser) (content : string)
    (isFirst isLast : bool) : string :=
  if decide (handlingMode p = ThinkingHandlingRemove) then ""
  else if decide (handlingMode p = ThinkingHandlingPass) then
    let content := if isFirst then thinkingTagOpen p +:+ content else content in
    let content := if isLast then content +:+ thinkingTagClose p else content in
    content
  else content.

(** Field updates, as the assignments of the source. *)
Definition set_result_thinking (r : ThinkingParseResult) (v : string) :=
  mkResult v (RegularContent r) (IsFirstThinkingChunk r) (IsLastThinkingChunk r).
Definition set_result_regular (r : ThinkingParseResult) (v : string) :=
  mkResult (ThinkingContent r) v (IsFirstThinkingChunk r) (IsLastThinkingChunk r).
Definition set_result_first (r : ThinkingParseResult) (v : bool) :=
  mkResult (ThinkingContent r) (RegularContent r) v (IsLastThinkingChunk r).
Definition set_result_last (r : ThinkingParseResult) (v : bool) :=
  mkResult (ThinkingContent r) (RegularContent r) (IsFirstThinkingChunk r) v.

Definition processThinkingContent (p : ThinkingParser) (content : string)
    (result : ThinkingParseResult) : ThinkingParser * ThinkingParseResult :=
  if decide (thinkingTagClose p = "") then (p, result)
  else
    (* Check for closing tag *)
    match strings_Index content (thinkingTagClose p) with
    | Some idx =>
        let thinkingPart := string_take idx content in
        let regularPart := string_drop (idx + String.length (thinkingTagClose p)) content in
        let p := mkParser (handlingMode p) (openTags p) (initialBufferSize p) (foundThinking p)
                          (buffer p) false (thinkingContent p +:+ thinkingPart)
                          (regularContent p) (thinkingTagOpen p) (thinkingTagClose p)
                          (thinkingStarted p) true (firstThinkingSent p) in
        let result :=
          set_result_thinking result
            (processForOutput p thinkingPart (negb (firstThinkingSent p)) true) in
        let result := set_result_last result true in
        let result :=
          if decide (regularPart <> "") then set_result_regular result regularPart
          else result in
        (p, result)
    | None =>
        let p := mkParser (handlingMode p) (openTags p) (initialBufferSize p) (foundThinking p)
                          (buffer p) (inThinking p) (thinkingContent p +:+ content)
                          (regularContent p) (thinkingTagOpen p) (thinkingTagClose p)
                          (thinkingStarted p) (thinkingEnded p) (firstThinkingSent p) in
        let result :=
          set_result_thinking result
            (processForOutput p content (negb (firstThinkingSent p)) false) in
        if negb (firstThinkingSent p) then
          (mkParser (handlingMode p) (openTags p) (initialBufferSize p) (foundThinking p)
                    (buffer p) (inThinking p) (thinkingContent p)
                    (regularContent p) (thinkingTagOpen p) (thinkingTagClose p)
                    (thinkingStarted p) (thinkingEnded p) true,
           set_result_first result true)
        else (p, result)
    end.

(** The loop of checkForThinkingTag over the remaining open tags; [None]
    is a panic inside getCloseTag. *)
Fixpoint check_tags (tags : list string) (p : ThinkingParser)
    (result : ThinkingParseResult) : option (ThinkingParser * ThinkingParseResult) :=
  match tags with
  | [] =>
      (* No tag found, pass buffer through *)
      Some (mkParser (handlingMode p) (openTags p) (initialBufferSize p) (foundThinking p)
                     "" (inThinking p) (thinkingContent p)
                     (regularContent p) (thinkingTagOpen p) (thinkingTagClose p)
                     (thinkingStarted p) (thinkingEnded p) (firstThinkingSent p),
            set_result_regular result (buffer p))
  | tag :: tags =>
      match strings_Index (buffer p) tag with
      | Some idx =>
          match getCloseTag tag with
          | None => None
          | Some closeTag =>
              let p := mkParser (handlingMode p) (openTags p) (initialBufferSize p) true
                                (buffer p) true (thinkingContent p)
                                (regularContent p) tag closeTag
                                (thinkingStarted p) (thinkingEnded p) (firstThinkingSent p) in
              (* Split buffer at tag *)
              let beforeTag := string_take idx (buffer p) in
              let afterTag := string_drop (idx + String.length tag) (buffer p) in
              (* Content before tag is regular *)
              let result :=
                if decide (beforeTag <> "") then set_result_regular result beforeTag
                else result in
              (* Content after tag is thinking *)
              let '(p, result) :=
                if decide (afterTag <> "") then processThinkingContent p afterTag result
                else (p, result) in
              Some (mkParser (handlingMode p) (openTags p) (initialBufferSize p)
                             (foundThinking p) (buffer p) (inThinking p) (thinkingContent p)
                             (regularContent p) (thinkingTagOpen p) (thinkingTagClose p)
                             true (thinkingEnded p) (firstThinkingSent p),
                    set_result_first result true)
          end
      | None => check_tags tags p result
      end
  end.

Definition checkForThinkingTag (p : ThinkingParser) (result : ThinkingParseResult)
  : option (ThinkingParser * ThinkingParseResult) :=
  check_tags (openTags p) p result.

(** Feed processes content and returns parsed result *)
Definition Feed (p : ThinkingParser) (content : string)
  : option (ThinkingParser * ThinkingParseResult) :=
  let result := empty_result in
  (* If we already found and finished thinking, pass through *)
  if thinkingEnded p then Some (p, set_result_regular result content)
  (* If we're inside thinking block *)
  else if inThinking p then Some (processThinkingContent p content result)
  (* If we haven't found thinking yet, check for tag *)
  else if negb (foundThinking p) then
    let p := mkParser (handlingMode p) (openTags p) (initialBufferSize p) (foundThinking p)
                      (buffer p +:+ content) (inThinking p) (thinkingContent p)
                      (regularContent p) (thinkingTagOpen p) (thinkingTagClose p)
                      (thinkingStarted p) (thinkingEnded p) (firstThinkingSent p) in
    (* Check if we have enough content to detect tag *)
    if initialBufferSize p <=? String.length (buffer p)
    then checkForThinkingTag p result
    else Some (p, result)       (* Wait for more content *)
  else Some (processThinkingContent p content result).

(** Finalize finalizes parsing and returns any remaining content *)
Definition Finalize (p : ThinkingParser) : ThinkingParser * ThinkingParseResult :=
  let result := empty_result in
  (* If we have buffered content and never found thinking *)
  let '(p, result) :=
    if decide (buffer p <> "" /\ foundThinking p = false)
    then (mkParser (handlingMode p) (openTags p) (initialBufferSize p) (foundThinking p)
                   "" (inThinking p) (thinkingContent p)
                   (regularContent p) (thinkingTagOpen p) (thinkingTagClose p)
                   (thinkingStarted p) (thinkingEnded p) (firstThinkingSent p),
          set_result_regular result (buffer p))
    else (p, result) in
  (* If we're still in thinking, close it *)
  if inThinking p then
    let result :=
      set_result_thinking result
        (processForOutput p (thinkingContent p) (negb (firstThinkingSent p)) true) in
    let result := set_result_last result true in
    (mkParser (handlingMode p) (openTags p) (initialBufferSize p) (foundThinking p)
              (buffer p) false (thinkingContent p)
              (regularContent p) (thinkingTagOpen p) (thinkingTagClose p)
              (thinkingStarted p) true (firstThinkingSent p),
     result)
  else (p, result).

(** The PRE state: no tag decision yet. *)
Definition in_PRE (p : ThinkingParser) : Prop :=
  foundThinking p = false /\ inThinking p = false /\ thinkingEnded p = false.

(** Finalize as the claim words it: in PRE with buffered content, search
    the buffer for an open tag exactly as Feed does at the threshold. *)
Definition Finalize_searching (p : ThinkingParser)
  : option (ThinkingParser * ThinkingParseResult) :=
  if decide (buffer p <> "" /\ foundThinking p = false)
  then checkForThinkingTag p empty_result
  else Some (Finalize p).

End thinking.

(** * Package parser: the event-stream parser (parser/aws_event_stream.go) *)
Module parser.

(** EventType represents the type of parsed event *)
Inductive EventType :=
| EventTypeContent
| EventTypeToolStart
| EventTypeToolInput
| EventTypeToolStop
| EventTypeUsage
| EventTypeContextUsage.

(** ToolCall represents a completed tool call (Function.Name and
    Function.Arguments are flattened into the record). *)
Record ToolCall := mkToolCall {
  ID : string;
  Type_ : string;
  Name : string;
  Arguments : string
}.

Global Instance ToolCall_eq_dec : EqDecision ToolCall.
Proof. solve_decision. Defined.

(** The package encoding/json, as this parser uses it.  [Value] is what
    [json.Unmarshal] stores into an [interface{}]; [Unmarshal] is [None]
    when the call returns an error.  The typed decoders are the calls of
    [json.Unmarshal] into the anonymous structs of the process*Event
    functions; they return the fields of the struct. *)
Class EncodingJSON := {
  Value : Type;
  float64 : Type;
  Unmarshal : string -> option Value;
  Marshal : Value -> string;
  (** the type switch [switch v := data.Input.(type)] *)
  as_string : Value -> option string;
  is_object : Value -> bool;
  (** content, followupPrompt *)
  Unmarshal_content : string -> option (string * string);
  (** name, toolUseId, input, stop *)
  Unmarshal_toolStart : string -> option (string * string * Value * bool);
  (** input *)
  Unmarshal_toolInput : string -> option Value;
  (** stop *)
  Unmarshal_toolStop : string -> option bool;
  (** usage *)
  Unmarshal_usage : string -> option Z;
  (** contextUsagePercentage *)
  Unmarshal_contextUsage : string -> option float64
}.

Section with_json.
Context `{GoRuntime} `{EncodingJSON}.

(** Event represents a parsed event, with the payload types ContentData,
    UsageData and ContextUsageData. *)
Inductive Event :=
| ContentEvent (Content : string)
| UsageEvent (Credits : Z)
| ContextUsageEvent (Percentage : float64).

(** AwsEventStreamParser parses AWS Event Stream format.  [uuids] counts
    the identifiers drawn from the UUID generator so far. *)
Record AwsEventStreamParser := mkParser {
  buffer : string;
  lastContent : option string;
  currentToolCall : option ToolCall;
  toolCalls : list ToolCall;
  uuids : nat
}.

(** NewAwsEventStreamParser creates a new parser *)
Definition NewAwsEventStreamParser : AwsEventStreamParser :=
  mkParser "" None None [] 0.

(** utils.GenerateToolCallID: "call_" + uuid.New().String()[:24] *)
Definition GenerateToolCallID (n : nat) : string :=
  "call_" +:+ string_take 24 (uuid_New n).

(** The loop of FindMatchingBrace from index [i] on; [s] is text[i:]. *)
Fixpoint brace_walk (s : string) (i : nat) (braceCount : Z)
    (inString escapeNext : bool) : option nat :=
  match s with
  | EmptyString => None
  | String char s' =>
      if escapeNext then brace_walk s' (S i) braceCount inString false
      else if Ascii.eqb char backslash_byte && inString
      then brace_walk s' (S i) braceCount inString true
      else if Ascii.eqb char quote_byte && negb escapeNext
      then brace_walk s' (S i) braceCount (negb inString) escapeNext
      else if negb inString then
        if Ascii.eqb char "{" then
          brace_walk s' (S i) (braceCount + 1) inString escapeNext
        else if Ascii.eqb char "}" then
          let braceCount := (braceCount - 1)%Z in
          if (braceCount =? 0)%Z then Some i
          else brace_walk s' (S i) braceCount inString escapeNext
        else brace_walk s' (S i) braceCount inString escapeNext
      else brace_walk s' (S i) braceCount inString escapeNext
  end.

(** FindMatchingBrace finds the position of the closing brace; [None] is
    the result -1. *)
Definition FindMatchingBrace (text : string) (startPos : nat) : option nat :=
  match String.get startPos text with
  | Some c =>
      if Ascii.eqb c "{" then brace_walk (string_drop startPos text) startPos 0 false false
      else None
  | None => None        (* startPos >= len(text) *)
  end.

(** finalizeToolCall *)
Definition finalizeToolCall (p : AwsEventStreamParser) : AwsEventStreamParser :=
  match currentToolCall p with
  | None => p
  | Some tc =>
      let args := Arguments tc in
      (* Try to parse and normalize arguments as JSON *)
      let arguments :=
        if decide (args <> "") then
          match Unmarshal args with
          | Some parsed => Marshal parsed      (* Re-serialize to ensure valid JSON *)
          | None => "{}"
          end
        else "{}" in
      (* Generate ID if missing *)
      let '(id, uuids') :=
        if decide (ID tc = "") then (GenerateToolCallID (uuids p), S (uuids p))
        else (ID tc, uuids p) in
      mkParser (buffer p) (lastContent p) None
               (toolCalls p ++ [mkToolCall id (Type_ tc) (Name tc) arguments])
               uuids'
  end.

(** The result of a process*Event function: the event pointer (possibly
    nil) or an error. *)
Inductive Outcome :=
| Emitted (e : option Event)
| Failed.

Definition processContentEvent (p : AwsEventStreamParser) (jsonStr : string)
  : AwsEventStreamParser * Outcome :=
  match Unmarshal_content jsonStr with
  | None => (p, Failed)
  | Some (Content, FollowupPrompt) =>
      (* Skip followupPrompt *)
      if decide (FollowupPrompt <> "") then (p, Emitted None)
      (* Deduplicate repeating content *)
      else if decide (lastContent p = Some Content) then (p, Emitted None)
      else (mkParser (buffer p) (Some Content) (currentToolCall p) (toolCalls p) (uuids p),
            Emitted (Some (ContentEvent Content)))
  end.

(** The string taken from an [input] field by the type switch. *)
Definition input_string (v : Value) : string :=
  match as_string v with
  | Some s => s
  | None => if is_object v then Marshal v else ""
  end.

Definition processToolStartEvent (p : AwsEventStreamParser) (jsonStr : string)
  : AwsEventStreamParser * Outcome :=
  (* Finalize previous tool call if exists *)
  let p := match currentToolCall p with Some _ => finalizeToolCall p | None => p end in
  match Unmarshal_toolStart jsonStr with
  | None => (p, Failed)
  | Some (Name, ToolUseID, Input, Stop) =>
      let inputStr := input_string Input in
      let p := mkParser (buffer p) (lastContent p)
                        (Some (mkToolCall ToolUseID "function" Name inputStr))
                        (toolCalls p) (uuids p) in
      let p := if Stop then finalizeToolCall p else p in
      (p, Emitted None)
  end.

Definition processToolInputEvent (p : AwsEventStreamParser) (jsonStr : string)
  : AwsEventStreamParser * Outcome :=
  match currentToolCall p with
  | None => (p, Emitted None)
  | Some tc =>
      match Unmarshal_toolInput jsonStr with
      | None => (p, Failed)
      | Some Input =>
          let inputStr := input_string Input in
          (mkParser (buffer p) (lastContent p)
                    (Some (mkToolCall (ID tc) (Type_ tc) (Name tc) (Arguments tc +:+ inputStr)))
                    (toolCalls p) (uuids p),
           Emitted None)
      end
  end.

Definition processToolStopEvent (p : AwsEventStreamParser) (jsonStr : string)
  : AwsEventStreamParser * Outcome :=
  match Unmarshal_toolStop jsonStr with
  | None => (p, Failed)
  | Some Stop =>
      let p := match currentToolCall p with
               | Some _ => if Stop then finalizeToolCall p else p
               | None => p
               end in
      (p, Emitted None)
  end.

Definition processUsageEvent (p : AwsEventStreamParser) (jsonStr : string)
  : AwsEventStreamParser * Outcome :=
  match Unmarshal_usage jsonStr with
  | None => (p, Failed)
  | Some Usage => (p, Emitted (Some (UsageEvent Usage)))
  end.

Definition processContextUsageEvent (p : AwsEventStreamParser) (jsonStr : string)
  : AwsEventStreamParser * Outcome :=
  match Unmarshal_contextUsage jsonStr with
  | None => (p, Failed)
  | Some pct => (p, Emitted (Some (ContextUsageEvent pct)))
  end.

(** processEvent processes a parsed JSON event *)
Definition processEvent (p : AwsEventStreamParser) (jsonStr : string)
    (eventType : EventType) : AwsEventStreamParser * Outcome :=
  match eventType with
  | EventTypeContent => processContentEvent p jsonStr
  | EventTypeToolStart => processToolStartEvent p jsonStr
  | EventTypeToolInput => processToolInputEvent p jsonStr
  | EventTypeToolStop => processToolStopEvent p jsonStr
  | EventTypeUsage => processUsageEvent p jsonStr
  | EventTypeContextUsage => processContextUsageEvent p jsonStr
  end.

(** The literal prefixes Feed scans for, in the order of the source. *)
Definition patterns : list (string * EventType) :=
  [ ("{" +:+ dq +:+ "content" +:+ dq +:+ ":", EventTypeContent);
    ("{" +:+ dq +:+ "name" +:+ dq +:+ ":", EventTypeToolStart);
    ("{" +:+ dq +:+ "input" +:+ dq +:+ ":", EventTypeToolInput);
    ("{" +:+ dq +:+ "stop" +:+ dq +:+ ":", EventTypeToolStop);
    ("{" +:+ dq +:+ "usage" +:+ dq +:+ ":", EventTypeUsage);
    ("{" +:+ dq +:+ "contextUsagePercentage" +:+ dq +:+ ":", EventTypeContextUsage) ].

(** Find the earliest pattern: the inner [for _, pat := range patterns]. *)
Definition earliest_pattern (buffer : string) : option (nat * EventType) :=
  foldl (fun earliest '(pattern, t) =>
           match String.index 0 pattern buffer with
           | Some pos =>
               match earliest with
               | None => Some (pos, t)
               | Some (earliestPos, _) =>
                   if pos <? earliestPos then Some (pos, t) else earliest
               end
           | None => earliest
           end)
        None patterns.

(** The [for] loop of Feed.  Every round removes at least one byte from
    the buffer, so [fuel] larger than the buffer length is never used up
    (lemma [feed_loop_fuel]). *)
Fixpoint feed_loop (fuel : nat) (p : AwsEventStreamParser) (events : list Event)
  : AwsEventStreamParser * list Event :=
  match fuel with
  | O => (p, events)
  | S fuel =>
      match earliest_pattern (buffer p) with
      | None => (p, events)
      | Some (earliestPos, earliestType) =>
          (* Find JSON end *)
          match FindMatchingBrace (buffer p) earliestPos with
          | None => (p, events)     (* JSON not complete, wait for more data *)
          | Some jsonEnd =>
              let jsonStr :=
                String.substring earliestPos (jsonEnd + 1 - earliestPos) (buffer p) in
              let p := mkParser (string_drop (jsonEnd + 1) (buffer p)) (lastContent p)
                                (currentToolCall p) (toolCalls p) (uuids p) in
              match processEvent p jsonStr earliestType with
              | (p, Failed) => feed_loop fuel p events
              | (p, Emitted (Some event)) => feed_loop fuel p (events ++ [event])
              | (p, Emitted None) => feed_loop fuel p events
              end
          end
      end
  end.

(** Feed adds a chunk to the buffer and returns parsed events *)
Definition Feed (p : AwsEventStreamParser) (chunk : string)
  : AwsEventStreamParser * list Event :=
  let p := mkParser (buffer p +:+ chunk) (lastContent p) (currentToolCall p)
                    (toolCalls p) (uuids p) in
  feed_loop (S (String.length (buffer p))) p [].

(** First loop of DeduplicateToolCalls: deduplicate by ID, keeping the
    tool call with non-empty arguments. *)
Definition byID_step (byID : gmap string ToolCall) (tc : ToolCall)
  : gmap string ToolCall :=
  if decide (ID tc = "") then byID
  else match byID !! ID tc with
       | None => <[ID tc := tc]> byID
       | Some existing =>
           (* Prefer non-empty arguments *)
           if decide (Arguments tc <> "{}" /\
                      (Arguments existing = "{}" \/
                       String.length (Arguments existing) < String.length (Arguments tc)))
           then <[ID tc := tc]> byID
           else byID
       end.

(** The key fmt.Sprintf("%s-%s", tc.Function.Name, tc.Function.Arguments). *)
Definition dedup_key (tc : ToolCall) : string := Name tc +:+ "-" +:+ Arguments tc.

(** Last loop of DeduplicateToolCalls: deduplicate by name+arguments. *)
Definition unique_step (st : gmap string bool * list ToolCall) (tc : ToolCall)
  : gmap string bool * list ToolCall :=
  let '(seen, unique) := st in
  let key := dedup_key tc in
  if negb (index_bool seen key)
  then (<[key := true]> seen, unique ++ [tc])
  else (seen, unique).

(** DeduplicateToolCalls removes duplicate tool calls *)
Definition DeduplicateToolCalls (toolCalls : list ToolCall) : list ToolCall :=
  if decide (length toolCalls = 0) then []
  else
    let byID := foldl byID_step ∅ toolCalls in
    (* Collect tool calls with ID *)
    let result := foldl (fun result '(_, tc) => result ++ [tc]) [] (map_range byID) in
    (* Add tool calls without ID *)
    let result :=
      foldl (fun result tc => if decide (ID tc = "") then result ++ [tc] else result)
            result toolCalls in
    let unique := snd (foldl unique_step (∅, []) result) in
    unique.

(** GetToolCalls returns all collected tool calls *)
Definition GetToolCalls (p : AwsEventStreamParser)
  : AwsEventStreamParser * list ToolCall :=
  let p := match currentToolCall p with Some _ => finalizeToolCall p | None => p end in
  (p, DeduplicateToolCalls (toolCalls p)).

(** Reset resets the parser state *)
Definition Reset (p : AwsEventStreamParser) : AwsEventStreamParser :=
  mkParser "" None None [] (uuids p).

(** The parser after a sequence of feeds. *)
Definition feed_all (chunks : list string) : AwsEventStreamParser :=
  foldl (fun p chunk => fst (Feed p chunk)) NewAwsEventStreamParser chunks.

End with_json.
End parser.
(** * A reference JSON reader

    The theorems about the parser hold for every implementation of
    [EncodingJSON].  To run the parser on the byte streams of the test
    suite and of the end-to-end scenarios one implementation is needed;
    this one reads the JSON grammar (objects, arrays, strings with the
    two-character escapes, number literals, true, false, null) and keeps
    number literals as text. *)
Module refjson.

Inductive jvalue :=
| JNull
| JBool (b : bool)
| JNumber (literal : string)
| JString (s : string)
| JArray (items : list jvalue)
| JObject (members : list (string * jvalue)).

Definition is_ws (c : ascii) : bool :=
  Ascii.eqb c " " || Ascii.eqb c (ascii_of_nat 9) || Ascii.eqb c (ascii_of_nat 10)
  || Ascii.eqb c (ascii_of_nat 13).

Fixpoint skip_ws (s : string) : string :=
  match s with
  | String c s' => if is_ws c then skip_ws s' else s
  | EmptyString => s
  end.

Definition is_digit (c : ascii) : bool :=
  (48 <=? nat_of_ascii c) && (nat_of_ascii c <=? 57).

Definition is_number_byte (c : ascii) : bool :=
  is_digit c || Ascii.eqb c "-" || Ascii.eqb c "+" || Ascii.eqb c "."
  || Ascii.eqb c "e" || Ascii.eqb c "E".

(** The longest prefix of number bytes, and the rest. *)
Fixpoint span_number (s : string) : string * string :=
  match s with
  | String c s' =>
      if is_number_byte c then let '(n, r) := span_number s' in (String c n, r)
      else (EmptyString, s)
  | EmptyString => (EmptyString, EmptyString)
  end.

(** The body of a string literal after its opening quote: the decoded text
    and what follows the closing quote. *)
Fixpoint read_string (s : string) : option (string * string) :=
  match s with
  | EmptyString => None
  | String c s' =>
      if Ascii.eqb c quote_byte then Some (EmptyString, s')
      else if Ascii.eqb c backslash_byte then
        match s' with
        | String e s'' =>
            let decoded :=
              if Ascii.eqb e "n" then Some (ascii_of_nat 10)
              else if Ascii.eqb e "t" then Some (ascii_of_nat 9)
              else if Ascii.eqb e "r" then Some (ascii_of_nat 13)
              else if Ascii.eqb e "b" then Some (ascii_of_nat 8)
              else if Ascii.eqb e "f" then Some (ascii_of_nat 12)
              else if Ascii.eqb e "/" then Some e
              else if Ascii.eqb e quote_byte then Some e
              else if Ascii.eqb e backslash_byte then Some e
              else None in
            match decoded, read_string s'' with
            | Some d, Some (t, r) => Some (String d t, r)
            | _, _ => None
            end
        | EmptyString => None
        end
      else match read_string s' with
           | Some (t, r) => Some (String c t, r)
           | None => None
           end
  end.

Definition expect (lit : string) (v : jvalue) (s : string) : option (jvalue * string) :=
  if String.prefix lit s then Some (v, string_drop (String.length lit) s) else None.

Fixpoint read_value (fuel : nat) (s : string) : option (jvalue * string) :=
  match fuel with
  | O => None
  | S fuel =>
      match skip_ws s with
      | EmptyString => None
      | String c s' =>
          if Ascii.eqb c "n" then expect "null" JNull (String c s')
          else if Ascii.eqb c "t" then expect "true" (JBool true) (String c s')
          else if Ascii.eqb c "f" then expect "false" (JBool false) (String c s')
          else if Ascii.eqb c quote_byte then
            match read_string s' with
            | Some (t, r) => Some (JString t, r)
            | None => None
            end
          else if Ascii.eqb c "[" then
            match skip_ws s' with
            | String "]" r => Some (JArray [], r)
            | _ => match read_items fuel s' with
                   | Some (l, r) => Some (JArray l, r)
                   | None => None
                   end
            end
          else if Ascii.eqb c "{" then
            match skip_ws s' with
            | String "}" r => Some (JObject [], r)
            | _ => match read_members fuel s' with
                   | Some (l, r) => Some (JObject l, r)
                   | None => None
                   end
            end
          else if is_digit c || Ascii.eqb c "-" then
            let '(n, r) := span_number (String c s') in Some (JNumber n, r)
          else None
      end
  end
with read_items (fuel : nat) (s : string) : option (list jvalue * string) :=
  match fuel with
  | O => None
  | S fuel =>
      match read_value fuel s with
      | Some (v, r) =>
          match skip_ws r with
          | String "," r' =>
              match read_items fuel r' with
              | Some (l, r'') => Some (v :: l, r'')
              | None => None
              end
          | String "]" r' => Some ([v], r')
          | _ => None
          end
      | None => None
      end
  end
with read_members (fuel : nat) (s : string) : option (list (string * jvalue) * string) :=
  match fuel with
  | O => None
  | S fuel =>
      match skip_ws s with
      | String c s' =>
          if Ascii.eqb c quote_byte then
            match read_string s' with
            | Some (k, r) =>
                match skip_ws r with
                | String ":" r' =>
                    match read_value fuel r' with
                    | Some (v, r'') =>
                        match skip_ws r'' with
                        | String "," r3 =>
                            match read_members fuel r3 with
                            | Some (l, r4) => Some ((k, v) :: l, r4)
                            | None => None
                            end
                        | String "}" r3 => Some ([(k, v)], r3)
                        | _ => None
                        end
                    | None => None
                    end
                | _ => None
                end
            | None => None
            end
          else None
      | EmptyString => None
      end
  end.

(** A whole document: one value, then only white space. *)
Definition read (s : string) : option jvalue :=
  match read_value (S (String.length s)) s with
  | Some (v, r) => match skip_ws r with EmptyString => Some v | _ => None end
  | None => None
  end.

Fixpoint escape (s : string) : string :=
  match s with
  | EmptyString => EmptyString
  | String c s' =>
      if Ascii.eqb c quote_byte || Ascii.eqb c backslash_byte
      then String backslash_byte (String c (escape s'))
      else if Ascii.eqb c (ascii_of_nat 10) then String backslash_byte (String "n" (escape s'))
      else String c (escape s')
  end.

Fixpoint write (v : jvalue) : string :=
  match v with
  | JNull => "null"
  | JBool true => "true"
  | JBool false => "false"
  | JNumber n => n
  | JString s => dq +:+ escape s +:+ dq
  | JArray l => "[" +:+ String.concat "," (map write l) +:+ "]"
  | JObject l =>
      "{" +:+ String.concat ","
                (map (fun kv => dq +:+ escape (fst kv) +:+ dq +:+ ":" +:+ write (snd kv)) l)
          +:+ "}"
  end.

(** Decimal digits of an integer literal. *)
Fixpoint digits_value (s : string) (acc : Z) : option Z :=
  match s with
  | EmptyString => Some acc
  | String c s' =>
      if is_digit c then digits_value s' (acc * 10 + Z.of_nat (nat_of_ascii c - 48))
      else None
  end.

Definition int_of_literal (n : string) : option Z :=
  match n with
  | String "-" ds => match ds with
                     | EmptyString => None
                     | _ => Z.opp <$> digits_value ds 0
                     end
  | EmptyString => None
  | _ => digits_value n 0
  end.

(** Member lookup: the last member with that key. *)
Definition member (k : string) (l : list (string * jvalue)) : option jvalue :=
  snd <$> last (filter (fun kv => fst kv = k) l).

(** Decoding a member into a struct field of type string, bool, int,
    interface{}: an absent member or null leaves the zero value, a value of
    another JSON type is an error. *)
Definition field_string (k : string) (l : list (string * jvalue)) : option string :=
  match member k l with
  | None | Some JNull => Some ""
  | Some (JString s) => Some s
  | Some _ => None
  end.

Definition field_bool (k : string) (l : list (string * jvalue)) : option bool :=
  match member k l with
  | None | Some JNull => Some false
  | Some (JBool b) => Some b
  | Some _ => None
  end.

Definition field_int (k : string) (l : list (string * jvalue)) : option Z :=
  match member k l with
  | None | Some JNull => Some 0%Z
  | Some (JNumber n) => int_of_literal n
  | Some _ => None
  end.

Definition field_number (k : string) (l : list (string * jvalue)) : option string :=
  match member k l with
  | None | Some JNull => Some "0"
  | Some (JNumber n) => Some n
  | Some _ => None
  end.

Definition field_any (k : string) (l : list (string * jvalue)) : string :=
  match member k l with
  | None => "null"
  | Some v => write v
  end.

Definition read_object (s : string) : option (list (string * jvalue)) :=
  match read s with
  | Some (JObject l) => Some l
  | _ => None
  end.

End refjson.

(** The reference reader as an implementation of [parser.EncodingJSON]:
    an interface{} value is kept as the text of a valid document (so
    re-serialising it gives that text back), numbers are kept as
    literals. *)
Definition reference_json : parser.EncodingJSON :=
  {| parser.Value := string;
     parser.float64 := string;
     parser.Unmarshal := fun s =>
       match refjson.read s with Some _ => Some s | None => None end;
     parser.Marshal := fun v => v;
     parser.as_string := fun v =>
       match refjson.read v with Some (refjson.JString t) => Some t | _ => None end;
     parser.is_object := fun v =>
       match refjson.read v with Some (refjson.JObject _) => true | _ => false end;
     parser.Unmarshal_content := fun s =>
       l ← refjson.read_object s;
       c ← refjson.field_string "content" l;
       f ← refjson.field_string "followupPrompt" l;
       Some (c, f);
     parser.Unmarshal_toolStart := fun s =>
       l ← refjson.read_object s;
       n ← refjson.field_string "name" l;
       i ← refjson.field_string "toolUseId" l;
       b ← refjson.field_bool "stop" l;
       Some (n, i, refjson.field_any "input" l, b);
     parser.Unmarshal_toolInput := fun s =>
       l ← refjson.read_object s;
       Some (refjson.field_any "input" l);
     parser.Unmarshal_toolStop := fun s =>
       l ← refjson.read_object s;
       refjson.field_bool "stop" l;
     parser.Unmarshal_usage := fun s =>
       l ← refjson.read_object s;
       refjson.field_int "usage" l;
     parser.Unmarshal_contextUsage := fun s =>
       l ← refjson.read_object s;
       refjson.field_number "contextUsagePercentage" l |}.

(** A JSON string literal with the given text (no escapes needed). *)
Definition quoted (s : string) : string := dq +:+ s +:+ dq.

(** The upstream stream of the tool-call scenario:
    {"name":"get_weather","toolUseId":"t1"}{"input":"{\"city\":\"Paris\"}"}{"stop":true} *)
Definition weather_stream : string :=
  "{" +:+ quoted "name" +:+ ":" +:+ quoted "get_weather" +:+ ","
      +:+ quoted "toolUseId" +:+ ":" +:+ quoted "t1" +:+ "}"
  +:+ "{" +:+ quoted "input" +:+ ":" +:+ dq
      +:+ "{" +:+ String backslash_byte (quoted ("city" +:+ String backslash_byte ""))
      +:+ ":" +:+ String backslash_byte (quoted ("Paris" +:+ String backslash_byte "")) +:+ "}"
      +:+ dq +:+ "}"
  +:+ "{" +:+ quoted "stop" +:+ ":true}".

(** The arguments of that call: {"city":"Paris"} *)
Definition paris_arguments : string :=
  "{" +:+ quoted "city" +:+ ":" +:+ quoted "Paris" +:+ "}".

(** * Bytes and case *)

(** The byte is below utf8.RuneSelf (0x80). *)
Definition byte_is_ascii (c : ascii) : bool := nat_of_ascii c <? 128.

Definition byte_is_upper (c : ascii) : bool :=
  (65 <=? nat_of_ascii c) && (nat_of_ascii c <=? 90).

(** c += 'a' - 'A' for 'A' <= c <= 'Z'. *)
Definition byte_lower (c : ascii) : ascii :=
  if byte_is_upper c then ascii_of_nat (nat_of_ascii c + 32) else c.

Fixpoint string_forallb (f : ascii -> bool) (s : string) : bool :=
  match s with
  | EmptyString => true
  | String c s' => f c && string_forallb f s'
  end.

Fixpoint string_map (f : ascii -> ascii) (s : string) : string :=
  match s with
  | EmptyString => EmptyString
  | String c s' => String (f c) (string_map f s')
  end.

Definition isASCII (s : string) : bool := string_forallb byte_is_ascii s.

Section strings_package.
Context `{GoRuntime}.

(** strings.ToLower: byte-wise on a string of ASCII bytes (the fast path of
    the library function); on any other string it is the Unicode mapping,
    which belongs to the runtime. *)
Definition strings_ToLower (s : string) : string :=
  if isASCII s then string_map byte_lower s else unicode_ToLower s.

End strings_package.

(** * Package regexp, as far as the sources use it

    Regular expressions are values of [Regexp]; matching is a backtracking
    search that prefers the first alternative and the longest repetition,
    which yields the leftmost-first submatches that package regexp
    reports.  Subject strings are matched byte by byte. *)
Module regexp.

Inductive Regexp :=
| Empty                                             (* the empty expression *)
| Lit (text : string)                               (* literal text *)
| LitFold (text : string)                           (* literal text under (?i); text in lower case *)
| Class (cls : ascii -> bool)                       (* one byte of a class *)
| Seq (r1 r2 : Regexp)
| Alt (r1 r2 : Regexp)                              (* r1|r2 *)
| Opt (r : Regexp)                                  (* r? *)
| Repeat (cls : ascii -> bool) (min : nat) (max : option nat)   (* cls{min,max}, cls+, cls* *)
| Group (n : nat) (r : Regexp)                      (* the n-th capturing group *)
| Bol                                               (* ^ *)
| Eol.                                              (* $ *)

(** Concatenation of a list of expressions. *)
Definition cat (rs : list Regexp) : Regexp := foldr Seq Empty rs.

(** \d, \w, \s and . *)
Definition digit (c : ascii) : bool := (48 <=? nat_of_ascii c) && (nat_of_ascii c <=? 57).
Definition word (c : ascii) : bool :=
  digit c || byte_is_upper c
  || ((97 <=? nat_of_ascii c) && (nat_of_ascii c <=? 122)) || Ascii.eqb c "_".
Definition space (c : ascii) : bool :=
  Ascii.eqb c " " || ((9 <=? nat_of_ascii c) && (nat_of_ascii c <=? 10))
  || ((12 <=? nat_of_ascii c) && (nat_of_ascii c <=? 13)).
Definition any (c : ascii) : bool := negb (Ascii.eqb c (ascii_of_nat 10)).

(** Submatches: group number to start offset and matched text. *)
Definition Captures := gmap nat (nat * string).

(** [text] is a prefix of [s] up to ASCII case.  This is the folding of
    (?i) on ASCII letters; package regexp also folds U+212A (KELVIN SIGN)
    with k and U+017F (LATIN SMALL LETTER LONG S) with s, which concerns
    only texts that hold these code points. *)
Fixpoint fold_prefix (text s : string) : bool :=
  match text, s with
  | EmptyString, _ => true
  | String a text', String b s' => Ascii.eqb a (byte_lower b) && fold_prefix text' s'
  | String _ _, EmptyString => false
  end.

Definition Cont := nat -> string -> Captures -> option Captures.

(** Greedy repetition of a class: take one more byte when allowed, fall
    back to stopping here. *)
Fixpoint run_repeat (cls : ascii -> bool) (min : nat) (max : option nat)
    (pos : nat) (s : string) (caps : Captures) (k : Cont) : option Captures :=
  match s with
  | String c s' =>
      if cls c && (match max with Some O => false | _ => true end) then
        match run_repeat cls (pred min) (pred <$> max) (S pos) s' caps k with
        | Some r => Some r
        | None => if min =? 0 then k pos s caps else None
        end
      else if min =? 0 then k pos s caps else None
  | EmptyString => if min =? 0 then k pos s caps else None
  end.

(** [run r pos s caps k]: match [r] at offset [pos], where [s] is the rest
    of the subject, then continue with [k]. *)
Fixpoint run (r : Regexp) (pos : nat) (s : string) (caps : Captures) (k : Cont)
  : option Captures :=
  match r with
  | Empty => k pos s caps
  | Lit text =>
      if String.prefix text s
      then k (pos + String.length text) (string_drop (String.length text) s) caps
      else None
  | LitFold text =>
      if fold_prefix text s
      then k (pos + String.length text) (string_drop (String.length text) s) caps
      else None
  | Class cls =>
      match s with
      | String c s' => if cls c then k (S pos) s' caps else None
      | EmptyString => None
      end
  | Seq r1 r2 => run r1 pos s caps (fun pos' s' caps' => run r2 pos' s' caps' k)
  | Alt r1 r2 =>
      match run r1 pos s caps k with
      | Some res => Some res
      | None => run r2 pos s caps k
      end
  | Opt r1 =>
      match run r1 pos s caps k with
      | Some res => Some res
      | None => k pos s caps
      end
  | Repeat cls min max => run_repeat cls min max pos s caps k
  | Group n r1 =>
      run r1 pos s caps
          (fun pos' s' caps' => k pos' s' (<[n := (pos, string_take (pos' - pos) s)]> caps'))
  | Bol => if pos =? 0 then k pos s caps else None
  | Eol => match s with EmptyString => k pos s caps | _ => None end
  end.

(** A match starting exactly at [pos]; group 0 is the whole match. *)
Definition match_at (r : Regexp) (pos : nat) (s : string) : option Captures :=
  run (Group 0 r) pos s ∅ (fun _ _ caps => Some caps).

(** The leftmost match at or after [pos]. *)
Fixpoint search (r : Regexp) (pos : nat) (s : string) : option Captures :=
  match match_at r pos s with
  | Some caps => Some caps
  | None =>
      match s with
      | String _ s' => search r (S pos) s'
      | EmptyString => None
      end
  end.

(** The text of group [i]; the empty string when the group took no part. *)
Definition submatch (caps : Captures) (i : nat) : string :=
  match caps !! i with Some (_, text) => text | None => "" end.

(** re.FindStringSubmatch(s): [None] is the nil slice, otherwise the
    slice as a function of the index. *)
Definition FindStringSubmatch (r : Regexp) (s : string) : option (nat -> string) :=
  submatch <$> search r 0 s.

(** re.FindAllStringSubmatchIndex(s, -1), for expressions that do not match
    the empty string: successive non-overlapping matches. *)
Fixpoint find_all (fuel : nat) (r : Regexp) (pos : nat) (s : string) : list Captures :=
  match fuel with
  | O => []
  | S fuel =>
      match search r pos s with
      | None => []
      | Some caps =>
          match caps !! 0 with
          | Some (start, text) =>
              let stop := start + String.length text in
              let next := if String.length text =? 0 then S stop else stop in
              caps :: find_all fuel r next (string_drop (next - pos) s)
          | None => [caps]
          end
      end
  end.

Definition FindAllStringSubmatchIndex (r : Regexp) (s : string) : list Captures :=
  find_all (S (String.length s)) r 0 s.

(** [Matches r pos w rest caps caps']: at offset [pos], [r] matches the
    word [w], followed by [rest], and turns the submatches [caps] into
    [caps']. *)
Inductive Matches : Regexp -> nat -> string -> string -> Captures -> Captures -> Prop :=
| M_Empty pos rest c : Matches Empty pos "" rest c c
| M_Lit t pos rest c : Matches (Lit t) pos t rest c c
| M_LitFold t pos w rest c :
    string_map byte_lower w = t -> Matches (LitFold t) pos w rest c c
| M_Class cls ch pos rest c :
    cls ch = true -> Matches (Class cls) pos (String ch "") rest c c
| M_Seq r1 r2 pos w1 w2 rest c c1 c2 :
    Matches r1 pos w1 (w2 +:+ rest) c c1 ->
    Matches r2 (pos + String.length w1) w2 rest c1 c2 ->
    Matches (Seq r1 r2) pos (w1 +:+ w2) rest c c2
| M_AltL r1 r2 pos w rest c c' :
    Matches r1 pos w rest c c' -> Matches (Alt r1 r2) pos w rest c c'
| M_AltR r1 r2 pos w rest c c' :
    Matches r2 pos w rest c c' -> Matches (Alt r1 r2) pos w rest c c'
| M_OptSome r pos w rest c c' :
    Matches r pos w rest c c' -> Matches (Opt r) pos w rest c c'
| M_OptNone r pos rest c : Matches (Opt r) pos "" rest c c
| M_Repeat cls min max pos w rest c :
    string_forallb cls w = true -> min <= String.length w ->
    (forall m, max = Some m -> String.length w <= m) ->
    Matches (Repeat cls min max) pos w rest c c
| M_Group n r pos w rest c c' :
    Matches r pos w rest c c' ->
    Matches (Group n r) pos w rest c (<[n := (pos, w)]> c')
| M_Bol rest c : Matches Bol 0 "" rest c c
| M_Eol pos c : Matches Eol pos "" "" c c.

(** ** Static bounds

    [weight f w] adds up [f] over the bytes of [w]; [lower f r] and
    [upper f r] bound the weight of every word that [r] matches ([None]:
    no bound). *)
Fixpoint weight (f : ascii -> Z) (s : string) : Z :=
  match s with
  | EmptyString => 0%Z
  | String c s' => (f c + weight f s')%Z
  end.

Definition all_bytes : list ascii := List.map ascii_of_nat (seq 0 256).

Definition class_lo (f : ascii -> Z) (cls : ascii -> bool) : Z :=
  fold_right Z.min 0%Z (List.map f (List.filter cls all_bytes)).
Definition class_hi (f : ascii -> Z) (cls : ascii -> bool) : Z :=
  fold_right Z.max 0%Z (List.map f (List.filter cls all_bytes)).

Definition lift2 (g : Z -> Z -> Z) (a b : option Z) : option Z :=
  match a, b with Some x, Some y => Some (g x y) | _, _ => None end.

Fixpoint lower (f : ascii -> Z) (r : Regexp) : option Z :=
  match r with
  | Empty | Bol | Eol => Some 0%Z
  | Lit t => Some (weight f t)
  | LitFold _ => None
  | Class cls => Some (class_lo f cls)
  | Seq r1 r2 => lift2 Z.add (lower f r1) (lower f r2)
  | Alt r1 r2 => lift2 Z.min (lower f r1) (lower f r2)
  | Opt r1 => lift2 Z.min (lower f r1) (Some 0%Z)
  | Repeat cls _ max =>
      if (class_lo f cls =? 0)%Z then Some 0%Z
      else (fun m => Z.of_nat m * class_lo f cls)%Z <$> max
  | Group _ r1 => lower f r1
  end.

Fixpoint upper (f : ascii -> Z) (r : Regexp) : option Z :=
  match r with
  | Empty | Bol | Eol => Some 0%Z
  | Lit t => Some (weight f t)
  | LitFold _ => None
  | Class cls => Some (class_hi f cls)
  | Seq r1 r2 => lift2 Z.add (upper f r1) (upper f r2)
  | Alt r1 r2 => lift2 Z.max (upper f r1) (upper f r2)
  | Opt r1 => lift2 Z.max (upper f r1) (Some 0%Z)
  | Repeat cls _ max =>
      if (class_hi f cls =? 0)%Z then Some 0%Z
      else (fun m => Z.of_nat m * class_hi f cls)%Z <$> max
  | Group _ r1 => upper f r1
  end.

(** No capturing group inside. *)
Fixpoint group_free (r : Regexp) : bool :=
  match r with
  | Group _ _ => false
  | Seq r1 r2 | Alt r1 r2 => group_free r1 && group_free r2
  | Opt r1 => group_free r1
  | _ => true
  end.

(** The expression ends with $. *)
Fixpoint final_eol (r : Regexp) : bool :=
  match r with
  | Eol => true
  | Seq Eol Empty => true
  | Seq _ r2 => final_eol r2
  | _ => false
  end.

(** Neither group nor anchor inside: what the expression matches does not
    depend on where the word stands. *)
Fixpoint context_free (r : Regexp) : bool :=
  match r with
  | Group _ _ | Bol | Eol => false
  | Seq r1 r2 | Alt r1 r2 => context_free r1 && context_free r2
  | Opt r1 => context_free r1
  | _ => true
  end.

End regexp.

(** * Package model: name normalisation (model/resolver.go) *)
Module resolver.
Import regexp.

(** (?:haiku|sonnet|opus) *)
Definition family : Regexp := Alt (Lit "haiku") (Alt (Lit "sonnet") (Lit "opus")).

(** (?:-(?:\d{8}|latest|\d+))? *)
Definition suffix : Regexp :=
  Opt (Seq (Lit "-")
           (Alt (Repeat digit 8 (Some 8)) (Alt (Lit "latest") (Repeat digit 1 None)))).

(** ^(claude-(?:haiku|sonnet|opus)-\d+)-(\d{1,2})(?:-(?:\d{8}|latest|\d+))?$ *)
Definition standardPattern : Regexp :=
  cat [Bol;
       Group 1 (cat [Lit "claude-"; family; Lit "-"; Repeat digit 1 None]);
       Lit "-";
       Group 2 (Repeat digit 1 (Some 2));
       suffix;
       Eol].

(** ^(claude-(?:haiku|sonnet|opus)-\d+)(?:-\d{8})?$ *)
Definition noMinorPattern : Regexp :=
  cat [Bol;
       Group 1 (cat [Lit "claude-"; family; Lit "-"; Repeat digit 1 None]);
       Opt (Seq (Lit "-") (Repeat digit 8 (Some 8)));
       Eol].

(** ^(claude)-(\d+)-(\d+)-(haiku|sonnet|opus)(?:-(?:\d{8}|latest|\d+))?$ *)
Definition legacyPattern : Regexp :=
  cat [Bol;
       Group 1 (Lit "claude"); Lit "-";
       Group 2 (Repeat digit 1 None); Lit "-";
       Group 3 (Repeat digit 1 None); Lit "-";
       Group 4 family;
       suffix;
       Eol].

(** ^(claude-(?:\d+\.\d+-)?(?:haiku|sonnet|opus)(?:-\d+\.\d+)?)-\d{8}$ *)
Definition dotWithDatePattern : Regexp :=
  cat [Bol;
       Group 1 (cat [Lit "claude-";
                     Opt (cat [Repeat digit 1 None; Lit "."; Repeat digit 1 None; Lit "-"]);
                     family;
                     Opt (cat [Lit "-"; Repeat digit 1 None; Lit "."; Repeat digit 1 None])]);
       Lit "-";
       Repeat digit 8 (Some 8);
       Eol].

(** ^claude-(\d+)\.(\d+)-(haiku|sonnet|opus)-(.+)$ *)
Definition invertedPattern : Regexp :=
  cat [Bol;
       Lit "claude-";
       Group 1 (Repeat digit 1 None); Lit ".";
       Group 2 (Repeat digit 1 None); Lit "-";
       Group 3 family; Lit "-";
       Group 4 (Repeat any 1 None);
       Eol].

(** (?i)(haiku|sonnet|opus) *)
Definition familyPattern : Regexp :=
  Group 1 (Alt (LitFold "haiku") (Alt (LitFold "sonnet") (LitFold "opus"))).

Section with_runtime.
Context `{GoRuntime}.

(** NormalizeModelName normalizes client model name to Kiro format *)
Definition NormalizeModelName (name : string) : string :=
  if decide (name = "") then name
  else
    let nameLower := strings_ToLower name in
    (* Pattern 1: Standard format - claude-{family}-{major}-{minor}(-{suffix})? *)
    match FindStringSubmatch standardPattern nameLower with
    | Some m => m 1 +:+ "." +:+ m 2
    | None =>
    (* Pattern 2: Standard format without minor - claude-{family}-{major}(-{date})? *)
    match FindStringSubmatch noMinorPattern nameLower with
    | Some m => m 1
    | None =>
    (* Pattern 3: Legacy format - claude-{major}-{minor}-{family}(-{suffix})? *)
    match FindStringSubmatch legacyPattern nameLower with
    | Some m => m 1 +:+ "-" +:+ m 2 +:+ "." +:+ m 3 +:+ "-" +:+ m 4
    | None =>
    (* Pattern 4: Already normalized with dot but has date suffix *)
    match FindStringSubmatch dotWithDatePattern nameLower with
    | Some m => m 1
    | None =>
    (* Pattern 5: Inverted format with suffix - claude-{major}.{minor}-{family}-{suffix} *)
    match FindStringSubmatch invertedPattern nameLower with
    | Some m => "claude-" +:+ m 3 +:+ "-" +:+ m 1 +:+ "." +:+ m 2
    | None => name
    end end end end end.

(** ExtractModelFamily extracts model family from model name *)
Definition ExtractModelFamily (modelName : string) : string :=
  match FindStringSubmatch familyPattern modelName with
  | Some familyMatch => strings_ToLower (familyMatch 1)
  | None => ""
  end.

End with_runtime.
End resolver.

(** * Package config (config/config.go), the fields used below *)
Module config.

Record Config := mkConfig {
  FakeReasoningEnabled : bool;
  FakeReasoningHandling : string;
  FakeReasoningOpenTags : list string;
  FakeReasoningBufferSize : Z;
  MaxRetries : Z;
  TokenRefreshThreshold : Z
}.

End config.

(** * Package parser: bracket-style tool calls (parser/aws_event_stream.go) *)
Module bracket.
Import regexp.

(** (?i)\[Called\s+(\w+)\s+with\s+args:\s* *)
Definition pattern : Regexp :=
  cat [LitFold "[called"; Repeat space 1 None;
       Group 1 (Repeat word 1 None); Repeat space 1 None;
       LitFold "with"; Repeat space 1 None;
       LitFold "args:"; Repeat space 0 None].

Section with_json.
Context `{GoRuntime} `{parser.EncodingJSON}.

(** The body of the loop over the matches; [n] counts the identifiers
    drawn from the UUID generator. *)
Definition parse_match (responseText : string) (st : list parser.ToolCall * nat)
    (m : Captures) : list parser.ToolCall * nat :=
  let '(toolCalls, n) := st in
  match m !! 0, m !! 1 with
  | Some (start, text), Some (_, funcName) =>
      let argsStart := start + String.length text in
      (* Find JSON start *)
      match strings_Index (string_drop argsStart responseText) "{" with
      | None => st
      | Some jsonStart =>
          let jsonStart := jsonStart + argsStart in
          (* Find JSON end *)
          match parser.FindMatchingBrace responseText jsonStart with
          | None => st
          | Some jsonEnd =>
              let jsonStr := String.substring jsonStart (jsonEnd + 1 - jsonStart) responseText in
              match parser.Unmarshal jsonStr with
              | Some args =>
                  (toolCalls ++ [parser.mkToolCall (parser.GenerateToolCallID n) "function"
                                   funcName (parser.Marshal args)],
                   S n)
              | None => st
              end
          end
      end
  | _, _ => st
  end.

(** ParseBracketToolCalls parses tool calls in
    [Called func_name with args: {...}] format *)
Definition ParseBracketToolCalls (responseText : string) (n : nat)
  : list parser.ToolCall * nat :=
  if bool_decide (responseText = "") || negb (strings_Contains responseText "[Called")
  then ([], n)
  else foldl (parse_match responseText) ([], n)
             (FindAllStringSubmatchIndex pattern responseText).

End with_json.
End bracket.

(** * Package stream (stream/stream.go) *)
Module stream.

(** Arithmetic on float64, as CalculateTokensFromContextUsage uses it. *)
Class Float64 `{parser.EncodingJSON} := {
  (** p > 0 *)
  positive : parser.float64 -> bool;
  (** int((p / 100) * float64(maxInputTokens)) *)
  share_of : parser.float64 -> Z -> Z
}.

Section with_json.
Context `{GoRuntime} `{parser.EncodingJSON} `{!Float64}.

(** KiroEvent represents a unified event from Kiro API stream: the Type
    tag with the fields that events of that type carry. *)
Inductive KiroEvent :=
| ContentEvent (Content : string)
| ThinkingEvent (ThinkingContent : string) (IsFirstThinkingChunk IsLastThinkingChunk : bool)
| ToolUseEvent (ToolUse : parser.ToolCall)
| UsageEvent (credits : Z)
| ContextUsageEvent (ContextUsagePercentage : parser.float64).

Definition Type_ (e : KiroEvent) : string :=
  match e with
  | ContentEvent _ => "content"
  | ThinkingEvent _ _ _ => "thinking"
  | ToolUseEvent _ => "tool_use"
  | UsageEvent _ => "usage"
  | ContextUsageEvent _ => "context_usage"
  end.

(** StreamResult represents the collected stream result *)
Record StreamResult := mkStreamResult {
  Content : string;
  ThinkingContent : string;
  ToolCalls : list parser.ToolCall;
  Usage : option Z;
  ContextUsagePercentage : option parser.float64
}.

(** The body of an http.Response as the reader delivers it: the chunks
    that reader.Read returns, then io.EOF or another error. *)
Inductive ReadEnd :=
| EOF
| ReadError (message : string).

Definition Body : Type := list string * ReadEnd.

(** processAwsEvent; [None] is a panic of the thinking parser. *)
Definition processAwsEvent (event : parser.Event)
    (thinkingParser : option thinking.ThinkingParser)
  : option (option thinking.ThinkingParser * option KiroEvent) :=
  match event with
  | parser.ContentEvent content =>
      match thinkingParser with
      | Some tp =>
          '(tp, result) ← thinking.Feed tp content;
          if decide (thinking.ThinkingContent result <> "") then
            Some (Some tp,
                  Some (ThinkingEvent (thinking.ThinkingContent result)
                          (thinking.IsFirstThinkingChunk result)
                          (thinking.IsLastThinkingChunk result)))
          else if decide (thinking.RegularContent result <> "") then
            Some (Some tp, Some (ContentEvent (thinking.RegularContent result)))
          else Some (Some tp, None)
      | None => Some (None, Some (ContentEvent content))
      end
  | parser.UsageEvent credits => Some (thinkingParser, Some (UsageEvent credits))
  | parser.ContextUsageEvent percentage =>
      Some (thinkingParser, Some (ContextUsageEvent percentage))
  end.

(** for _, event := range parsedEvents *)
Fixpoint process_events (parsedEvents : list parser.Event)
    (thinkingParser : option thinking.ThinkingParser) (events : list KiroEvent)
  : option (option thinking.ThinkingParser * list KiroEvent) :=
  match parsedEvents with
  | [] => Some (thinkingParser, events)
  | event :: parsedEvents =>
      '(thinkingParser, kiroEvent) ← processAwsEvent event thinkingParser;
      process_events parsedEvents thinkingParser
        (match kiroEvent with Some e => events ++ [e] | None => events end)
  end.

(** The loop over the chunks after the first read. *)
Fixpoint process_chunks (chunks : list string) (awsParser : parser.AwsEventStreamParser)
    (thinkingParser : option thinking.ThinkingParser) (events : list KiroEvent)
  : option (parser.AwsEventStreamParser * option thinking.ThinkingParser * list KiroEvent) :=
  match chunks with
  | [] => Some (awsParser, thinkingParser, events)
  | buffer :: chunks =>
      let '(awsParser, parsedEvents) := parser.Feed awsParser buffer in
      '(thinkingParser, events) ← process_events parsedEvents thinkingParser events;
      process_chunks chunks awsParser thinkingParser events
  end.

(** What ParseKiroStream sends: the events, the error if any, and the
    number of identifiers drawn from the UUID generator. *)
Record Parsed := mkParsed {
  events : list KiroEvent;
  errs : option string;
  drawn : nat
}.

(** ParseKiroStream parses Kiro SSE stream and yields events; [None] is a
    panic. *)
Definition ParseKiroStream (response : Body) (enableThinkingParser : bool)
    (cfg : config.Config) : option Parsed :=
  let awsParser := parser.NewAwsEventStreamParser in
  let thinkingParser :=
    if config.FakeReasoningEnabled cfg && enableThinkingParser
    then Some (thinking.NewThinkingParser (config.FakeReasoningHandling cfg)
                 (config.FakeReasoningOpenTags cfg)
                 (Z.to_nat (config.FakeReasoningBufferSize cfg)))
    else None in
  match response with
  | ([], EOF) => Some (mkParsed [] None 0)
  | ([], ReadError e) => Some (mkParsed [] (Some ("error reading first chunk: " +:+ e)) 0)
  | (chunks, stop) =>
      '(awsParser, thinkingParser, events) ←
        process_chunks chunks awsParser thinkingParser [];
      match stop with
      | ReadError e =>
          Some (mkParsed events (Some ("error reading stream: " +:+ e)) (parser.uuids awsParser))
      | EOF =>
          (* Finalize thinking parser *)
          let events :=
            match thinkingParser with
            | Some tp =>
                let finalResult := (thinking.Finalize tp).2 in
                let events :=
                  if decide (thinking.ThinkingContent finalResult <> "")
                  then events ++ [ThinkingEvent (thinking.ThinkingContent finalResult)
                                    (thinking.IsFirstThinkingChunk finalResult)
                                    (thinking.IsLastThinkingChunk finalResult)]
                  else events in
                if decide (thinking.RegularContent finalResult <> "")
                then events ++ [ContentEvent (thinking.RegularContent finalResult)]
                else events
            | None => events
            end in
          (* Yield tool calls *)
          let '(awsParser, toolCalls) := parser.GetToolCalls awsParser in
          Some (mkParsed (events ++ (ToolUseEvent <$> toolCalls)) None (parser.uuids awsParser))
      end
  end.

(** The switch on event.Type in CollectStreamResult. *)
Definition collect_event (st : StreamResult * string) (event : KiroEvent)
  : StreamResult * string :=
  let '(result, fullContentForBracketTools) := st in
  match event with
  | ContentEvent content =>
      (mkStreamResult (Content result +:+ content) (ThinkingContent result)
         (ToolCalls result) (Usage result) (ContextUsagePercentage result),
       fullContentForBracketTools +:+ content)
  | ThinkingEvent thinkingContent _ _ =>
      (mkStreamResult (Content result) (ThinkingContent result +:+ thinkingContent)
         (ToolCalls result) (Usage result) (ContextUsagePercentage result),
       fullContentForBracketTools +:+ thinkingContent)
  | ToolUseEvent tc =>
      (mkStreamResult (Content result) (ThinkingContent result)
         (ToolCalls result ++ [tc]) (Usage result) (ContextUsagePercentage result),
       fullContentForBracketTools)
  | UsageEvent credits =>
      (mkStreamResult (Content result) (ThinkingContent result)
         (ToolCalls result) (Some credits) (ContextUsagePercentage result),
       fullContentForBracketTools)
  | ContextUsageEvent percentage =>
      (mkStreamResult (Content result) (ThinkingContent result)
         (ToolCalls result) (Usage result) (Some percentage),
       fullContentForBracketTools)
  end.

(** What CollectStreamResult returns once the event channel is closed. *)
Definition collect (parsed : Parsed) : StreamResult :=
  let '(result, fullContentForBracketTools) :=
    foldl collect_event (mkStreamResult "" "" [] None None, "") (events parsed) in
  (* Check for bracket-style tool calls *)
  let bracketToolCalls :=
    (bracket.ParseBracketToolCalls fullContentForBracketTools (drawn parsed)).1 in
  if decide (0 < length bracketToolCalls)
  then mkStreamResult (Content result) (ThinkingContent result)
         (parser.DeduplicateToolCalls (ToolCalls result ++ bracketToolCalls))
         (Usage result) (ContextUsagePercentage result)
  else result.

(** CollectStreamResult collects full response from stream.  A stream
    that was read to its end gives the result; a read error is returned
    as the error.  The source selects between the channel of events and the
    channel of errors; the schedule taken here is the one in which the
    consumer receives every event before the error.  After a read error
    both channels are ready at once (the error is buffered, the events are
    closed), and Go's select may also take the closed channel of events
    first, which returns the result collected so far and no error: that
    schedule is not part of this function. *)
Definition CollectStreamResult (response : Body) (enableThinkingParser : bool)
    (cfg : config.Config) : option (StreamResult + string) :=
  parsed ← ParseKiroStream response enableThinkingParser cfg;
  match errs parsed with
  | Some err => Some (inr err)
  | None => Some (inl (collect parsed))
  end.

(** CalculateTokensFromContextUsage: promptTokens and totalTokens. *)
Definition CalculateTokensFromContextUsage
    (contextUsagePercentage : option parser.float64) (completionTokens : Z)
    (modelCache : model.Cache) (model_ : string) : Z * Z :=
  match contextUsagePercentage with
  | Some p =>
      if positive p then
        let maxInputTokens := default 200000%Z (model.maxInput modelCache !! model_) in
        let totalTokens := share_of p maxInputTokens in
        let promptTokens := (totalTokens - completionTokens)%Z in
        let promptTokens := if (promptTokens <? 0)%Z then 0%Z else promptTokens in
        (promptTokens, totalTokens)
      else (0%Z, completionTokens)
  | None => (0%Z, completionTokens)
  end.

(** The delta of a chunk. *)
Inductive Delta :=
| DeltaContent (content : string)
| DeltaReasoning (reasoning_content : string)
| DeltaToolCall (index : nat) (tc : parser.ToolCall)
| DeltaEmpty.

(** The map that createOpenAIDeltaChunk hands to json.Marshal (without
    the clock reading "created"); [finish_reason] is [None] when the key
    is not set. *)
Record Chunk := mkChunk {
  id : string;
  object : string;
  model_name : string;
  index : nat;
  delta : Delta;
  finish_reason : option string
}.

Definition createOpenAIDeltaChunk (id model_ : string) (delta : Delta) (index : nat)
    (finishReason : string) : Chunk :=
  mkChunk id "chat.completion.chunk" model_ index delta
          (if decide (finishReason <> "") then Some finishReason else None).

Definition createOpenAIContentChunk (id model_ content : string) (index : nat) : Chunk :=
  createOpenAIDeltaChunk id model_ (DeltaContent content) index "".

Definition createOpenAIReasoningChunk (id model_ content : string) (index : nat) : Chunk :=
  createOpenAIDeltaChunk id model_ (DeltaReasoning content) index "".

Definition createOpenAIToolCallChunk (id model_ : string) (toolUse : parser.ToolCall)
    (chunkIndex toolCallIndex : nat) : Chunk :=
  createOpenAIDeltaChunk id model_ (DeltaToolCall toolCallIndex toolUse) chunkIndex "".

Definition createOpenAIFinishChunk (id model_ : string) (index : nat) : Chunk :=
  createOpenAIDeltaChunk id model_ DeltaEmpty index "stop".

(** What StreamToOpenAI sends: a chunk, or the error object of
    createOpenAIErrorChunk. *)
Inductive Output :=
| Data (chunk : Chunk)
| ErrorData (message type_ : string).

(** The loop of StreamToOpenAI over the events received. *)
Fixpoint stream_events (model_ conversationID : string) (cfg : config.Config)
    (events : list KiroEvent) (chunkIndex toolCallIndex : nat) : list Output * nat :=
  match events with
  | [] => ([], chunkIndex)
  | event :: events =>
      let chunkIndex := S chunkIndex in
      let '(chunk, toolCallIndex) :=
        match event with
        | ContentEvent content =>
            (if decide (content <> "")
             then Some (createOpenAIContentChunk conversationID model_ content chunkIndex)
             else None, toolCallIndex)
        | ThinkingEvent thinkingContent _ _ =>
            (if decide (thinkingContent <> "" /\
                        config.FakeReasoningHandling cfg = "as_reasoning_content")
             then Some (createOpenAIReasoningChunk conversationID model_ thinkingContent
                          chunkIndex)
             else None, toolCallIndex)
        | ToolUseEvent toolUse =>
            (Some (createOpenAIToolCallChunk conversationID model_ toolUse chunkIndex
                     toolCallIndex), S toolCallIndex)
        | _ => (None, toolCallIndex)
        end in
      let '(rest, last) :=
        stream_events model_ conversationID cfg events chunkIndex toolCallIndex in
      (match chunk with Some c => Data c :: rest | None => rest end, last)
  end.

(** StreamToOpenAI converts Kiro stream to OpenAI SSE format.  A stream
    read to its end is closed by the finish chunk, a read error by the
    error chunk.  As in CollectStreamResult, the schedule taken for the
    select of the source is: every event first, then the error; on a read
    error Go's select may also take the closed channel of events first and
    end the output with the finish chunk instead of the error chunk.  The
    chunks of the events are the same under both schedules. *)
Definition StreamToOpenAI (response : Body) (model_ conversationID : string)
    (enableThinkingParser : bool) (cfg : config.Config) : option (list Output) :=
  parsed ← ParseKiroStream response enableThinkingParser cfg;
  let '(out, chunkIndex) := stream_events model_ conversationID cfg (events parsed) 0 0 in
  match errs parsed with
  | Some err => Some (out ++ [ErrorData err "internal_error"])
  | None => Some (out ++ [Data (createOpenAIFinishChunk conversationID model_ chunkIndex)])
  end.

End with_json.
End stream.

(** * Package converter: OpenAI responses (converter/openai.go) *)
Module openai.

(** OpenAIToolCall represents a tool call in OpenAI format *)
Record OpenAIToolCall := mkOpenAIToolCall {
  tc_ID : string;
  tc_Type : string;
  tc_Name : string;
  tc_Arguments : string
}.

(** OpenAIMessage represents a message in OpenAI format (Name and
    ToolCallID are left empty by the constructors below). *)
Record OpenAIMessage := mkOpenAIMessage {
  Role : string;
  Content : string;
  ToolCalls : list OpenAIToolCall
}.

(** OpenAIChoice represents a choice in the response *)
Record OpenAIChoice := mkOpenAIChoice {
  Index : Z;
  Message : OpenAIMessage;
  FinishReason : string
}.

(** OpenAIUsage represents token usage *)
Record OpenAIUsage := mkOpenAIUsage {
  PromptTokens : Z;
  CompletionTokens : Z;
  TotalTokens : Z
}.

(** OpenAIResponse represents an OpenAI API response *)
Record OpenAIResponse := mkOpenAIResponse {
  ID : string;
  Object : string;
  Created : Z;
  Model : string;
  Choices : list OpenAIChoice;
  Usage : OpenAIUsage
}.

Definition convertToolCallsToOpenAI (calls : list converter.ToolCall)
  : list OpenAIToolCall :=
  (fun tc => mkOpenAIToolCall (converter.tc_ID tc) (converter.tc_Type tc)
               (converter.tc_Name tc) (converter.tc_Arguments tc)) <$> calls.

(** CreateOpenAIResponse creates an OpenAI response *)
Definition CreateOpenAIResponse (id model_ content : string)
    (toolCalls : list converter.ToolCall) (finishReason : string) (usage : OpenAIUsage)
  : OpenAIResponse :=
  mkOpenAIResponse id "chat.completion" 0 model_
    [mkOpenAIChoice 0
       (mkOpenAIMessage "assistant" content (convertToolCallsToOpenAI toolCalls))
       finishReason]
    usage.

End openai.

(** * Package client (client/http.go) *)
Module client.

(** An *http.Response: the status code and the body. *)
Record Response := mkResponse {
  StatusCode : Z;
  Body : list string
}.

(** What one attempt (doRequest) gives: a response, or the text of an
    error. *)
Definition Attempt : Type := Response + string.

(** What the loop does besides returning. *)
Inductive Effect :=
| Sleep (attempt : nat)
| ForceRefresh
| CloseBody (r : Response).

(** strconv for %d *)
Definition format_int (n : Z) : string := NilZero.string_of_int (Z.to_int n).

(** The verb %w on an error value: the text of the error, and the text
    the package fmt prints for a nil error. *)
Definition format_error (err : option string) : string :=
  match err with
  | Some text => text
  | None => "%!w(<nil>)"
  end.

Section with_network.
(** [doRequest attempt]: what the attempt-th call of doRequest gives. *)
Variable doRequest : nat -> Attempt.

(** The loop of RequestWithRetry, [todo] iterations from [attempt] on. *)
Fixpoint retry_loop (todo attempt : nat) (lastErr : option string) (log : list Effect)
  : option Response * option string * list Effect :=
  match todo with
  | O => (None, lastErr, log)
  | S todo =>
      let log := if 0 <? attempt then log ++ [Sleep attempt] else log in
      match doRequest attempt with
      | inr err => retry_loop todo (S attempt) (Some err) log
      | inl resp =>
          (* Check for retryable status codes *)
          if (StatusCode resp =? 403)%Z
          then retry_loop todo (S attempt) lastErr (log ++ [ForceRefresh; CloseBody resp])
          else if (StatusCode resp =? 429)%Z
          then retry_loop todo (S attempt) lastErr (log ++ [CloseBody resp])
          else if (500 <=? StatusCode resp)%Z
          then retry_loop todo (S attempt) lastErr (log ++ [CloseBody resp])
          else (Some resp, lastErr, log)
      end
  end.

(** RequestWithRetry makes an HTTP request with retry logic: the response
    or the error, and what was done on the way. *)
Definition RequestWithRetry (cfg : config.Config) : (Response + string) * list Effect :=
  match retry_loop (Z.to_nat (config.MaxRetries cfg)) 0 None [] with
  | (Some resp, _, log) => (inl resp, log)
  | (None, lastErr, log) =>
      (inr ("all " +:+ format_int (config.MaxRetries cfg) +:+ " retry attempts failed: "
            +:+ format_error lastErr), log)
  end.

(** PostStream makes a streaming POST request *)
Definition PostStream (cfg : config.Config) : (Response + string) * list Effect :=
  RequestWithRetry cfg.

End with_network.
End client.

(** * Package api: the chat-completion handlers (api/routes.go) *)
Module api.

Section with_json.
Context `{GoRuntime} `{parser.EncodingJSON} `{!stream.Float64}.

(** What a handler writes: c.JSON with an error object, c.JSON with a
    completion, or an event stream closed by the [DONE] marker. *)
Inductive Reply :=
| JSONError (status : Z) (message type_ : string)
| JSONCompletion (status : Z) (response : openai.OpenAIResponse)
| EventStream (events : list stream.Output).

(** convertParserToolCalls converts parser.ToolCall to converter.ToolCall *)
Definition convertParserToolCalls (calls : list parser.ToolCall) : list converter.ToolCall :=
  (fun tc => converter.mkToolCall (parser.ID tc) (parser.Type_ tc)
               (parser.Name tc) (parser.Arguments tc)) <$> calls.

(** io.ReadAll(resp.Body), the error dropped *)
Definition read_all (body : list string) : string := String.concat "" body.

(** handleStreamingChatCompletion, from the result of PostStream on;
    [ends] is how reading the body of an OK response ends.  [None] is a
    panic. *)
Definition handleStreamingChatCompletion (cfg : config.Config)
    (post : client.Response + string) (ends : stream.ReadEnd)
    (model_ conversationID : string) : option Reply :=
  match post with
  | inr err => Some (JSONError 500 ("Request failed: " +:+ err) "internal_error")
  | inl resp =>
      if decide (client.StatusCode resp <> 200%Z)
      then Some (JSONError (client.StatusCode resp) (read_all (client.Body resp)) "api_error")
      else
        events ← stream.StreamToOpenAI (client.Body resp, ends) model_ conversationID true cfg;
        Some (EventStream events)
  end.

(** handleNonStreamingChatCompletion, likewise. *)
Definition handleNonStreamingChatCompletion (cfg : config.Config) (modelCache : model.Cache)
    (post : client.Response + string) (ends : stream.ReadEnd)
    (model_ conversationID : string) : option Reply :=
  match post with
  | inr err => Some (JSONError 500 ("Request failed: " +:+ err) "internal_error")
  | inl resp =>
      if decide (client.StatusCode resp <> 200%Z)
      then Some (JSONError (client.StatusCode resp) (read_all (client.Body resp)) "api_error")
      else
        (* Collect stream result *)
        collected ← stream.CollectStreamResult (client.Body resp, ends) true cfg;
        match collected with
        | inr err =>
            Some (JSONError 500 ("Stream processing failed: " +:+ err) "internal_error")
        | inl result =>
            (* Calculate token usage *)
            let completionTokens := (Z.of_nat (String.length (stream.Content result)) / 4)%Z in
            let '(promptTokens, totalTokens) :=
              stream.CalculateTokensFromContextUsage
                (stream.ContextUsagePercentage result) completionTokens modelCache model_ in
            (* Build response *)
            Some (JSONCompletion 200
                    (openai.CreateOpenAIResponse conversationID model_
                       (stream.Content result)
                       (convertParserToolCalls (stream.ToolCalls result))
                       "stop"
                       (openai.mkOpenAIUsage promptTokens completionTokens totalTokens)))
        end
  end.

End with_json.
End api.
(** * Values for the examples *)

(** float64 arithmetic on the literals of whole numbers. *)
Definition reference_float64 : @stream.Float64 reference_json :=
  @stream.Build_Float64 reference_json
    (fun p : string =>
       match refjson.int_of_literal p with Some z => (0 <? z)%Z | None => false end)
    (fun (p : string) maxInputTokens =>
       match refjson.int_of_literal p with
       | Some z => (z * maxInputTokens / 100)%Z
       | None => 0%Z
       end).

(** The defaults of config.go. *)
Definition default_config : config.Config :=
  config.mkConfig true "as_reasoning_content"
    ["<thinking>"; "alettek"; "<reasoning>"; "<thought>"] 20 3 600.

Definition empty_cache : model.Cache := model.mkCache ∅ ∅ ∅.

(** An upstream that answers every attempt with 503 and the same body. *)
Definition overloaded : nat -> client.Attempt :=
  fun _ => inl (client.mkResponse 503 ["upstream overloaded"]).

(** * Package auth (auth/manager.go) *)
Module auth.

(** AuthType represents the type of authentication *)
Inductive AuthType :=
| AuthTypeKiroDesktop
| AuthTypeAWSSSOOIDC.

(** SQLite token keys (searched in priority order) *)
Definition sqliteTokenKeys : list string :=
  ["kirocli:social:token"; "kirocli:odic:token"; "codewhisperer:odic:token"].

(** SQLite registration keys *)
Definition sqliteRegistrationKeys : list string :=
  ["kirocli:odic:device-registration"; "codewhisperer:odic:device-registration"].

(** TokenData represents token information stored in SQLite *)
Record TokenData := mkTokenData {
  td_AccessToken : string;
  td_RefreshToken : string;
  td_ProfileArn : string;
  td_Region : string;
  td_ExpiresAt : string;
  td_Scopes : list string
}.

(** DeviceRegistration represents device registration for AWS SSO OIDC *)
Record DeviceRegistration := mkDeviceRegistration {
  reg_ClientID : string;
  reg_ClientSecret : string;
  reg_Region : string
}.

(** The response of the Kiro Desktop refresh endpoint, decoded. *)
Record DesktopResult := mkDesktopResult {
  dr_AccessToken : string;
  dr_RefreshToken : string;
  dr_ExpiresIn : Z;
  dr_ProfileArn : string
}.

(** The response of the AWS SSO OIDC token endpoint, decoded. *)
Record OIDCResult := mkOIDCResult {
  or_AccessToken : string;
  or_RefreshToken : string;
  or_ExpiresIn : Z
}.

(** A time.Time, as nanoseconds since the Unix epoch.  A time.Time counts
    seconds in 64 bits, so Add of a Duration is exact on every clock
    reading of interest and is written as the sum. *)
Definition Time : Type := Z.

(** time.Second *)
Definition second : Z := 1000000000.

(** The value of a 64-bit signed integer (int, int64, time.Duration) after
    an operation whose exact result is [z]: Go wraps around. *)
Definition wrap64 (z : Z) : Z :=
  ((z + 9223372036854775808) mod 18446744073709551616 - 9223372036854775808)%Z.
Arguments wrap64 : simpl never.

(** time.Duration(n) * time.Second, for an int [n]. *)
Definition seconds (n : Z) : Z := wrap64 (n * second).

(** The zero time.Time: January 1, year 1, 00:00 UTC. *)
Definition zero_time : Time := (-62135596800 * second)%Z.

Definition IsZero (t : Time) : bool := (t =? zero_time)%Z.

(** Manager manages authentication for Kiro API (without the mutex) *)
Record Manager := mkManager {
  cfg : config.Config;
  (* Credentials *)
  refreshToken : string;
  profileArn : string;
  region : string;
  credsFile : string;
  sqliteDB : string;
  (* AWS SSO OIDC specific *)
  clientID : string;
  clientSecret : string;
  scopes : list string;
  ssoRegion : string;
  (* Enterprise Kiro IDE *)
  clientIDHash : string;
  (* Token state *)
  accessToken : string;
  expiresAt : Time;
  (* Auth type *)
  authType : AuthType;
  (* Tracking which SQLite key was used *)
  sqliteTokenKey : string;
  (* URLs *)
  refreshURL : string;
  apiHost : string;
  qHost : string;
  (* Fingerprint *)
  fingerprint : string
}.

Definition set_refreshToken (m : Manager) (v : string) : Manager :=
  mkManager (cfg m) v (profileArn m) (region m) (credsFile m) (sqliteDB m) (clientID m)
    (clientSecret m) (scopes m) (ssoRegion m) (clientIDHash m) (accessToken m) (expiresAt m)
    (authType m) (sqliteTokenKey m) (refreshURL m) (apiHost m) (qHost m) (fingerprint m).
Definition set_profileArn (m : Manager) (v : string) : Manager :=
  mkManager (cfg m) (refreshToken m) v (region m) (credsFile m) (sqliteDB m) (clientID m)
    (clientSecret m) (scopes m) (ssoRegion m) (clientIDHash m) (accessToken m) (expiresAt m)
    (authType m) (sqliteTokenKey m) (refreshURL m) (apiHost m) (qHost m) (fingerprint m).
Definition set_clientID (m : Manager) (v : string) : Manager :=
  mkManager (cfg m) (refreshToken m) (profileArn m) (region m) (credsFile m) (sqliteDB m) v
    (clientSecret m) (scopes m) (ssoRegion m) (clientIDHash m) (accessToken m) (expiresAt m)
    (authType m) (sqliteTokenKey m) (refreshURL m) (apiHost m) (qHost m) (fingerprint m).
Definition set_clientSecret (m : Manager) (v : string) : Manager :=
  mkManager (cfg m) (refreshToken m) (profileArn m) (region m) (credsFile m) (sqliteDB m)
    (clientID m) v (scopes m) (ssoRegion m) (clientIDHash m) (accessToken m) (expiresAt m)
    (authType m) (sqliteTokenKey m) (refreshURL m) (apiHost m) (qHost m) (fingerprint m).
Definition set_scopes (m : Manager) (v : list string) : Manager :=
  mkManager (cfg m) (refreshToken m) (profileArn m) (region m) (credsFile m) (sqliteDB m)
    (clientID m) (clientSecret m) v (ssoRegion m) (clientIDHash m) (accessToken m)
    (expiresAt m) (authType m) (sqliteTokenKey m) (refreshURL m) (apiHost m) (qHost m)
    (fingerprint m).
Definition set_ssoRegion (m : Manager) (v : string) : Manager :=
  mkManager (cfg m) (refreshToken m) (profileArn m) (region m) (credsFile m) (sqliteDB m)
    (clientID m) (clientSecret m) (scopes m) v (clientIDHash m) (accessToken m)
    (expiresAt m) (authType m) (sqliteTokenKey m) (refreshURL m) (apiHost m) (qHost m)
    (fingerprint m).
Definition set_accessToken (m : Manager) (v : string) : Manager :=
  mkManager (cfg m) (refreshToken m) (profileArn m) (region m) (credsFile m) (sqliteDB m)
    (clientID m) (clientSecret m) (scopes m) (ssoRegion m) (clientIDHash m) v
    (expiresAt m) (authType m) (sqliteTokenKey m) (refreshURL m) (apiHost m) (qHost m)
    (fingerprint m).
Definition set_expiresAt (m : Manager) (v : Time) : Manager :=
  mkManager (cfg m) (refreshToken m) (profileArn m) (region m) (credsFile m) (sqliteDB m)
    (clientID m) (clientSecret m) (scopes m) (ssoRegion m) (clientIDHash m) (accessToken m)
    v (authType m) (sqliteTokenKey m) (refreshURL m) (apiHost m) (qHost m) (fingerprint m).
Definition set_authType (m : Manager) (v : AuthType) : Manager :=
  mkManager (cfg m) (refreshToken m) (profileArn m) (region m) (credsFile m) (sqliteDB m)
    (clientID m) (clientSecret m) (scopes m) (ssoRegion m) (clientIDHash m) (accessToken m)
    (expiresAt m) v (sqliteTokenKey m) (refreshURL m) (apiHost m) (qHost m) (fingerprint m).
Definition set_sqliteTokenKey (m : Manager) (v : string) : Manager :=
  mkManager (cfg m) (refreshToken m) (profileArn m) (region m) (credsFile m) (sqliteDB m)
    (clientID m) (clientSecret m) (scopes m) (ssoRegion m) (clientIDHash m) (accessToken m)
    (expiresAt m) (authType m) v (refreshURL m) (apiHost m) (qHost m) (fingerprint m).

(** An HTTP request as the refresh functions build it, and what
    http.NewRequest followed by client.Do gives: the error, or the status
    code and the body. *)
Record Request := mkRequest {
  req_URL : string;
  req_Headers : list (string * string);
  req_Body : string
}.

Definition Outcome : Type := string + (Z * string).

(** Where the manager runs: the readings of time.Now() in the order they
    are taken, the SQLite databases (the table auth_kv, by path), the
    files, which paths can be written, and the network. *)
Record World := mkWorld {
  now : nat -> Time;
  ticks : nat;
  databases : gmap string (gmap string string);
  files : gmap string string;
  writable : string -> bool;
  http_Do : Request -> Outcome
}.

(** The library functions that the package calls: encoding/json on the
    structs of this package, package time, and the paths. *)
Class Library := {
  (** json.Unmarshal into TokenData and DeviceRegistration *)
  Unmarshal_TokenData : string -> option TokenData;
  Unmarshal_DeviceRegistration : string -> option DeviceRegistration;
  (** json.NewDecoder(resp.Body).Decode(&result): the result or the error *)
  Decode_DesktopResult : string -> DesktopResult + string;
  Decode_OIDCResult : string -> OIDCResult + string;
  (** json.Marshal of the two refresh payloads *)
  Marshal_desktop_payload : string -> string;
  Marshal_oidc_payload : string -> string -> string -> string;
  (** json.Marshal of the token data saved to SQLite: access_token,
      refresh_token, expires_at, region and, if any, scopes *)
  Marshal_token_data : string -> string -> string -> string -> option (list string) -> string;
  (** Unmarshal the existing file, set accessToken, refreshToken and,
      if given, expiresAt and profileArn, and MarshalIndent *)
  update_credentials : option string -> string -> string -> option string -> option string
                       -> string;
  (** time.Parse(time.RFC3339, s) and t.Format(time.RFC3339) *)
  time_Parse : string -> option Time;
  time_Format : Time -> string;
  (** filepath.Join(home, rest) with the home directory of the user *)
  join_home : string -> string
}.

(** strings.ReplaceAll(s, old, new) for a non-empty [old]; [skip] bytes
    are still part of the occurrence just replaced. *)
Fixpoint replace_from (skip : nat) (s old new : string) : string :=
  match s with
  | EmptyString => EmptyString
  | String c s' =>
      match skip with
      | S skip => replace_from skip s' old new
      | O =>
          if String.prefix old s
          then new +:+ replace_from (String.length old - 1) s' old new
          else String c (replace_from 0 s' old new)
      end
  end.

Definition strings_ReplaceAll (s old new : string) : string := replace_from 0 s old new.

(** config.GetAWSSSOOIDCURLForRegion *)
Definition GetAWSSSOOIDCURLForRegion (region : string) : string :=
  strings_ReplaceAll "https://oidc.{region}.amazonaws.com/token" "{region}" region.

(** State passing through the world. *)
Definition Eff (A : Type) : Type := World -> A * World.

#[global] Instance Eff_ret : MRet Eff := fun A (x : A) w => (x, w).
#[global] Instance Eff_bind : MBind Eff :=
  fun A B (f : A -> Eff B) (c : Eff A) w => let '(a, w) := c w in f a w.

(** time.Now() *)
Definition time_Now : Eff Time :=
  fun w => (now w (ticks w),
            mkWorld (now w) (S (ticks w)) (databases w) (files w) (writable w) (http_Do w)).

Section with_library.
Context `{Library}.

Definition expandPath (path : string) : string :=
  if String.prefix "~" path then join_home (string_drop 1 path) else path.

Definition parseTime (s : string) : option Time :=
  let s :=
    if bool_decide (string_drop (String.length s - 1) s = "Z")
    then string_take (String.length s - 1) s +:+ "+00:00"
    else s in
  time_Parse s.

(** detectAuthType detects the authentication type based on available
    credentials *)
Definition detectAuthType (m : Manager) : Manager :=
  if bool_decide (clientID m <> "") && bool_decide (clientSecret m <> "")
  then set_authType m AuthTypeAWSSSOOIDC
  else set_authType m AuthTypeKiroDesktop.

(** The first key of [keys] with a row in the table. *)
Definition first_row (table : gmap string string) (keys : list string)
  : option (string * string) :=
  list_find (fun key => is_Some (table !! key)) keys ≫=
    fun '(_, key) => (fun value => (key, value)) <$> table !! key.

(** loadCredentialsFromSQLite loads credentials from kiro-cli SQLite
    database *)
Definition loadCredentialsFromSQLite (m : Manager) (dbPath : string) (w : World) : Manager :=
  let path := expandPath dbPath in
  match databases w !! path with
  | None => m
  | Some table =>
      (* Try all token keys *)
      let m :=
        match first_row table sqliteTokenKeys with
        | Some (key, tokenRow) =>
            let m := set_sqliteTokenKey m key in
            match Unmarshal_TokenData tokenRow with
            | Some tokenData =>
                let m := if bool_decide (td_AccessToken tokenData <> "")
                         then set_accessToken m (td_AccessToken tokenData) else m in
                let m := if bool_decide (td_RefreshToken tokenData <> "")
                         then set_refreshToken m (td_RefreshToken tokenData) else m in
                let m := if bool_decide (td_ProfileArn tokenData <> "")
                         then set_profileArn m (td_ProfileArn tokenData) else m in
                let m := if bool_decide (td_Region tokenData <> "")
                         then set_ssoRegion m (td_Region tokenData) else m in
                let m := if bool_decide (0 < length (td_Scopes tokenData))
                         then set_scopes m (td_Scopes tokenData) else m in
                if bool_decide (td_ExpiresAt tokenData <> "")
                then match parseTime (td_ExpiresAt tokenData) with
                     | Some t => set_expiresAt m t
                     | None => m
                     end
                else m
            | None => m
            end
        | None => m
        end in
      (* Load device registration *)
      match first_row table sqliteRegistrationKeys with
      | Some (_, regRow) =>
          match Unmarshal_DeviceRegistration regRow with
          | Some regData =>
              let m := if bool_decide (reg_ClientID regData <> "")
                       then set_clientID m (reg_ClientID regData) else m in
              let m := if bool_decide (reg_ClientSecret regData <> "")
                       then set_clientSecret m (reg_ClientSecret regData) else m in
              if bool_decide (reg_Region regData <> "") && bool_decide (ssoRegion m = "")
              then set_ssoRegion m (reg_Region regData)
              else m
          | None => m
          end
      | None => m
      end
  end.

Definition isTokenExpiringSoonUnlocked (m : Manager) : Eff bool :=
  if IsZero (expiresAt m) then mret true
  else
    let threshold := seconds (config.TokenRefreshThreshold (cfg m)) in
    t ← time_Now;
    mret (bool_decide (expiresAt m < t + threshold)%Z).

Definition isTokenExpiredUnlocked (m : Manager) : Eff bool :=
  if IsZero (expiresAt m) then mret true
  else t ← time_Now; mret (bool_decide (expiresAt m < t)%Z).

(** saveCredentialsToFile saves credentials to JSON file *)
Definition saveCredentialsToFile (m : Manager) : Eff unit :=
  fun w =>
    if bool_decide (credsFile m = "") then (tt, w)
    else
      let path := expandPath (credsFile m) in
      let jsonData :=
        update_credentials (files w !! path) (accessToken m) (refreshToken m)
          (if IsZero (expiresAt m) then None else Some (time_Format (expiresAt m)))
          (if bool_decide (profileArn m <> "") then Some (profileArn m) else None) in
      if writable w path
      then (tt, mkWorld (now w) (ticks w) (databases w) (<[path := jsonData]> (files w))
                  (writable w) (http_Do w))
      else (tt, w).

(** saveCredentialsToSQLite saves credentials to SQLite database *)
Definition saveCredentialsToSQLite (m : Manager) : Eff unit :=
  fun w =>
    if bool_decide (sqliteDB m = "") then (tt, w)
    else
      let path := expandPath (sqliteDB m) in
      match databases w !! path with
      | None => (tt, w)
      | Some table =>
          let jsonData :=
            Marshal_token_data (accessToken m) (refreshToken m) (time_Format (expiresAt m))
              (ssoRegion m)
              (if bool_decide (0 < length (scopes m)) then Some (scopes m) else None) in
          let update key :=
            (tt, mkWorld (now w) (ticks w)
                   (<[path := <[key := jsonData]> table]> (databases w))
                   (files w) (writable w) (http_Do w)) in
          (* Update the key we loaded from *)
          if bool_decide (sqliteTokenKey m <> "") && bool_decide (is_Some (table !! sqliteTokenKey m))
          then update (sqliteTokenKey m)
          else
            (* Fallback: try all keys *)
            match first_row table sqliteTokenKeys with
            | Some (key, _) => update key
            | None => (tt, w)
            end
      end.

(** The end of both refresh functions: save credentials. *)
Definition save_credentials (m : Manager) : Eff unit :=
  if bool_decide (sqliteDB m <> "") then saveCredentialsToSQLite m
  else saveCredentialsToFile m.

(** refreshTokenKiroDesktop refreshes token using Kiro Desktop Auth; the
    error, if any, and the manager. *)
Definition refreshTokenKiroDesktop (m : Manager) : Eff (option string * Manager) :=
  if bool_decide (refreshToken m = "") then mret (Some "refresh token is not set", m)
  else
    let req :=
      mkRequest (refreshURL m)
        [("Content-Type", "application/json");
         ("User-Agent", "KiroIDE-0.7.45-" +:+ fingerprint m)]
        (Marshal_desktop_payload (refreshToken m)) in
    fun w =>
      match http_Do w req with
      | inl err => (Some err, m, w)
      | inr (StatusCode, body) =>
          if bool_decide (StatusCode <> 200%Z)
          then (Some ("token refresh failed with status " +:+ client.format_int StatusCode
                      +:+ ": " +:+ body), m, w)
          else
            match Decode_DesktopResult body with
            | inr err => (Some err, m, w)
            | inl result =>
                if bool_decide (dr_AccessToken result = "")
                then (Some "response does not contain accessToken", m, w)
                else
                  let m := set_accessToken m (dr_AccessToken result) in
                  let m := if bool_decide (dr_RefreshToken result <> "")
                           then set_refreshToken m (dr_RefreshToken result) else m in
                  let m := if bool_decide (dr_ProfileArn result <> "")
                           then set_profileArn m (dr_ProfileArn result) else m in
                  (* Calculate expiration time with buffer *)
                  (t ← time_Now;
                   let m := set_expiresAt m (t + seconds (wrap64 (dr_ExpiresIn result - 60)))%Z in
                   (* Save credentials *)
                   _ ← save_credentials m;
                   mret (None, m)) w
            end
      end.

(** refreshTokenAWSSSOOIDC refreshes token using AWS SSO OIDC *)
Definition refreshTokenAWSSSOOIDC (m : Manager) : Eff (option string * Manager) :=
  if bool_decide (refreshToken m = "") then mret (Some "refresh token is not set", m)
  else if bool_decide (clientID m = "")
  then mret (Some "client ID is not set (required for AWS SSO OIDC)", m)
  else if bool_decide (clientSecret m = "")
  then mret (Some "client secret is not set (required for AWS SSO OIDC)", m)
  else
    (* Use SSO region for OIDC endpoint *)
    let ssoRegion := if bool_decide (ssoRegion m = "") then region m else ssoRegion m in
    let refreshURL := GetAWSSSOOIDCURLForRegion ssoRegion in
    let req :=
      mkRequest refreshURL [("Content-Type", "application/json")]
        (Marshal_oidc_payload (clientID m) (clientSecret m) (refreshToken m)) in
    fun w =>
      match http_Do w req with
      | inl err => (Some err, m, w)
      | inr (StatusCode, body) =>
          if bool_decide (StatusCode <> 200%Z)
          then (Some ("token refresh failed with status " +:+ client.format_int StatusCode
                      +:+ ": " +:+ body), m, w)
          else
            match Decode_OIDCResult body with
            | inr err => (Some err, m, w)
            | inl result =>
                if bool_decide (or_AccessToken result = "")
                then (Some "AWS SSO OIDC response does not contain accessToken", m, w)
                else
                  let m := set_accessToken m (or_AccessToken result) in
                  let m := if bool_decide (or_RefreshToken result <> "")
                           then set_refreshToken m (or_RefreshToken result) else m in
                  (t ← time_Now;
                   let m := set_expiresAt m (t + seconds (wrap64 (or_ExpiresIn result - 60)))%Z in
                   (* Save credentials *)
                   _ ← save_credentials m;
                   mret (None, m)) w
            end
      end.

(** refreshTokenRequest performs a token refresh request *)
Definition refreshTokenRequest (m : Manager) : Eff (option string * Manager) :=
  match authType m with
  | AuthTypeAWSSSOOIDC => refreshTokenAWSSSOOIDC m
  | AuthTypeKiroDesktop => refreshTokenKiroDesktop m
  end.

(** The last part of GetAccessToken: try to refresh. *)
Definition refresh_or_degrade (m : Manager) : Eff ((string + string) * Manager) :=
  '(err, m) ← refreshTokenRequest m;
  match err with
  | Some err =>
      let failure : (string + string) * Manager :=
        (inr ("failed to obtain access token: " +:+ err), m) in
      (* Graceful degradation for SQLite mode *)
      if bool_decide (sqliteDB m <> "") && bool_decide (accessToken m <> "") then
        expired ← isTokenExpiredUnlocked m;
        if negb expired then mret (inl (accessToken m), m) else mret failure
      else mret failure
  | None => mret (inl (accessToken m), m)
  end.

(** m.loadCredentialsFromSQLite(m.sqliteDB) *)
Definition reload (m : Manager) : Eff Manager :=
  fun w => (loadCredentialsFromSQLite m (sqliteDB m) w, w).

(** The middle part: in SQLite mode, reload credentials first. *)
Definition reload_or_refresh (m : Manager) : Eff ((string + string) * Manager) :=
  if bool_decide (sqliteDB m <> "") then
    isTokenExpiringSoonUnlocked m ≫= fun soon : bool =>
    if soon then
      m ← reload m;
      if bool_decide (accessToken m <> "") then
        soon ← isTokenExpiringSoonUnlocked m;
        if negb soon then mret (inl (accessToken m), m) else refresh_or_degrade m
      else refresh_or_degrade m
    else refresh_or_degrade m
  else refresh_or_degrade m.

(** GetAccessToken returns a valid access token, refreshing if necessary:
    the token or the error, and the manager. *)
Definition GetAccessToken (m : Manager) : Eff ((string + string) * Manager) :=
  (* Token is valid and not expiring soon *)
  if bool_decide (accessToken m <> "") then
    soon ← isTokenExpiringSoonUnlocked m;
    if negb soon then mret (inl (accessToken m), m) else reload_or_refresh m
  else reload_or_refresh m.

(** ForceRefresh forces a token refresh *)
Definition ForceRefresh (m : Manager) : Eff ((string + string) * Manager) :=
  '(err, m) ← refreshTokenRequest m;
  match err with
  | Some err => mret (inr err, m)
  | None => mret (inl (accessToken m), m)
  end.

End with_library.
End auth.

(** A library for the examples: documents are read by the reference
    reader, times are written as counts of seconds. *)
Definition reference_library : auth.Library :=
  {| auth.Unmarshal_TokenData := fun s =>
       l ← refjson.read_object s;
       a ← refjson.field_string "access_token" l;
       r ← refjson.field_string "refresh_token" l;
       p ← refjson.field_string "profile_arn" l;
       g ← refjson.field_string "region" l;
       e ← refjson.field_string "expires_at" l;
       Some (auth.mkTokenData a r p g e []);
     auth.Unmarshal_DeviceRegistration := fun s =>
       l ← refjson.read_object s;
       i ← refjson.field_string "client_id" l;
       c ← refjson.field_string "client_secret" l;
       g ← refjson.field_string "region" l;
       Some (auth.mkDeviceRegistration i c g);
     auth.Decode_DesktopResult := fun s =>
       from_option inl (inr "invalid document")
         (l ← refjson.read_object s;
          a ← refjson.field_string "accessToken" l;
          r ← refjson.field_string "refreshToken" l;
          e ← refjson.field_int "expiresIn" l;
          p ← refjson.field_string "profileArn" l;
          Some (auth.mkDesktopResult a r e p));
     auth.Decode_OIDCResult := fun s =>
       from_option inl (inr "invalid document")
         (l ← refjson.read_object s;
          a ← refjson.field_string "accessToken" l;
          r ← refjson.field_string "refreshToken" l;
          e ← refjson.field_int "expiresIn" l;
          Some (auth.mkOIDCResult a r e));
     auth.Marshal_desktop_payload := fun refreshToken =>
       refjson.write (refjson.JObject [("refreshToken", refjson.JString refreshToken)]);
     auth.Marshal_oidc_payload := fun clientID clientSecret refreshToken =>
       refjson.write (refjson.JObject [("clientId", refjson.JString clientID);
                                       ("clientSecret", refjson.JString clientSecret);
                                       ("grantType", refjson.JString "refresh_token");
                                       ("refreshToken", refjson.JString refreshToken)]);
     auth.Marshal_token_data := fun a r e g _ =>
       refjson.write (refjson.JObject [("access_token", refjson.JString a);
                                       ("expires_at", refjson.JString e);
                                       ("refresh_token", refjson.JString r);
                                       ("region", refjson.JString g)]);
     auth.update_credentials := fun _ a r _ _ =>
       refjson.write (refjson.JObject [("accessToken", refjson.JString a);
                                       ("refreshToken", refjson.JString r)]);
     auth.time_Parse := fun s => (fun z => z * auth.second)%Z <$> refjson.int_of_literal s;
     auth.time_Format := fun t => client.format_int (t / auth.second);
     auth.join_home := fun rest => "/home/user" +:+ rest |}.

(** A Kiro Desktop manager without an access token, and a world whose
    refresh endpoint answers with a token. *)
Definition desktop_manager : auth.Manager :=
  auth.mkManager default_config "refresh-1" "" "us-east-1" "" "" "" "" [] "" ""
    "" auth.zero_time auth.AuthTypeKiroDesktop ""
    "https://prod.us-east-1.auth.desktop.kiro.dev/refreshToken"
    "https://q.us-east-1.amazonaws.com" "https://q.us-east-1.amazonaws.com" "0a1b2c3d".

Definition fresh_token_body : string :=
  "{" +:+ quoted "accessToken" +:+ ":" +:+ quoted "access-2" +:+ ","
      +:+ quoted "expiresIn" +:+ ":3600}".

Definition granting_world : auth.World :=
  auth.mkWorld (fun _ => 1700000000 * auth.second)%Z 0 ∅ ∅ (fun _ => true)
    (fun _ => inr (200%Z, fresh_token_body)).

(** * Package model: the cache, and the listings by family
    (model/resolver.go) *)
Module model_cache.
Import model.

(** Update updates the cache with model list from API.  Completely
    replaces existing cache contents with new data. *)
Definition Update (c : Cache) (models : list Info) : Cache :=
  mkCache (foldl (fun (acc : gmap string Info) m => <[ModelID m := m]> acc) ∅ models)
          (maxInput c) (cache_hiddenModels c).

(** IsValidModel checks if a model exists in cache *)
Definition IsValidModel (c : Cache) (modelID : string) : bool :=
  bool_decide (is_Some (models c !! modelID)).

(** GetMaxInputTokens returns max input tokens for a model *)
Definition GetMaxInputTokens (c : Cache) (modelID : string) : Z :=
  match maxInput c !! modelID with
  | Some max => max
  | None => 200000%Z     (* default *)
  end.

(** IsEmpty checks if the cache is empty *)
Definition IsEmpty (c : Cache) : bool := bool_decide (size (models c) = 0).

(** Size returns the number of models in the cache *)
Definition Size (c : Cache) : nat := size (models c).

Section with_runtime.
Context `{GoRuntime}.

(** GetModelsByFamily returns models filtered by family *)
Definition GetModelsByFamily (r : Resolver) (family : string) : list string :=
  let allModels := GetAvailableModels r in
  foldl (fun result m =>
           if strings_Contains (strings_ToLower m) (strings_ToLower family)
           then result ++ [m] else result)
        [] allModels.

(** GetSuggestionsForModel returns models from the same family for error
    messages *)
Definition GetSuggestionsForModel (r : Resolver) (modelName : string) : list string :=
  let family := resolver.ExtractModelFamily modelName in
  if decide (family <> "") then GetModelsByFamily r family
  else GetAvailableModels r.

End with_runtime.
End model_cache.

(** * Tools: schemas and descriptions
    (utils/utils.go, converter/core.go) *)
Module tools.

Section with_float64.
Context {float64 : Type}.

(** A value of type interface{} as encoding/json decodes it, and as this
    code builds it: nil, bool, float64, string, []interface{} and
    map[string]interface{}.  [NilSlice] is the nil slice that
    [var newArr []interface{}] declares; it is written as null, not as []. *)
Inductive Value :=
| Null
| Boolean (b : bool)
| Number (f : float64)
| Str (s : string)
| Slice (items : list Value)
| NilSlice
| Map (m : gmap string Value).

(** arr, ok := value.([]interface{}); ok && len(arr) == 0 *)
Definition is_empty_slice (value : Value) : bool :=
  match value with
  | Slice [] | NilSlice => true
  | _ => false
  end.

(** append(newArr, item) *)
Definition append_item (newArr item : Value) : Value :=
  match newArr with
  | Slice l => Slice (l ++ [item])
  | _ => Slice [item]
  end.

(** The body of the loop of SanitizeJSONSchema over the entries of the
    schema: [None] when the entry is skipped, else the value stored under
    the key.  [SanitizeJSONSchema] is the recursive call, on the map that
    the value holds. *)
Definition sanitize_entry (SanitizeJSONSchema : Value -> Value) (key : string)
    (value : Value) : option Value :=
  (* Skip empty required arrays *)
  if bool_decide (key = "required") && is_empty_slice value then None
  (* Skip additionalProperties *)
  else if decide (key = "additionalProperties") then None
  else
    (* Recursively process nested objects *)
    match value with
    | Map v =>
        if decide (key = "properties")
        then Some (Map ((fun propValue =>
                           match propValue with
                           | Map _ => SanitizeJSONSchema propValue
                           | _ => propValue
                           end) <$> v))
        else Some (SanitizeJSONSchema value)
    | Slice items =>
        Some (foldl (fun newArr item =>
                       append_item newArr
                         match item with
                         | Map _ => SanitizeJSONSchema item
                         | _ => item
                         end) NilSlice items)
    | _ => Some value
    end.

(** SanitizeJSONSchema on the map that a value holds. *)
Fixpoint sanitize (v : Value) {struct v} : Value :=
  match v with
  | Map schema => Map (map_imap (sanitize_entry sanitize) schema)
  | _ => v
  end.

(** SanitizeJSONSchema removes fields that Kiro API doesn't accept *)
Definition SanitizeJSONSchema (schema : gmap string Value) : gmap string Value :=
  map_imap (sanitize_entry sanitize) schema.

(** UnifiedTool represents a tool in unified format, with its schema. *)
Record UnifiedTool := mkUnifiedTool {
  Name : string;
  Description : string;
  InputSchema : gmap string Value
}.

(** fmt.Sprintf("## Tool: %s\n\n%s", tool.Name, tool.Description) *)
Definition tool_doc (tool : UnifiedTool) : string :=
  "## Tool: " +:+ Name tool +:+ nl +:+ nl +:+ Description tool.

(** fmt.Sprintf("[Full documentation in system prompt under '## Tool: %s']",
    tool.Name) *)
Definition tool_reference (tool : UnifiedTool) : string :=
  "[Full documentation in system prompt under '## Tool: " +:+ Name tool +:+ "']".

Definition tool_docs_header : string :=
  nl +:+ nl +:+ "---" +:+ nl +:+ "# Tool Documentation" +:+ nl +:+
  "The following tools have detailed documentation that couldn't fit in the tool definition."
  +:+ nl +:+ nl.

(** The body of the loop of ProcessToolsWithLongDescriptions. *)
Definition process_tool (maxLen : Z) (st : list UnifiedTool * list string)
    (tool : UnifiedTool) : list UnifiedTool * list string :=
  let '(processed, docParts) := st in
  if (Z.of_nat (String.length (Description tool)) <=? maxLen)%Z
  then (processed ++ [tool], docParts)
  else (processed ++ [mkUnifiedTool (Name tool) (tool_reference tool) (InputSchema tool)],
        docParts ++ [tool_doc tool]).

(** ProcessToolsWithLongDescriptions processes tools with long
    descriptions *)
Definition ProcessToolsWithLongDescriptions (tools : list UnifiedTool) (maxLen : Z)
  : list UnifiedTool * string :=
  if bool_decide (length tools = 0) || (maxLen <=? 0)%Z then (tools, "")
  else
    let '(processed, docParts) := foldl (process_tool maxLen) ([], []) tools in
    let toolDocs :=
      if decide (0 < length docParts)
      then tool_docs_header +:+ strings_Join docParts (nl +:+ nl +:+ "---" +:+ nl +:+ nl)
      else "" in
    (processed, toolDocs).

End with_float64.
End tools.

(** * The request shaper: role invariants *)
Section shaper.
Import utils converter.

(** No two neighbours of the list carry the same role. *)
Definition no_adjacent_same_role (l : list UnifiedMessage) : Prop :=
  forall i a b, l !! i = Some a -> l !! S i = Some b -> Role a <> Role b.

(** No two neighbours are both assistant messages. *)
Definition no_adjacent_assistant (l : list UnifiedMessage) : Prop :=
  forall i a b, l !! i = Some a -> l !! S i = Some b ->
    ~ (Role a = "assistant" /\ Role b = "assistant").

Definition valid_role (m : UnifiedMessage) : Prop :=
  Role m = "user" \/ Role m = "assistant".

Lemma no_adjacent_nil : no_adjacent_same_role [].
Proof. intros i a b H. apply lookup_lt_Some in H. simpl in H. lia. Qed.

Lemma no_adjacent_singleton m : no_adjacent_same_role [m].
Proof.
  intros i a b H1 H2. apply lookup_lt_Some in H2. simpl in H2. lia.
Qed.

Lemma no_adjacent_snoc l x :
  no_adjacent_same_role l ->
  (forall y, last l = Some y -> Role y <> Role x) ->
  no_adjacent_same_role (l ++ [x]).
Proof.
  intros Hl Hlast i a b Ha Hb.
  destruct (decide (S i < length l)) as [Hlt|Hge].
  - rewrite lookup_app_l in Ha by lia. rewrite lookup_app_l in Hb by lia. eauto.
  - assert (Hi : S i = length l).
    { apply lookup_lt_Some in Hb. rewrite length_app in Hb. simpl in Hb. lia. }
    rewrite lookup_app_l in Ha by lia.
    rewrite Hi, lookup_app_r in Hb by lia.
    replace (length l - length l) with 0 in Hb by lia. simpl in Hb.
    injection Hb as <-.
    apply Hlast. rewrite last_lookup. rewrite <- Hi. simpl. exact Ha.
Qed.

Lemma no_adjacent_cons x l :
  no_adjacent_same_role l ->
  (forall y, head l = Some y -> Role x <> Role y) ->
  no_adjacent_same_role (x :: l).
Proof.
  intros Hl Hhd i a b Ha Hb. destruct i as [|i]; simpl in *.
  - injection Ha as <-. apply Hhd. destruct l; simpl in *; congruence.
  - eauto.
Qed.

Lemma last_insert_pred {A} (l : list A) (x : A) :
  l <> [] -> last (<[pred (length l) := x]> l) = Some x.
Proof.
  intros Hne. rewrite last_lookup, length_insert.
  apply list_lookup_insert_eq. destruct l; simpl; [congruence | lia].
Qed.

Lemma no_adjacent_insert_last l x y :
  no_adjacent_same_role l -> last l = Some y -> Role x = Role y ->
  no_adjacent_same_role (<[pred (length l) := x]> l).
Proof.
  intros Hl Hlast Hrole i a b Ha Hb.
  assert (Hlen : S i < length l).
  { apply lookup_lt_Some in Hb. rewrite length_insert in Hb. exact Hb. }
  rewrite list_lookup_insert_ne in Ha by lia.
  destruct (decide (S i = pred (length l))) as [He|Hn].
  - rewrite He, list_lookup_insert_eq in Hb by lia. injection Hb as <-.
    rewrite Hrole. rewrite last_lookup, <- He in Hlast. eauto.
  - rewrite list_lookup_insert_ne in Hb by lia. eauto.
Qed.

Lemma merge_step_spec merged msg :
  no_adjacent_same_role merged ->
  no_adjacent_same_role (merge_step merged msg) /\ merge_step merged msg <> [].
Proof.
  intros H. unfold merge_step.
  destruct (last merged) as [l|] eqn:Hlast.
  - destruct (decide (Role msg = Role l)) as [He|Hn].
    + split.
      * eapply no_adjacent_insert_last; eauto.
      * intros Hnil. apply (f_equal length) in Hnil.
        rewrite length_insert in Hnil. destruct merged; simpl in *; [discriminate | lia].
    + split.
      * apply no_adjacent_snoc; [exact H|]. intros y Hy. congruence.
      * destruct merged; discriminate.
  - split.
    + apply no_adjacent_snoc; [exact H|]. intros y Hy. congruence.
    + destruct merged; discriminate.
Qed.

Lemma foldl_merge_step_spec messages merged :
  no_adjacent_same_role merged ->
  (merged <> [] \/ messages <> []) ->
  no_adjacent_same_role (foldl merge_step merged messages) /\
  foldl merge_step merged messages <> [].
Proof.
  revert merged. induction messages as [|m ms IH]; intros merged H Hne; simpl.
  - split; [exact H|]. destruct Hne; congruence.
  - destruct (merge_step_spec merged m H) as [H1 H2]. apply IH; auto.
Qed.

Lemma MergeAdjacentMessages_spec messages :
  no_adjacent_same_role (MergeAdjacentMessages messages) /\
  (messages <> [] -> MergeAdjacentMessages messages <> []).
Proof.
  unfold MergeAdjacentMessages. destruct (decide (length messages = 0)) as [H0|Hn].
  - split; [apply no_adjacent_nil|]. destruct messages; simpl in *; congruence.
  - assert (messages <> []) by (destruct messages; simpl in *; congruence).
    destruct (foldl_merge_step_spec messages [] no_adjacent_nil) as [H1 H2]; auto.
Qed.

Lemma StripAllToolContent_length messages :
  length (fst (StripAllToolContent messages)) = length messages.
Proof.
  unfold StripAllToolContent.
  assert (G : forall ms acc b,
    length (fst (foldl
      (fun '(result, hadToolContent) msg =>
       if decide (0 < length (ToolCalls msg) \/ 0 < length (ToolResults msg)) then
         let content := ExtractTextContent (MsgContent msg) in
         let parts := [content] in
         let parts := if decide (0 < length (ToolCalls msg))
                      then parts ++ [ToolCallsToText (ToolCalls msg)] else parts in
         let parts := if decide (0 < length (ToolResults msg))
                      then parts ++ [ToolResultsToText (ToolResults msg)] else parts in
         (result ++ [mkMsg (Role msg)
                           (ContentString (strings_Join parts (nl +:+ nl)))
                           [] [] (Images msg)],
          true)
       else (result ++ [msg], hadToolContent)) (acc, b) ms)) = length acc + length ms).
  { induction ms as [|m ms IH]; intros acc b; simpl; [lia|].
    destruct (decide _); rewrite IH, length_app; simpl; lia. }
  rewrite G. reflexivity.
Qed.

Lemma EnsureFirstMessageIsUser_spec messages :
  no_adjacent_same_role messages ->
  no_adjacent_same_role (EnsureFirstMessageIsUser messages) /\
  (messages <> [] -> exists m rest,
      EnsureFirstMessageIsUser messages = m :: rest /\ Role m = "user").
Proof.
  intros H. unfold EnsureFirstMessageIsUser. destruct messages as [|m ms].
  - split; [exact H | congruence].
  - destruct (decide (Role m = "user")) as [Hu|Hn].
    + split; [exact H | eauto].
    + split; [| intros _; eexists _, _; split; reflexivity].
      apply no_adjacent_cons; [exact H|]. simpl. intros y [= <-]. simpl. congruence.
Qed.

Lemma NormalizeMessageRoles_role msg :
  let msg' := if decide (Role msg <> "user" /\ Role msg <> "assistant")
              then mkMsg "user" (MsgContent msg) (ToolCalls msg) (ToolResults msg) (Images msg)
              else msg in
  valid_role msg' /\ (Role msg' = "assistant" -> Role msg = "assistant") /\
  (Role msg = "user" -> Role msg' = "user").
Proof.
  simpl. destruct (decide _) as [[H1 H2]|Hn]; simpl.
  - split; [left; reflexivity|]. split; [discriminate | congruence].
  - split; [| split; auto].
    unfold valid_role.
    destruct (decide (Role msg = "user")); [auto|].
    destruct (decide (Role msg = "assistant")); [auto|]. exfalso. apply Hn. auto.
Qed.

Lemma NormalizeMessageRoles_spec messages :
  no_adjacent_same_role messages ->
  Forall valid_role (NormalizeMessageRoles messages) /\
  no_adjacent_assistant (NormalizeMessageRoles messages) /\
  length (NormalizeMessageRoles messages) = length messages /\
  (forall m rest, messages = m :: rest -> Role m = "user" ->
     exists m' rest', NormalizeMessageRoles messages = m' :: rest' /\ Role m' = "user").
Proof.
  intros H. unfold NormalizeMessageRoles. repeat split.
  - apply Forall_forall. intros x Hx. apply list_elem_of_In in Hx.
    apply in_map_iff in Hx as [y [<- _]]. apply NormalizeMessageRoles_role.
  - intros i a b Ha Hb [Ra Rb].
    change (map ?f ?l) with (f <$> l) in Ha, Hb.
    rewrite list_lookup_fmap in Ha, Hb.
    destruct (messages !! i) as [a0|] eqn:Ea; [|discriminate].
    destruct (messages !! S i) as [b0|] eqn:Eb; [|discriminate].
    simpl in Ha, Hb. injection Ha as <-. injection Hb as <-.
    apply (H i a0 b0 Ea Eb).
    destruct (NormalizeMessageRoles_role a0) as (_ & Ha' & _).
    destruct (NormalizeMessageRoles_role b0) as (_ & Hb' & _).
    simpl in Ha', Hb'. rewrite (Ha' Ra), (Hb' Rb). reflexivity.
  - apply length_map.
  - intros m rest -> Hu. simpl. eexists _, _. split; [reflexivity|].
    apply NormalizeMessageRoles_role. exact Hu.
Qed.

(** Invariant of the loop of EnsureAlternatingRoles. *)
Record alternating_inv (result : list UnifiedMessage) : Prop := {
  inv_valid : Forall valid_role result;
  inv_adjacent : no_adjacent_same_role result;
  inv_first : exists m rest, result = m :: rest /\ Role m = "user"
}.

Lemma alternate_step_inv result m prev :
  alternating_inv result -> last result = Some prev -> valid_role m ->
  ~ (Role prev = "assistant" /\ Role m = "assistant") ->
  alternating_inv (alternate_step result m) /\ last (alternate_step result m) = Some m.
Proof.
  intros [Hv Ha Hf] Hlast Hm Hnn. unfold alternate_step.
  rewrite Hlast. cbn [fmap option_fmap option_map].
  destruct (decide (Role m = "user" /\ Some (Role prev) = Some "user")) as [[Hu Hp]|Hn].
  - injection Hp as Hp. split; [| apply last_snoc].
    split.
    + apply Forall_app; split; [apply Forall_app; split; [exact Hv|]|].
      * constructor; [right; reflexivity | constructor].
      * constructor; [exact Hm | constructor].
    + apply no_adjacent_snoc.
      * apply no_adjacent_snoc; [exact Ha|]. intros y Hy.
        rewrite Hlast in Hy. injection Hy as <-. simpl. rewrite Hp. discriminate.
      * intros y Hy. rewrite last_snoc in Hy. injection Hy as <-. simpl.
        rewrite Hu. discriminate.
    + destruct Hf as (m0 & rest & -> & Hm0). simpl. eexists _, _. split; [reflexivity | exact Hm0].
  - split; [| apply last_snoc].
    split.
    + apply Forall_app; split; [exact Hv|]. constructor; [exact Hm | constructor].
    + apply no_adjacent_snoc; [exact Ha|]. intros y Hy.
      rewrite Hlast in Hy. injection Hy as <-.
      intros Heq.
      assert (Hvp : valid_role prev).
      { eapply Forall_forall in Hv; [exact Hv|].
        rewrite last_lookup in Hlast. eapply list_elem_of_lookup_2; eauto. }
      destruct Hm as [Hm|Hm], Hvp as [Hvp|Hvp]; try congruence.
      * apply Hn. split; [exact Hm | rewrite Hvp; reflexivity].
      * apply Hnn. auto.
    + destruct Hf as (m0 & rest & -> & Hm0). simpl. eexists _, _. split; [reflexivity | exact Hm0].
Qed.

Lemma foldl_alternate_step_inv rest result prev :
  alternating_inv result -> last result = Some prev ->
  Forall valid_role rest ->
  no_adjacent_assistant (prev :: rest) ->
  alternating_inv (foldl alternate_step result rest).
Proof.
  revert result prev. induction rest as [|m ms IH]; intros result prev Hinv Hlast Hv Hna; simpl.
  - exact Hinv.
  - apply Forall_cons in Hv as [Hm Hms].
    destruct (alternate_step_inv result m prev Hinv Hlast Hm) as [Hinv' Hlast'].
    { apply (Hna 0 prev m); reflexivity. }
    apply (IH _ m Hinv' Hlast' Hms).
    intros i a b Hi1 Hi2. apply (Hna (S i) a b); assumption.
Qed.

Lemma EnsureAlternatingRoles_spec messages m rest :
  messages = m :: rest -> Role m = "user" ->
  Forall valid_role messages -> no_adjacent_assistant messages ->
  alternating_inv (EnsureAlternatingRoles messages).
Proof.
  intros -> Hu Hv Hna. unfold EnsureAlternatingRoles.
  destruct rest as [|m1 rest].
  - split; [exact Hv | apply no_adjacent_singleton | eauto].
  - apply Forall_cons in Hv as [Hm Hrest].
    apply (foldl_alternate_step_inv (m1 :: rest) [m] m); auto.
    split; [constructor; auto | apply no_adjacent_singleton | eauto].
Qed.

End shaper.

(** C1.  For every non-empty input list of unified messages, the sequence
    obtained after the pipeline of BuildKiroPayload (tool stripping when the
    request carries no tools, MergeAdjacentMessages,
    EnsureFirstMessageIsUser, NormalizeMessageRoles, EnsureAlternatingRoles)
    is non-empty, so BuildKiroPayload produces a payload, its first message
    has role user, no two adjacent messages share a role, and every role is
    user or assistant. *)
Theorem shaped_messages_invariant
    (tools : list converter.UnifiedTool) (messages : list converter.UnifiedMessage) :
  messages <> [] ->
  let out := converter.shaped_messages tools messages in
  converter.BuildKiroPayload_returns_payload tools messages = true /\
  1 <= length out /\
  (exists m, head out = Some m /\ converter.Role m = "user") /\
  (forall i a b, out !! i = Some a -> out !! S i = Some b ->
     converter.Role a <> converter.Role b) /\
  (forall m, m ∈ out -> converter.Role m = "user" \/ converter.Role m = "assistant").
Proof.
  intros Hne out.
  assert (Hinv : alternating_inv out).
  { subst out. unfold converter.shaped_messages.
    set (m0 := if decide (length tools = 0)
               then (converter.StripAllToolContent messages).1 else messages).
    assert (Hm0 : m0 <> []).
    { subst m0. destruct (decide _); [|exact Hne].
      intros E. apply (f_equal length) in E.
      rewrite StripAllToolContent_length in E. destruct messages; simpl in E; congruence. }
    destruct (MergeAdjacentMessages_spec m0) as [Hadj Hne1]. specialize (Hne1 Hm0).
    destruct (EnsureFirstMessageIsUser_spec _ Hadj) as [Hadj2 Hhd]. specialize (Hhd Hne1).
    destruct Hhd as (m & rest & Heq & Hu).
    destruct (NormalizeMessageRoles_spec _ Hadj2) as (Hv & Hna & _ & Hfirst).
    destruct (Hfirst _ _ Heq Hu) as (m' & rest' & Heq' & Hu').
    eapply EnsureAlternatingRoles_spec; eauto. }
  destruct Hinv as [Hv Ha [m [rest [Heq Hu]]]].
  repeat split.
  - unfold converter.BuildKiroPayload_returns_payload. fold out. rewrite Heq. reflexivity.
  - rewrite Heq. simpl. lia.
  - exists m. rewrite Heq. auto.
  - exact Ha.
  - intros x Hx. eapply Forall_forall in Hv; eauto.
Qed.

(** The alternation-repair scenario: [assistant A1; assistant A2; user U]. *)
Lemma shaped_messages_invariant_witness :
  let msgs := [converter.synthetic "assistant" "A1";
               converter.synthetic "assistant" "A2";
               converter.synthetic "user" "U"] in
  msgs <> [] /\
  map converter.Role (converter.shaped_messages [] msgs) = ["user"; "assistant"; "user"] /\
  1 <= length (converter.shaped_messages [] msgs).
Proof.
  split; [discriminate|]. split; [reflexivity|].
  apply (shaped_messages_invariant []
           [converter.synthetic "assistant" "A1";
            converter.synthetic "assistant" "A2";
            converter.synthetic "user" "U"]).
  discriminate.
Defined.

(** * The model listing *)
Section listing.
Import model.
Context `{GoRuntime}.

(** Strict byte-wise order on strings. *)
Definition string_lt (a b : string) : Prop := String.le a b /\ a <> b.

Lemma foldl_snoc_keys {A} (l : list (string * A)) (acc : list string) :
  foldl (fun ids '(id, _) => ids ++ [id]) acc l = acc ++ l.*1.
Proof.
  revert acc. induction l as [|[k v] l IH]; intros acc; simpl.
  - by rewrite app_nil_r.
  - rewrite IH. by rewrite <- app_assoc.
Qed.

Lemma elem_of_map_range_keys {A} (m : gmap string A) (k : string) :
  k ∈ (map_range m).*1 <-> is_Some (m !! k).
Proof.
  rewrite (map_range_perm m), list_elem_of_fmap. split.
  - intros [[k' v] [-> Hin]]. apply elem_of_map_to_list in Hin. by exists v.
  - intros [v Hv]. exists (k, v). split; [done|]. by apply elem_of_map_to_list.
Qed.

Lemma NoDup_map_range_keys {A} (m : gmap string A) : NoDup (map_range m).*1.
Proof.
  rewrite (map_range_perm m). apply NoDup_fst_map_to_list.
Qed.

Lemma sort_Strings_elem_of l x : x ∈ sort_Strings l <-> x ∈ l.
Proof. unfold sort_Strings. by rewrite merge_sort_Permutation. Qed.

Lemma sort_Strings_sorted l : StronglySorted String.le (sort_Strings l).
Proof. apply StronglySorted_merge_sort; apply _. Qed.

Lemma sort_Strings_strict l :
  NoDup l -> StronglySorted string_lt (sort_Strings l).
Proof.
  intros Hnd.
  assert (Hnd' : NoDup (sort_Strings l)).
  { unfold sort_Strings. by rewrite merge_sort_Permutation. }
  pose proof (sort_Strings_sorted l) as Hs.
  induction Hs as [|x xs Hs IH Hx]; [constructor|].
  apply NoDup_cons in Hnd' as [Hnin Hnd'].
  constructor; [by apply IH|].
  apply Forall_forall. intros y Hy. split.
  - eapply Forall_forall in Hx; eauto.
  - intros ->. contradiction.
Qed.

Lemma GetAllModelIDs_elem_of (c : Cache) (id : string) :
  id ∈ GetAllModelIDs c <-> is_Some (models c !! id).
Proof.
  unfold GetAllModelIDs. rewrite sort_Strings_elem_of, foldl_snoc_keys. simpl.
  apply elem_of_map_range_keys.
Qed.

Lemma foldl_insert_filtered (deny : gmap string bool) (l : list string)
    (acc : gmap string bool) (k : string) :
  is_Some (foldl (fun (models : gmap string bool) id =>
                    if negb (index_bool deny id) then <[id := true]> models else models)
                 acc l !! k)
  <-> is_Some (acc !! k) \/ (k ∈ l /\ index_bool deny k = false).
Proof.
  revert acc. induction l as [|x l IH]; intros acc; simpl.
  - rewrite elem_of_nil. tauto.
  - rewrite IH, elem_of_cons. destruct (index_bool deny x) eqn:Hd; simpl.
    + split; [intros [?|[? ?]]; auto | intros [?|[[->|?] ?]]; auto; congruence].
    + rewrite lookup_insert_is_Some. split.
      * intros [[->|[_ ?]]|[? ?]]; auto.
      * intros [?|[[->|?] ?]]; auto.
        destruct (decide (x = k)) as [->|]; auto.
Qed.

Lemma foldl_insert_filtered_pairs {A} (deny : gmap string bool)
    (l : list (string * A)) (acc : gmap string bool) (k : string) :
  is_Some (foldl (fun (models : gmap string bool) '(displayName, _) =>
                    if negb (index_bool deny displayName)
                    then <[displayName := true]> models else models)
                 acc l !! k)
  <-> is_Some (acc !! k) \/ (k ∈ l.*1 /\ index_bool deny k = false).
Proof.
  revert acc. induction l as [|[x v] l IH]; intros acc; simpl.
  - rewrite elem_of_nil. tauto.
  - rewrite IH, elem_of_cons. destruct (index_bool deny x) eqn:Hd; simpl.
    + split; [intros [?|[? ?]]; auto | intros [?|[[->|?] ?]]; auto; congruence].
    + rewrite lookup_insert_is_Some. split.
      * intros [[->|[_ ?]]|[? ?]]; auto.
      * intros [?|[[->|?] ?]]; auto.
        destruct (decide (x = k)) as [->|]; auto.
Qed.

Lemma foldl_insert_pairs {A} (l : list (string * A)) (acc : gmap string bool) (k : string) :
  is_Some (foldl (fun (models : gmap string bool) '(alias, _) => <[alias := true]> models)
                 acc l !! k)
  <-> is_Some (acc !! k) \/ k ∈ l.*1.
Proof.
  revert acc. induction l as [|[x v] l IH]; intros acc; simpl.
  - rewrite elem_of_nil. tauto.
  - rewrite IH, elem_of_cons, lookup_insert_is_Some. split.
    + intros [[->|[_ ?]]|?]; auto.
    + intros [?|[->|?]]; auto. destruct (decide (x = k)) as [->|]; auto.
Qed.

(** Membership in the listing, as the code computes it. *)
Lemma GetAvailableModels_elem_of (r : Resolver) (id : string) :
  id ∈ GetAvailableModels r <->
    (is_Some (models (cache r) !! id) /\ index_bool (hiddenFromList r) id = false)
    \/ (is_Some (hiddenModels r !! id) /\ index_bool (hiddenFromList r) id = false)
    \/ is_Some (aliases r !! id).
Proof.
  unfold GetAvailableModels.
  rewrite sort_Strings_elem_of, foldl_snoc_keys. simpl.
  rewrite elem_of_map_range_keys.
  rewrite foldl_insert_pairs, foldl_insert_filtered_pairs, foldl_insert_filtered.
  rewrite lookup_empty, !elem_of_map_range_keys, GetAllModelIDs_elem_of.
  split.
  - intros [[[[? Hx]|?]|?]|?]; auto. discriminate.
  - intros [?|[?|?]]; auto.
Qed.

Lemma GetAvailableModels_sorted (r : Resolver) :
  StronglySorted string_lt (GetAvailableModels r).
Proof.
  unfold GetAvailableModels. apply sort_Strings_strict.
  rewrite foldl_snoc_keys. simpl. apply NoDup_map_range_keys.
Qed.

End listing.

(** A resolver whose only alias is also on the deny list. *)
Definition resolver_alias_denied : model.Resolver :=
  model.mkResolver
    (model.mkCache {[ "claude-sonnet-4" := model.mkInfo "claude-sonnet-4" ]} ∅ ∅)
    ∅
    {[ "auto" := "claude-sonnet-4" ]}
    {[ "auto" := true ]}.

(** C4, as stated, fails: an alias that is on the hiddenFromList deny-set is
    still listed, so the listing is not the union minus the deny-set. *)
Lemma GetAvailableModels_denied_alias_listed :
  model.index_bool (model.hiddenFromList resolver_alias_denied) "auto" = true /\
  @model.GetAvailableModels canonical_runtime resolver_alias_denied
    = ["auto"; "claude-sonnet-4"] /\
  model.GetAvailableModels_as_specified resolver_alias_denied = ["claude-sonnet-4"] /\
  @model.GetAvailableModels canonical_runtime resolver_alias_denied
    <> model.GetAvailableModels_as_specified resolver_alias_denied.
Proof.
  assert (E1 : @model.GetAvailableModels canonical_runtime resolver_alias_denied
               = ["auto"; "claude-sonnet-4"]) by (vm_compute; reflexivity).
  assert (E2 : model.GetAvailableModels_as_specified resolver_alias_denied
               = ["claude-sonnet-4"]) by (vm_compute; reflexivity).
  split; [reflexivity|]. split; [exact E1|]. split; [exact E2|].
  rewrite E1, E2. discriminate.
Qed.

(** C4 (amended).  For every resolver state and every iteration order of the
    runtime, GetAvailableModels returns the strictly ascending (byte-wise
    string order, no duplicates) list whose members are exactly: the cache's
    model ids and the hidden-model display names that are not on the
    hiddenFromList deny-set, together with all alias names, which are listed
    whether or not they are on the deny-set. *)
Theorem GetAvailableModels_spec `{GoRuntime} (r : model.Resolver) :
  StronglySorted string_lt (model.GetAvailableModels r) /\
  forall id : string,
    id ∈ model.GetAvailableModels r <->
      (is_Some (model.models (model.cache r) !! id)
         /\ model.index_bool (model.hiddenFromList r) id = false)
      \/ (is_Some (model.hiddenModels r !! id)
         /\ model.index_bool (model.hiddenFromList r) id = false)
      \/ is_Some (model.aliases r !! id).
Proof.
  split; [apply GetAvailableModels_sorted | apply GetAvailableModels_elem_of].
Qed.

(** * The thinking parser at end of stream *)

(** A parser with a threshold of 100 bytes that was fed "<thinking>hi". *)
Definition buffered_parser : thinking.ThinkingParser :=
  match thinking.Feed (thinking.NewThinkingParser thinking.ThinkingHandlingAsReasoningContent
                         [] 100) "<thinking>hi" with
  | Some (p, _) => p
  | None => thinking.NewThinkingParser thinking.ThinkingHandlingAsReasoningContent [] 100
  end.

(** Test "flushes initial buffer" of the suite: a partial tag stays in the
    buffer and is flushed as regular content. *)
Example Finalize_flushes_initial_buffer :
  (p ← fst <$> thinking.Feed (thinking.NewThinkingParser
                   thinking.ThinkingHandlingAsReasoningContent [] 100) "<thi";
   Some (thinking.RegularContent (thinking.Finalize p).2)) = Some "<thi".
Proof. vm_compute. reflexivity. Qed.

(** The same input at the threshold: Feed routes "hi" to the thinking
    channel. *)
Example Feed_at_threshold_finds_tag :
  snd <$> thinking.Feed (thinking.NewThinkingParser
             thinking.ThinkingHandlingAsReasoningContent [] 1) "<thinking>hi"
  = Some (thinking.mkResult "hi" "" true false).
Proof. vm_compute. reflexivity. Qed.

(** C7, as stated, fails: finalized in PRE with the buffer "<thinking>hi",
    the parser does not search for the tag; it emits the whole buffer, tag
    included, as regular content and nothing on the thinking channel, where
    the search done at the threshold would emit "hi" as thinking. *)
Lemma Finalize_does_not_search :
  thinking.in_PRE buffered_parser /\
  thinking.buffer buffered_parser = "<thinking>hi" /\
  (thinking.Finalize buffered_parser).2 = thinking.mkResult "" "<thinking>hi" false false /\
  snd <$> thinking.Finalize_searching buffered_parser
    = Some (thinking.mkResult "hi" "" true false) /\
  Some (thinking.Finalize buffered_parser).2
    <> (snd <$> thinking.Finalize_searching buffered_parser).
Proof.
  assert (E1 : (thinking.Finalize buffered_parser).2
               = thinking.mkResult "" "<thinking>hi" false false) by (vm_compute; reflexivity).
  assert (E2 : snd <$> thinking.Finalize_searching buffered_parser
               = Some (thinking.mkResult "hi" "" true false)) by (vm_compute; reflexivity).
  split; [by vm_compute|]. split; [by vm_compute|]. split; [exact E1|]. split; [exact E2|].
  rewrite E1, E2. discriminate.
Qed.

(** C7 (amended).  When the thinking FSM is finalized while still in the PRE
    state with buffered content, it does not search the buffer for open
    tags: it emits the whole buffer as regular content, emits nothing on the
    thinking channel, and empties the buffer. *)
Theorem Finalize_in_PRE_flushes_buffer (p : thinking.ThinkingParser) :
  thinking.in_PRE p -> thinking.buffer p <> "" ->
  (thinking.Finalize p).2 = thinking.mkResult "" (thinking.buffer p) false false /\
  thinking.buffer (thinking.Finalize p).1 = "" /\
  thinking.in_PRE (thinking.Finalize p).1.
Proof.
  intros (Hf & Hi & He) Hb. unfold thinking.Finalize.
  destruct (decide (thinking.buffer p <> "" /\ thinking.foundThinking p = false)) as [_|Hn].
  - simpl. rewrite Hi. simpl. repeat split; assumption.
  - exfalso. apply Hn. split; assumption.
Qed.

Lemma Finalize_in_PRE_flushes_buffer_witness :
  (thinking.Finalize buffered_parser).2
    = thinking.mkResult "" (thinking.buffer buffered_parser) false false /\
  thinking.buffer (thinking.Finalize buffered_parser).1 = "" /\
  thinking.in_PRE (thinking.Finalize buffered_parser).1.
Proof.
  apply (Finalize_in_PRE_flushes_buffer buffered_parser).
  - vm_compute. auto.
  - vm_compute. discriminate.
Defined.

(** * Tool-call deduplication *)
Section dedup.
Import parser.
Context `{GoRuntime}.

(** The entries the second pass keeps, as a recursive function. *)
Fixpoint first_by_key (seen : gmap string bool) (l : list ToolCall) : list ToolCall :=
  match l with
  | [] => []
  | tc :: l =>
      if index_bool seen (dedup_key tc) then first_by_key seen l
      else tc :: first_by_key (<[dedup_key tc := true]> seen) l
  end.

Lemma foldl_snoc_values {A} (l : list (string * A)) (acc : list A) :
  foldl (fun result '(_, tc) => result ++ [tc]) acc l = acc ++ l.*2.
Proof.
  revert acc. induction l as [|[k v] l IH]; intros acc; simpl.
  - by rewrite app_nil_r.
  - rewrite IH. by rewrite <- app_assoc.
Qed.

Lemma foldl_snoc_noid (l : list ToolCall) (acc : list ToolCall) :
  foldl (fun result tc => if decide (ID tc = "") then result ++ [tc] else result) acc l
  = acc ++ filter (fun tc => ID tc = "") l.
Proof.
  revert acc. induction l as [|x l IH]; intros acc; simpl.
  - by rewrite app_nil_r.
  - rewrite IH. rewrite filter_cons. destruct (decide (ID x = "")); [|done].
    by rewrite <- app_assoc.
Qed.

Lemma foldl_unique_step (l : list ToolCall) seen unique :
  (foldl unique_step (seen, unique) l).2 = unique ++ first_by_key seen l.
Proof.
  revert seen unique. induction l as [|x l IH]; intros seen unique; simpl.
  - by rewrite app_nil_r.
  - destruct (index_bool seen (dedup_key x)); simpl.
    + apply IH.
    + rewrite IH. by rewrite <- app_assoc.
Qed.

(** The output of DeduplicateToolCalls in closed form. *)
Lemma DeduplicateToolCalls_eq (l : list ToolCall) :
  DeduplicateToolCalls l =
    first_by_key ∅ ((map_range (foldl byID_step ∅ l)).*2 ++ filter (fun tc => ID tc = "") l).
Proof.
  unfold DeduplicateToolCalls. destruct (decide (length l = 0)) as [E|E].
  - destruct l; [|discriminate]. simpl.
    assert (Hnil : map_range (∅ : gmap string ToolCall) = []).
    { apply Permutation_nil_r. rewrite map_range_perm. by rewrite map_to_list_empty. }
    rewrite Hnil. reflexivity.
  - rewrite foldl_unique_step, foldl_snoc_noid, foldl_snoc_values. reflexivity.
Qed.

Lemma first_by_key_subseteq seen l x : x ∈ first_by_key seen l -> x ∈ l.
Proof.
  revert seen. induction l as [|y l IH]; intros seen; simpl; [done|].
  destruct (index_bool seen (dedup_key y)).
  - intros Hx. right. eauto.
  - intros [->|Hx]%elem_of_cons; [left | right; eauto].
Qed.

Lemma first_by_key_seen seen l x :
  x ∈ first_by_key seen l -> index_bool seen (dedup_key x) = false.
Proof.
  revert seen. induction l as [|y l IH]; intros seen; simpl; [by intros ?%elem_of_nil|].
  destruct (index_bool seen (dedup_key y)) eqn:Hy.
  - apply IH.
  - intros [->|Hx]%elem_of_cons; [done|].
    apply IH in Hx. unfold index_bool in *.
    destruct (decide (dedup_key y = dedup_key x)) as [E|E].
    + rewrite E, lookup_insert_eq in Hx. discriminate.
    + by rewrite lookup_insert_ne in Hx.
Qed.

Lemma first_by_key_NoDup seen l : NoDup (dedup_key <$> first_by_key seen l).
Proof.
  revert seen. induction l as [|y l IH]; intros seen; simpl; [constructor|].
  destruct (index_bool seen (dedup_key y)) eqn:Hy; [apply IH|].
  rewrite fmap_cons. constructor; [|apply IH].
  intros Hin. apply list_elem_of_fmap in Hin as [x [Hk Hx]].
  apply first_by_key_seen in Hx. unfold index_bool in Hx.
  rewrite <- Hk, lookup_insert_eq in Hx. discriminate.
Qed.


(** Every value of the byID map is an entry of the input stored under its
    own, non-empty id. *)
Lemma byID_values (l : list ToolCall) (acc : gmap string ToolCall) :
  (forall k v, acc !! k = Some v -> ID v = k /\ k <> "") ->
  forall k v, foldl byID_step acc l !! k = Some v ->
    ID v = k /\ k <> "" /\ (v ∈ l \/ acc !! k = Some v).
Proof.
  revert acc. induction l as [|x l IH]; intros acc Hacc k v; simpl.
  - intros Hk. destruct (Hacc k v Hk). auto.
  - intros Hk. apply IH in Hk.
    + destruct Hk as (E1 & E2 & [Hin|Hk]); [split; [done|]; split; [done|]; left; by right|].
      split; [done|]. split; [done|].
      unfold byID_step in Hk. destruct (decide (ID x = "")); [by right|].
      destruct (acc !! ID x) eqn:Hx.
      * destruct (decide _); [|by right].
        destruct (decide (ID x = k)) as [<-|Hne].
        -- rewrite lookup_insert_eq in Hk. injection Hk as <-. left. left.
        -- rewrite lookup_insert_ne in Hk by done. by right.
      * destruct (decide (ID x = k)) as [<-|Hne].
        -- rewrite lookup_insert_eq in Hk. injection Hk as <-. left. left.
        -- rewrite lookup_insert_ne in Hk by done. by right.
    + intros k' v' Hk'. unfold byID_step in Hk'.
      destruct (decide (ID x = "")); [eauto|].
      destruct (acc !! ID x) eqn:Hx.
      * destruct (decide _); [|eauto].
        destruct (decide (ID x = k')) as [<-|Hne].
        -- rewrite lookup_insert_eq in Hk'. by injection Hk' as <-.
        -- rewrite lookup_insert_ne in Hk' by done. eauto.
      * destruct (decide (ID x = k')) as [<-|Hne].
        -- rewrite lookup_insert_eq in Hk'. by injection Hk' as <-.
        -- rewrite lookup_insert_ne in Hk' by done. eauto.
Qed.


Lemma DeduplicateToolCalls_subseteq (l : list ToolCall) (x : ToolCall) :
  x ∈ DeduplicateToolCalls l -> x ∈ l.
Proof.
  rewrite DeduplicateToolCalls_eq. intros Hx%first_by_key_subseteq.
  apply elem_of_app in Hx as [Hx|Hx].
  - apply list_elem_of_fmap in Hx as [[k v] [-> Hkv]].
    rewrite map_range_perm in Hkv. apply elem_of_map_to_list in Hkv.
    apply byID_values in Hkv as (_ & _ & [?|Hk]); [done| |].
    + by rewrite lookup_empty in Hk.
    + intros k' v' Hk'. by rewrite lookup_empty in Hk'.
  - by apply list_elem_of_filter in Hx as [_ ?].
Qed.

Lemma DeduplicateToolCalls_NoDup_keys (l : list ToolCall) :
  NoDup (dedup_key <$> DeduplicateToolCalls l).
Proof. rewrite DeduplicateToolCalls_eq. apply first_by_key_NoDup. Qed.



End dedup.






(** * Finalized tool calls carry JSON arguments *)
Section finalized.
Import parser.
Context `{GoRuntime} `{EncodingJSON}.

(** [s] parses as JSON: json.Unmarshal into an interface{} succeeds. *)
Definition parses_as_JSON (s : string) : Prop := is_Some (Unmarshal s).

(** What is used of encoding/json: re-serialising a value that was read
    gives text that can be read again, and the empty object can be read. *)
Hypothesis Marshal_parses :
  forall s v, Unmarshal s = Some v -> parses_as_JSON (Marshal v).
Hypothesis empty_object_parses : parses_as_JSON "{}".

(** Every collected tool call has arguments that parse. *)
Definition collected_valid (p : AwsEventStreamParser) : Prop :=
  Forall (fun tc => parses_as_JSON (Arguments tc)) (toolCalls p).

Lemma finalizeToolCall_buffer p : buffer (finalizeToolCall p) = buffer p.
Proof.
  unfold finalizeToolCall. destruct (currentToolCall p); [|done].
  by destruct (decide (ID t = "")).
Qed.

Lemma finalizeToolCall_valid p : collected_valid p -> collected_valid (finalizeToolCall p).
Proof.
  intros Hp. unfold finalizeToolCall. destruct (currentToolCall p) as [tc|]; [|done].
  destruct (decide (ID tc = "")); unfold collected_valid; simpl;
    (apply Forall_app; split; [exact Hp|]); constructor; try constructor; simpl.
  all: destruct (decide (Arguments tc <> "")); [|exact empty_object_parses].
  all: destruct (Unmarshal (Arguments tc)) eqn:E; [|exact empty_object_parses].
  all: eapply Marshal_parses; exact E.
Qed.

Lemma finalizeToolCall_replaces p tc :
  currentToolCall p = Some tc ->
  Arguments tc = "" \/ Unmarshal (Arguments tc) = None ->
  exists id, toolCalls (finalizeToolCall p)
             = toolCalls p ++ [mkToolCall id (Type_ tc) (Name tc) "{}"].
Proof.
  intros Hc Hargs. unfold finalizeToolCall. rewrite Hc.
  assert (E : (if decide (Arguments tc <> "")
               then match Unmarshal (Arguments tc) with
                    | Some parsed => Marshal parsed
                    | None => "{}"
                    end
               else "{}") = "{}").
  { destruct (decide (Arguments tc <> "")) as [Hne|]; [|done].
    destruct Hargs as [E1|E1]; [congruence | by rewrite E1]. }
  rewrite E. destruct (decide (ID tc = "")); simpl; eauto.
Qed.

Lemma processEvent_valid p jsonStr t :
  collected_valid p -> collected_valid (processEvent p jsonStr t).1.
Proof.
  intros Hp. destruct t; simpl.
  - unfold processContentEvent. destruct (Unmarshal_content jsonStr) as [[c f]|]; [|done].
    destruct (decide (f <> "")); [done|]. by destruct (decide (lastContent p = Some c)).
  - unfold processToolStartEvent.
    set (p1 := match currentToolCall p with Some _ => finalizeToolCall p | None => p end).
    assert (Hp1 : collected_valid p1).
    { subst p1. destruct (currentToolCall p); [by apply finalizeToolCall_valid | done]. }
    destruct (Unmarshal_toolStart jsonStr) as [[[[n i] v] b]|]; [|done].
    destruct b; simpl; [|done]. by apply finalizeToolCall_valid.
  - unfold processToolInputEvent. destruct (currentToolCall p); [|done].
    by destruct (Unmarshal_toolInput jsonStr).
  - unfold processToolStopEvent. destruct (Unmarshal_toolStop jsonStr) as [b|]; [|done].
    simpl. destruct (currentToolCall p); [|done].
    destruct b; [by apply finalizeToolCall_valid | done].
  - unfold processUsageEvent. by destruct (Unmarshal_usage jsonStr).
  - unfold processContextUsageEvent. by destruct (Unmarshal_contextUsage jsonStr).
Qed.

Lemma processEvent_buffer p jsonStr t : buffer (processEvent p jsonStr t).1 = buffer p.
Proof.
  destruct t; simpl.
  - unfold processContentEvent. destruct (Unmarshal_content jsonStr) as [[c f]|]; [|done].
    destruct (decide (f <> "")); [done|]. by destruct (decide (lastContent p = Some c)).
  - unfold processToolStartEvent.
    set (p1 := match currentToolCall p with Some _ => finalizeToolCall p | None => p end).
    assert (Hp1 : buffer p1 = buffer p).
    { subst p1. destruct (currentToolCall p); [apply finalizeToolCall_buffer | done]. }
    destruct (Unmarshal_toolStart jsonStr) as [[[[n i] v] b]|]; [|done].
    destruct b; simpl; [|done]. by rewrite finalizeToolCall_buffer.
  - unfold processToolInputEvent. destruct (currentToolCall p); [|done].
    by destruct (Unmarshal_toolInput jsonStr).
  - unfold processToolStopEvent. destruct (Unmarshal_toolStop jsonStr) as [b|]; [|done].
    simpl. destruct (currentToolCall p); [|done].
    destruct b; [apply finalizeToolCall_buffer | done].
  - unfold processUsageEvent. by destruct (Unmarshal_usage jsonStr).
  - unfold processContextUsageEvent. by destruct (Unmarshal_contextUsage jsonStr).
Qed.

Lemma feed_loop_valid fuel p events :
  collected_valid p -> collected_valid (feed_loop fuel p events).1.
Proof.
  revert p events. induction fuel as [|fuel IH]; intros p events Hp; simpl; [done|].
  destruct (earliest_pattern (buffer p)) as [[pos t]|]; [|done].
  destruct (FindMatchingBrace (buffer p) pos) as [jsonEnd|]; [|done].
  match goal with |- context [processEvent ?q ?j ?t] =>
    pose proof (processEvent_valid q j t Hp) as Hq; destruct (processEvent q j t) as [q' o]
  end.
  simpl in Hq. destruct o as [[e|]|]; by apply IH.
Qed.

Lemma Feed_valid p chunk : collected_valid p -> collected_valid (Feed p chunk).1.
Proof. intros Hp. unfold Feed. by apply feed_loop_valid. Qed.

Lemma feed_all_valid chunks : collected_valid (feed_all chunks).
Proof.
  unfold feed_all.
  assert (G : forall p, collected_valid p ->
            collected_valid (foldl (fun p chunk => (Feed p chunk).1) p chunks)).
  { induction chunks as [|c cs IH]; intros p Hp; simpl; [done|]. apply IH. by apply Feed_valid. }
  apply G. constructor.
Qed.

Lemma GetToolCalls_valid p tc :
  collected_valid p -> tc ∈ (GetToolCalls p).2 -> parses_as_JSON (Arguments tc).
Proof.
  intros Hp Hin. unfold GetToolCalls in Hin. simpl in Hin.
  apply DeduplicateToolCalls_subseteq in Hin.
  assert (Hq : collected_valid
            (match currentToolCall p with Some _ => finalizeToolCall p | None => p end)).
  { destruct (currentToolCall p); [by apply finalizeToolCall_valid | done]. }
  eapply Forall_forall in Hq; eauto.
Qed.

(** The scan of FindMatchingBrace returns an index inside the text, at or
    after the start. *)
Lemma brace_walk_bounds s i bc ins esc j :
  brace_walk s i bc ins esc = Some j -> i <= j < i + String.length s.
Proof.
  revert i bc ins esc. induction s as [|c s IH]; intros i bc ins esc; simpl; [done|].
  repeat match goal with
         | |- context [if ?b then _ else _] => destruct b
         end; intros Hj; try (apply IH in Hj; lia).
  injection Hj as <-. lia.
Qed.

Lemma string_drop_length n s : String.length (string_drop n s) = String.length s - n.
Proof.
  revert s. induction n as [|n IH]; intros [|c s]; simpl; auto.
Qed.

Lemma FindMatchingBrace_bounds text startPos j :
  FindMatchingBrace text startPos = Some j -> startPos <= j < String.length text.
Proof.
  unfold FindMatchingBrace. destruct (String.get startPos text) eqn:Hg; [|done].
  destruct (Ascii.eqb a "{"); [|done]. intros Hj%brace_walk_bounds.
  rewrite string_drop_length in Hj.
  assert (startPos < String.length text).
  { clear Hj. revert startPos Hg. induction text as [|c t IH]; intros [|n] Hg; simpl in *;
      try done; try lia. apply IH in Hg. lia. }
  lia.
Qed.

(** The loop of Feed stops by itself: fuel beyond the buffer length is
    never used. *)
Lemma feed_loop_fuel fuel fuel' p events :
  String.length (buffer p) < fuel -> String.length (buffer p) < fuel' ->
  feed_loop fuel p events = feed_loop fuel' p events.
Proof.
  revert fuel' p events. induction fuel as [|fuel IH]; intros fuel' p events Hf Hf'; [lia|].
  destruct fuel' as [|fuel']; [lia|]. simpl.
  destruct (earliest_pattern (buffer p)) as [[pos t]|]; [|done].
  destruct (FindMatchingBrace (buffer p) pos) as [jsonEnd|] eqn:Hb; [|done].
  apply FindMatchingBrace_bounds in Hb.
  match goal with |- context [processEvent ?q ?j ?t] =>
    pose proof (processEvent_buffer q j t) as Hq; destruct (processEvent q j t) as [q' o]
  end.
  simpl in Hq.
  assert (String.length (buffer q') < String.length (buffer p)).
  { rewrite Hq, string_drop_length. lia. }
  destruct o as [[e|]|]; apply IH; lia.
Qed.

End finalized.

(** C6.  For every sequence of parser feeds, every finalized tool call
    (every element of the list returned by GetToolCalls) has an arguments
    string that parses as JSON; and when the accumulated arguments string is
    empty or does not parse, finalization replaces it by "{}".  encoding/json
    enters through two facts: re-serialising a value that was read gives text
    that parses, and "{}" parses. *)
Theorem GetToolCalls_arguments_parse `{GoRuntime} `{parser.EncodingJSON}
    (chunks : list string) :
  (forall s v, parser.Unmarshal s = Some v -> is_Some (parser.Unmarshal (parser.Marshal v))) ->
  is_Some (parser.Unmarshal "{}") ->
  (forall tc, tc ∈ (parser.GetToolCalls (parser.feed_all chunks)).2 ->
     is_Some (parser.Unmarshal (parser.Arguments tc))) /\
  (forall p tc, parser.currentToolCall p = Some tc ->
     parser.Arguments tc = "" \/ parser.Unmarshal (parser.Arguments tc) = None ->
     exists id, parser.toolCalls (parser.finalizeToolCall p)
                = parser.toolCalls p
                  ++ [parser.mkToolCall id (parser.Type_ tc) (parser.Name tc) "{}"]).
Proof.
  intros HM HE. split.
  - intros tc Hin. eapply GetToolCalls_valid; eauto. by apply feed_all_valid.
  - intros p tc. apply finalizeToolCall_replaces.
Qed.

(** The reference reader satisfies both facts. *)
Lemma reference_json_Marshal_parses (s v : string) :
  @parser.Unmarshal reference_json s = Some v ->
  is_Some (@parser.Unmarshal reference_json (@parser.Marshal reference_json v)).
Proof.
  simpl. destruct (refjson.read s) eqn:E; [|done]. intros [= <-]. rewrite E. eauto.
Qed.

(** The tool-call scenario: the stream
    {"name":"get_weather","toolUseId":"t1"}{"input":"{\"city\":\"Paris\"}"}{"stop":true}
    yields exactly one call, t1, with arguments {"city":"Paris"}. *)
Example GetToolCalls_weather :
  (@parser.GetToolCalls canonical_runtime reference_json
     (@parser.feed_all canonical_runtime reference_json [weather_stream])).2
  = [parser.mkToolCall "t1" "function" "get_weather" paris_arguments].
Proof. vm_compute. reflexivity. Qed.

Lemma GetToolCalls_arguments_parse_witness :
  is_Some (@parser.Unmarshal reference_json paris_arguments).
Proof.
  destruct (@GetToolCalls_arguments_parse canonical_runtime reference_json [weather_stream]
              reference_json_Marshal_parses) as [Hw _].
  { vm_compute. eauto. }
  apply (Hw (parser.mkToolCall "t1" "function" "get_weather" paris_arguments)).
  rewrite GetToolCalls_weather. apply list_elem_of_here.
Defined.

(** * Strings *)
Section string_facts.

#[local] Arguments String.append : simpl nomatch.

Lemma string_app_nil_r (s : string) : s +:+ "" = s.
Proof. induction s as [|c s IH]; simpl; [done | by rewrite IH]. Qed.

Lemma string_app_assoc (a b c : string) : (a +:+ b) +:+ c = a +:+ (b +:+ c).
Proof. induction a as [|x a IH]; simpl; [done | by rewrite IH]. Qed.

Lemma string_app_length (a b : string) :
  String.length (a +:+ b) = String.length a + String.length b.
Proof. induction a as [|x a IH]; simpl; [done | by rewrite IH]. Qed.

Lemma string_take_app (a b : string) : string_take (String.length a) (a +:+ b) = a.
Proof. induction a as [|x a IH]; simpl; [by destruct b | by rewrite IH]. Qed.

Lemma string_drop_app (a b : string) : string_drop (String.length a) (a +:+ b) = b.
Proof. induction a as [|x a IH]; simpl; [done | by rewrite IH]. Qed.

Lemma string_take_drop (n : nat) (s : string) : string_take n s +:+ string_drop n s = s.
Proof.
  revert s. induction n as [|n IH]; intros [|c s]; simpl; try done. by rewrite IH.
Qed.

Lemma string_app_inv_head (a b c : string) : a +:+ b = a +:+ c -> b = c.
Proof. induction a as [|x a IH]; simpl; [done|]. intros [= E]. auto. Qed.

Lemma string_app_eq_nil (a b : string) : a +:+ b = "" -> a = "" /\ b = "".
Proof. destruct a; simpl; [done | discriminate]. Qed.

Lemma prefix_split (t s : string) :
  String.prefix t s = true -> s = t +:+ string_drop (String.length t) s.
Proof.
  revert s. induction t as [|a t IH]; intros [|b s]; simpl; try done.
  destruct (ascii_dec a b) as [->|]; [|done].
  intros Hp. by rewrite <- IH.
Qed.

Lemma prefix_app (t s : string) : String.prefix t (t +:+ s) = true.
Proof.
  induction t as [|a t IH]; simpl; [by destruct s|].
  destruct (ascii_dec a a); [done | congruence].
Qed.

Lemma string_forallb_app f (a b : string) :
  string_forallb f (a +:+ b) = string_forallb f a && string_forallb f b.
Proof. induction a as [|x a IH]; simpl; [done|]. by rewrite IH, andb_assoc. Qed.

Lemma string_map_app f (a b : string) :
  string_map f (a +:+ b) = string_map f a +:+ string_map f b.
Proof. induction a as [|x a IH]; simpl; [done | by rewrite IH]. Qed.

Lemma string_map_length f (a : string) : String.length (string_map f a) = String.length a.
Proof. induction a as [|x a IH]; simpl; [done | by rewrite IH]. Qed.

Lemma string_forallb_impl (f g : ascii -> bool) (s : string) :
  (forall c, f c = true -> g c = true) ->
  string_forallb f s = true -> string_forallb g s = true.
Proof.
  intros Hfg. induction s as [|c s IH]; simpl; [done|].
  intros [Hc Hs]%andb_true_iff. rewrite (Hfg _ Hc). simpl. auto.
Qed.

End string_facts.

(** * Declarative meaning of regular expressions *)
Module regexp_facts.
Import regexp.

#[local] Arguments String.append : simpl nomatch.

Lemma fold_prefix_split (t s : string) :
  fold_prefix t s = true ->
  exists w, s = w +:+ string_drop (String.length t) s /\
            String.length w = String.length t /\ string_map byte_lower w = t.
Proof.
  revert s. induction t as [|a t IH]; intros s; simpl.
  - intros _. by exists "".
  - destruct s as [|b s]; [done|]. intros [Ha Hs]%andb_true_iff.
    apply Ascii.eqb_eq in Ha. destruct (IH _ Hs) as (w & E & L & Hm).
    exists (String b w). simpl. by rewrite <- E, L, Hm, Ha.
Qed.

Lemma run_repeat_sound cls min max pos s caps k res :
  run_repeat cls min max pos s caps k = Some res ->
  exists w rest, s = w +:+ rest /\ string_forallb cls w = true /\
    min <= String.length w /\ (forall m, max = Some m -> String.length w <= m) /\
    k (pos + String.length w) rest caps = Some res.
Proof.
  assert (Hstop : forall min max pos s,
    (if min =? 0 then k pos s caps else None) = Some res ->
    exists w rest, s = w +:+ rest /\ string_forallb cls w = true /\
      min <= String.length w /\ (forall m, max = Some m -> String.length w <= m) /\
      k (pos + String.length w) rest caps = Some res).
  { intros mn mx p t. destruct (Nat.eqb_spec mn 0) as [->|]; [|done]. intros Hk.
    exists "", t. simpl. rewrite Nat.add_0_r. repeat split; auto; lia. }
  revert min max pos. induction s as [|c s IH]; intros min max pos; simpl.
  - apply Hstop.
  - destruct (cls c && match max with Some 0 => false | _ => true end) eqn:Hc.
    + destruct (run_repeat cls (pred min) (pred <$> max) (S pos) s caps k) eqn:Hr.
      * intros [= <-]. apply IH in Hr as (w & rest & -> & Hw & Hmin & Hmax & Hk).
        apply andb_true_iff in Hc as [Hc Hm].
        exists (String c w), rest. simpl. rewrite Hc, Hw. repeat split; auto.
        -- lia.
        -- intros m ->. simpl in Hmax. destruct m as [|m]; [done|].
           specialize (Hmax m eq_refl). lia.
        -- by rewrite <- Nat.add_succ_comm.
      * apply Hstop.
    + apply Hstop.
Qed.

(** The matcher only reports matches of the declarative meaning. *)
Lemma run_sound r : forall pos s caps k res,
  run r pos s caps k = Some res ->
  exists w rest caps', s = w +:+ rest /\ Matches r pos w rest caps caps' /\
    k (pos + String.length w) rest caps' = Some res.
Proof.
  induction r as [|t|t|cls|r1 IH1 r2 IH2|r1 IH1 r2 IH2|r IH|cls min max|n r IH| |];
    intros pos s caps k res; simpl.
  - intros Hk. exists "", s, caps. simpl. rewrite Nat.add_0_r. repeat split; auto. constructor.
  - destruct (String.prefix t s) eqn:Hp; [|done]. intros Hk.
    exists t, (string_drop (String.length t) s), caps.
    split; [by apply prefix_split|]. split; [constructor | done].
  - destruct (fold_prefix t s) eqn:Hp; [|done]. intros Hk.
    apply fold_prefix_split in Hp as (w & E & L & Hm).
    exists w, (string_drop (String.length t) s), caps.
    split; [done|]. split; [by constructor | by rewrite L].
  - destruct s as [|c s]; [done|]. destruct (cls c) eqn:Hc; [|done]. intros Hk.
    exists (String c ""), s, caps. simpl. split; [done|]. split; [by constructor|].
    by rewrite Nat.add_1_r.
  - intros Hr. apply IH1 in Hr as (w1 & rest1 & c1 & -> & HM1 & Hr).
    apply IH2 in Hr as (w2 & rest & c2 & -> & HM2 & Hk).
    exists (w1 +:+ w2), rest, c2. split; [by rewrite string_app_assoc|].
    split; [by econstructor|]. by rewrite string_app_length, Nat.add_assoc.
  - destruct (run r1 pos s caps k) eqn:Hr.
    + intros [= <-]. apply IH1 in Hr as (w & rest & c' & -> & HM & Hk).
      exists w, rest, c'. split; [done|]. split; [by apply M_AltL | done].
    + intros Hr2. apply IH2 in Hr2 as (w & rest & c' & -> & HM & Hk).
      exists w, rest, c'. split; [done|]. split; [by apply M_AltR | done].
  - destruct (run r pos s caps k) eqn:Hr.
    + intros [= <-]. apply IH in Hr as (w & rest & c' & -> & HM & Hk).
      exists w, rest, c'. split; [done|]. split; [by apply M_OptSome | done].
    + intros Hk. exists "", s, caps. simpl. rewrite Nat.add_0_r.
      split; [done|]. split; [apply M_OptNone | done].
  - intros Hr. apply run_repeat_sound in Hr as (w & rest & -> & Hw & Hmin & Hmax & Hk).
    exists w, rest, caps. split; [done|]. split; [by constructor | done].
  - intros Hr. apply IH in Hr as (w & rest & c' & -> & HM & Hk).
    exists w, rest, (<[n := (pos, w)]> c'). split; [done|]. split; [by constructor|].
    replace (pos + String.length w - pos) with (String.length w) in Hk by lia.
    by rewrite string_take_app in Hk.
  - destruct (Nat.eqb_spec pos 0) as [->|]; [|done]. intros Hk.
    exists "", s, caps. simpl. split; [done|]. split; [constructor | done].
  - destruct s; [|done]. intros Hk. exists "", "", caps. simpl. rewrite Nat.add_0_r.
    split; [done|]. split; [constructor | done].
Qed.

Lemma match_at_sound r pos s caps :
  match_at r pos s = Some caps ->
  exists w rest c', s = w +:+ rest /\ Matches r pos w rest ∅ c' /\
    caps = <[0 := (pos, w)]> c'.
Proof.
  unfold match_at. intros Hr. apply run_sound in Hr as (w & rest & c' & -> & HM & [= <-]).
  inversion HM; subst. eauto 10.
Qed.

Lemma search_sound r pos s caps :
  search r pos s = Some caps ->
  exists pre w rest c', s = pre +:+ (w +:+ rest) /\
    Matches r (pos + String.length pre) w rest ∅ c' /\
    caps = <[0 := (pos + String.length pre, w)]> c'.
Proof.
  revert pos. induction s as [|c s IH]; intros pos; simpl.
  - destruct (match_at r pos "") eqn:Hm; [|done]. intros [= <-].
    apply match_at_sound in Hm as (w & rest & c' & E & HM & ->).
    exists "", w, rest, c'. simpl. rewrite Nat.add_0_r. auto.
  - destruct (match_at r pos (String c s)) eqn:Hm.
    + intros [= <-]. apply match_at_sound in Hm as (w & rest & c' & E & HM & ->).
      exists "", w, rest, c'. simpl. rewrite Nat.add_0_r. auto.
    + intros Hs. apply IH in Hs as (pre & w & rest & c' & -> & HM & ->).
      exists (String c pre), w, rest, c'. simpl. rewrite <- Nat.add_succ_comm. auto.
Qed.

(** A search for an expression that begins with ^ matches at offset 0. *)
Lemma search_anchored r s caps :
  search (Seq Bol r) 0 s = Some caps ->
  exists w rest c', s = w +:+ rest /\ Matches r 0 w rest ∅ c' /\
    caps = <[0 := (0, w)]> c'.
Proof.
  intros Hs. apply search_sound in Hs as (pre & w & rest & c' & -> & HM & ->).
  inversion HM as [| | | |? ? ? w1 w2 ? ? c1 ? HB HR| | | | | | | |]; subst.
  inversion HB; subst. simpl in *.
  assert (pre = "") as -> by (destruct pre; [done | simpl in *; lia]).
  simpl in *. eauto 10.
Qed.

(** ** Bounds on what an expression matches *)

#[local] Arguments class_lo : simpl never.
#[local] Arguments class_hi : simpl never.
#[local] Arguments all_bytes : simpl never.

Lemma weight_app f (a b : string) : (weight f (a +:+ b) = weight f a + weight f b)%Z.
Proof. induction a as [|x a IH]; simpl; [done | rewrite IH; lia]. Qed.

Lemma In_all_bytes (c : ascii) : In c all_bytes.
Proof.
  unfold all_bytes. rewrite <- (ascii_nat_embedding c). apply in_map, in_seq.
  pose proof (nat_ascii_bounded c). lia.
Qed.

Lemma fold_min_le (l : list Z) (x : Z) : In x l -> (fold_right Z.min 0 l <= x)%Z.
Proof. induction l as [|y l IH]; simpl; [done|]. intros [->|Hx]; [lia|]. specialize (IH Hx). lia. Qed.

Lemma fold_max_ge (l : list Z) (x : Z) : In x l -> (x <= fold_right Z.max 0 l)%Z.
Proof. induction l as [|y l IH]; simpl; [done|]. intros [->|Hx]; [lia|]. specialize (IH Hx). lia. Qed.

Lemma fold_min_nonpos (l : list Z) : (fold_right Z.min 0 l <= 0)%Z.
Proof. induction l; simpl; lia. Qed.

Lemma fold_max_nonneg (l : list Z) : (0 <= fold_right Z.max 0 l)%Z.
Proof. induction l; simpl; lia. Qed.

Lemma class_lo_nonpos f cls : (class_lo f cls <= 0)%Z.
Proof. apply fold_min_nonpos. Qed.

Lemma class_hi_nonneg f cls : (0 <= class_hi f cls)%Z.
Proof. apply fold_max_nonneg. Qed.

Lemma class_bounds f cls c :
  cls c = true -> (class_lo f cls <= f c <= class_hi f cls)%Z.
Proof.
  intros Hc. assert (In (f c) (List.map f (List.filter cls all_bytes))) as Hin.
  { apply in_map, filter_In. split; [apply In_all_bytes | done]. }
  split; [by apply fold_min_le | by apply fold_max_ge].
Qed.

Lemma weight_class f cls (w : string) :
  string_forallb cls w = true ->
  (Z.of_nat (String.length w) * class_lo f cls <= weight f w
   <= Z.of_nat (String.length w) * class_hi f cls)%Z.
Proof.
  induction w as [|c w IH]; simpl; [lia|].
  intros [Hc Hw]%andb_true_iff. specialize (IH Hw).
  pose proof (class_bounds f cls c Hc). lia.
Qed.

Definition above (lo : option Z) (z : Z) : Prop :=
  match lo with Some l => (l <= z)%Z | None => True end.
Definition below (z : Z) (hi : option Z) : Prop :=
  match hi with Some h => (z <= h)%Z | None => True end.

Lemma Matches_weight f r pos w rest c c' :
  Matches r pos w rest c c' ->
  above (lower f r) (weight f w) /\ below (weight f w) (upper f r).
Proof.
  induction 1 as [| | |cls ch ? ? ? Hc|? ? ? ? ? ? ? ? ? _ [IH1 IH1'] _ [IH2 IH2']
                  |? ? ? ? ? ? ? _ [IH IH']|? ? ? ? ? ? ? _ [IH IH']|? ? ? ? ? ? _ [IH IH']|
                  |cls min max ? w ? ? Hw Hmin Hmax|? ? ? ? ? ? ? _ [IH IH']| |];
    simpl; try (split; lia).
  - pose proof (class_bounds f cls ch Hc). simpl. lia.
  - rewrite weight_app. unfold above, below, lift2 in *.
    split; repeat case_match; simplify_eq; try done; lia.
  - unfold above, below, lift2 in *. split; repeat case_match; simplify_eq; try done; lia.
  - unfold above, below, lift2 in *. split; repeat case_match; simplify_eq; try done; lia.
  - unfold above, below, lift2 in *. split; repeat case_match; simplify_eq; try done; lia.
  - unfold above, below, lift2. split; repeat case_match; simplify_eq; try done; lia.
  - pose proof (weight_class f cls w Hw) as [Hlo Hhi].
    pose proof (class_lo_nonpos f cls) as Hnp. pose proof (class_hi_nonneg f cls) as Hnn.
    split.
    + destruct (Z.eqb_spec (class_lo f cls) 0) as [E|_]; simpl; [rewrite E in Hlo; lia|].
      destruct max as [m|]; simpl; [|done]. specialize (Hmax m eq_refl). nia.
    + destruct (Z.eqb_spec (class_hi f cls) 0) as [E|_]; simpl; [rewrite E in Hhi; lia|].
      destruct max as [m|]; simpl; [|done]. specialize (Hmax m eq_refl). nia.
  - done.
Qed.

Lemma Matches_weight_ge f r lo pos w rest c c' :
  lower f r = Some lo -> Matches r pos w rest c c' -> (lo <= weight f w)%Z.
Proof. intros E HM. apply (Matches_weight f) in HM as [HM _]. by rewrite E in HM. Qed.

Lemma Matches_weight_le f r hi pos w rest c c' :
  upper f r = Some hi -> Matches r pos w rest c c' -> (weight f w <= hi)%Z.
Proof. intros E HM. apply (Matches_weight f) in HM as [_ HM]. by rewrite E in HM. Qed.

(** An expression without groups leaves the submatches alone. *)
Lemma Matches_group_free r pos w rest c c' :
  Matches r pos w rest c c' -> group_free r = true -> c' = c.
Proof.
  induction 1; simpl; try done.
  - intros [H1 H2]%andb_true_iff. rewrite IHMatches2, IHMatches1; done.
  - intros [H1 H2]%andb_true_iff. auto.
  - intros [H1 H2]%andb_true_iff. auto.
Qed.

(** Without groups and anchors a match can be moved. *)
Lemma Matches_context_free r pos w rest c c' pos' rest' d :
  Matches r pos w rest c c' -> context_free r = true -> Matches r pos' w rest' d d.
Proof.
  intros HM. revert pos' rest' d.
  induction HM; simpl; intros pos' rest' d Hcf; try done; try (by constructor).
  - apply andb_true_iff in Hcf as [H1 H2]. econstructor; eauto.
  - apply andb_true_iff in Hcf as [H1 H2]. apply M_AltL; eauto.
  - apply andb_true_iff in Hcf as [H1 H2]. apply M_AltR; eauto.
  - apply M_OptSome; eauto.
Qed.

(** ** The matcher finds a match whenever there is one *)

Lemma fold_prefix_app (w rest : string) :
  fold_prefix (string_map byte_lower w) (w +:+ rest) = true.
Proof. induction w as [|c w IH]; simpl; [done|]. by rewrite Ascii.eqb_refl. Qed.

Lemma run_repeat_complete cls (k : Cont) caps rest (w : string) : forall min max pos,
  string_forallb cls w = true -> min <= String.length w ->
  (forall m, max = Some m -> String.length w <= m) ->
  is_Some (k (pos + String.length w) rest caps) ->
  is_Some (run_repeat cls min max pos (w +:+ rest) caps k).
Proof.
  induction w as [|c w IH]; intros min max pos Hw Hmin Hmax Hk; simpl in *.
  - rewrite Nat.add_0_r in Hk. assert (min = 0) as -> by lia.
    destruct rest as [|c rest]; simpl; [done|]. by repeat case_match.
  - apply andb_true_iff in Hw as [Hc Hw]. rewrite Hc. simpl.
    assert ((match max with Some 0 => false | _ => true end) = true) as ->.
    { destruct max as [[|m]|]; try done. specialize (Hmax 0 eq_refl). lia. }
    destruct (run_repeat cls (pred min) (pred <$> max) (S pos) (w +:+ rest) caps k) eqn:Hr; [done|].
    exfalso. assert (is_Some (@None Captures)) as [? [=]]. rewrite <- Hr. apply IH; auto.
    + lia.
    + intros m Hm. destruct max as [m'|]; [|done]. injection Hm as <-.
      specialize (Hmax m' eq_refl). lia.
    + by rewrite Nat.add_succ_comm.
Qed.

Lemma run_complete r pos w rest c c' :
  Matches r pos w rest c c' ->
  forall k : Cont, is_Some (k (pos + String.length w) rest c') ->
  is_Some (run r pos (w +:+ rest) c k).
Proof.
  induction 1 as [| |? ? w| | | | | | | | | |]; intros k Hk; simpl in *.
  - by rewrite Nat.add_0_r in Hk.
  - by rewrite prefix_app, string_drop_app.
  - subst. rewrite fold_prefix_app, string_map_length, string_drop_app. done.
  - rewrite H. by rewrite Nat.add_1_r in Hk.
  - rewrite string_app_assoc. apply IHMatches1. apply IHMatches2.
    by rewrite string_app_length, Nat.add_assoc in Hk.
  - apply IHMatches in Hk. by destruct (run r1 pos (w +:+ rest) c k).
  - destruct (run r1 pos (w +:+ rest) c k) eqn:Hr; [done|]. auto.
  - apply IHMatches in Hk. by destruct (run r pos (w +:+ rest) c k).
  - destruct (run r pos rest c k) eqn:Hr; [done|]. by rewrite Nat.add_0_r in Hk.
  - by apply run_repeat_complete.
  - apply IHMatches.
    replace (pos + String.length w - pos) with (String.length w) by lia.
    by rewrite string_take_app.
  - done.
  - by rewrite Nat.add_0_r in Hk.
Qed.

Lemma search_complete r s c' :
  Matches r 0 s "" ∅ c' -> is_Some (search r 0 s).
Proof.
  intros HM. destruct s; simpl.
  - destruct (match_at r 0 "") eqn:E; [done|]. rewrite <- E.
    apply (run_complete (Group 0 r) 0 "" "" ∅ _ (M_Group 0 _ _ _ _ _ _ HM)). done.
  - destruct (match_at r 0 (String a s)) eqn:E; [done|]. exfalso.
    assert (is_Some (@None Captures)) as [? [=]]. rewrite <- E.
    pose proof (run_complete (Group 0 r) 0 _ "" ∅ _ (M_Group 0 _ _ _ _ _ _ HM)
                  (fun _ _ caps => Some caps)) as Hc.
    rewrite string_app_nil_r in Hc. apply Hc. done.
Qed.

Lemma Matches_final_eol r pos w rest c c' :
  Matches r pos w rest c c' -> final_eol r = true -> rest = "".
Proof.
  induction 1 as [| | | |r1 r2 ? w1 w2 ? ? ? ? H1 _ H2 IH2| | | | | | | |]; simpl; try done.
  destruct r1; auto. destruct r2; auto. intros _.
  inversion H1 as [| | | | | | | | | | | |? ? E]. inversion H2; subst.
  by destruct rest.
Qed.

(** Expressions of the form ^...$ match the whole subject or nothing. *)
Lemma anchored_sound r s caps :
  final_eol r = true -> search (Seq Bol r) 0 s = Some caps ->
  exists c', Matches r 0 s "" ∅ c' /\ caps = <[0 := (0, s)]> c'.
Proof.
  intros Hr Hs. apply search_anchored in Hs as (w & rest & c' & -> & HM & ->).
  pose proof (Matches_final_eol _ _ _ _ _ _ HM Hr) as ->.
  rewrite string_app_nil_r. eauto.
Qed.

Lemma anchored_complete r s c' :
  Matches r 0 s "" ∅ c' -> is_Some (search (Seq Bol r) 0 s).
Proof.
  intros HM. apply (search_complete _ _ c').
  apply (M_Seq Bol r 0 "" s "" ∅ ∅ c'); [constructor | done].
Qed.

Lemma anchored_no_match r s :
  final_eol r = true ->
  (forall c', ~ Matches r 0 s "" ∅ c') -> FindStringSubmatch (Seq Bol r) s = None.
Proof.
  intros Hr Hno. unfold FindStringSubmatch.
  destruct (search (Seq Bol r) 0 s) eqn:E; [|done].
  apply anchored_sound in E as (c' & HM & _); [|done]. by destruct (Hno c').
Qed.

(** Inversion along the spine of a concatenation. *)
Ltac spine :=
  repeat match goal with
  | H : Matches (Seq _ _) _ _ _ _ _ |- _ => inversion H; subst; clear H
  | H : Matches (Group _ _) _ _ _ _ _ |- _ => inversion H; subst; clear H
  | H : Matches (Lit _) _ _ _ _ _ |- _ => inversion H; subst; clear H
  | H : Matches Empty _ _ _ _ _ |- _ => inversion H; subst; clear H
  | H : Matches Eol _ _ _ _ _ |- _ => inversion H; subst; clear H
  | H : Matches (Repeat _ _ _) _ _ _ _ _ |- _ => inversion H; subst; clear H
  end.

End regexp_facts.

Module resolver_facts.
Import regexp regexp_facts resolver.

#[local] Arguments String.append : simpl nomatch.
#[local] Arguments class_lo : simpl never.
#[local] Arguments class_hi : simpl never.

(** ** Shapes of model names *)

Definition is_family (w : string) : Prop := w = "haiku" \/ w = "sonnet" \/ w = "opus".

(** A non-empty run of decimal digits. *)
Definition digits (d : string) : Prop :=
  string_forallb digit d = true /\ 1 <= String.length d.

(** {major}.{minor} *)
Definition version (v : string) : Prop :=
  exists d1 d2, digits d1 /\ digits d2 /\ v = d1 +:+ "." +:+ d2.

(** An optional leading {major}.{minor}- and an optional trailing
    -{major}.{minor}. *)
Definition leading (pre : string) : Prop :=
  pre = "" \/ exists v, version v /\ pre = v +:+ "-".
Definition trailing (post : string) : Prop :=
  post = "" \/ exists v, version v /\ post = "-" +:+ v.

(** [Normalizes t o]: the lower-cased name [t] has one of the five shapes,
    and [o] is what the matching case builds from it. *)
Inductive Normalizes : string -> string -> Prop :=
| N_standard fam d1 d2 suf :
    is_family fam -> digits d1 -> digits d2 ->
    Normalizes ("claude-" +:+ fam +:+ "-" +:+ d1 +:+ "-" +:+ d2 +:+ suf)
               ("claude-" +:+ fam +:+ "-" +:+ d1 +:+ "." +:+ d2)
| N_noMinor fam d1 suf :
    is_family fam -> digits d1 ->
    Normalizes ("claude-" +:+ fam +:+ "-" +:+ d1 +:+ suf)
               ("claude-" +:+ fam +:+ "-" +:+ d1)
| N_legacy d1 d2 fam suf :
    is_family fam -> digits d1 -> digits d2 ->
    Normalizes ("claude-" +:+ d1 +:+ "-" +:+ d2 +:+ "-" +:+ fam +:+ suf)
               ("claude-" +:+ d1 +:+ "." +:+ d2 +:+ "-" +:+ fam)
| N_dotWithDate pre fam post d8 :
    is_family fam -> leading pre -> trailing post ->
    digits d8 -> String.length d8 = 8 ->
    Normalizes ("claude-" +:+ pre +:+ fam +:+ post +:+ "-" +:+ d8)
               ("claude-" +:+ pre +:+ fam +:+ post)
| N_inverted d1 d2 fam rest :
    is_family fam -> digits d1 -> digits d2 ->
    Normalizes ("claude-" +:+ d1 +:+ "." +:+ d2 +:+ "-" +:+ fam +:+ "-" +:+ rest)
               ("claude-" +:+ fam +:+ "-" +:+ d1 +:+ "." +:+ d2).

(** ^claude-\d+\.\d+-(?:haiku|sonnet|opus)-\d+\.\d+-\d{8}$: a name with a
    version before and after the family, and a date. *)
Definition versionedTwiceWithDate : Regexp :=
  cat [Bol;
       Lit "claude-";
       Repeat digit 1 None; Lit "."; Repeat digit 1 None; Lit "-";
       family;
       Lit "-"; Repeat digit 1 None; Lit "."; Repeat digit 1 None;
       Lit "-"; Repeat digit 8 (Some 8);
       Eol].

Lemma Matches_family pos w rest c c' :
  Matches family pos w rest c c' -> is_family w /\ c' = c.
Proof.
  unfold family, is_family. intros HM.
  repeat match goal with
  | H : Matches (Alt _ _) _ _ _ _ _ |- _ => inversion H; subst; clear H
  | H : Matches (Lit _) _ _ _ _ _ |- _ => inversion H; subst; clear H
  end; auto.
Qed.

Lemma family_Matches pos w rest c :
  is_family w -> Matches family pos w rest c c.
Proof.
  intros [->|[->| ->]]; unfold family.
  - apply M_AltL. constructor.
  - apply M_AltR, M_AltL. constructor.
  - apply M_AltR, M_AltR. constructor.
Qed.

Lemma digits_Matches d pos rest c :
  digits d -> Matches (Repeat digit 1 None) pos d rest c c.
Proof. intros [Hd Hl]. by constructor. Qed.

Ltac family_spine :=
  spine;
  repeat match goal with
  | H : Matches family _ _ _ _ _ |- _ => apply Matches_family in H as [? ->]
  end.

Ltac name_shape := rewrite ?string_app_nil_r, ?string_app_assoc; simpl.

Ltac submatches :=
  unfold submatch;
  repeat (rewrite lookup_insert_eq || (rewrite lookup_insert_ne by lia)); simpl.

(** What the five patterns match, and their submatches. *)
Lemma standardPattern_match t m :
  FindStringSubmatch standardPattern t = Some m ->
  exists fam d1 d2 suf, is_family fam /\ digits d1 /\ digits d2 /\
    t = "claude-" +:+ fam +:+ "-" +:+ d1 +:+ "-" +:+ d2 +:+ suf /\
    m 1 = "claude-" +:+ fam +:+ "-" +:+ d1 /\ m 2 = d2.
Proof.
  unfold FindStringSubmatch. destruct (search standardPattern 0 t) as [caps|] eqn:Hs; [|done].
  intros [= <-]. apply anchored_sound in Hs as (c' & HM & ->); [|done].
  unfold cat in HM. simpl in HM. family_spine.
  apply Matches_group_free in H4 as ->; [|done].
  exists w1, w8, w2, w3. submatches. name_shape. by repeat split.
Qed.

Lemma noMinorPattern_match t m :
  FindStringSubmatch noMinorPattern t = Some m ->
  exists fam d1 suf, is_family fam /\ digits d1 /\
    (suf = "" \/ exists d8, digits d8 /\ suf = "-" +:+ d8) /\
    t = "claude-" +:+ fam +:+ "-" +:+ d1 +:+ suf /\
    m 1 = "claude-" +:+ fam +:+ "-" +:+ d1.
Proof.
  unfold FindStringSubmatch. destruct (search noMinorPattern 0 t) as [caps|] eqn:Hs; [|done].
  intros [= <-]. apply anchored_sound in Hs as (c' & HM & ->); [|done].
  unfold cat in HM. simpl in HM. family_spine.
  pose proof (Matches_group_free _ _ _ _ _ _ H2 eq_refl) as ->.
  exists w1, w6, w0. submatches. name_shape. repeat split; auto.
  inversion H2; subst; [|by left]. spine. right.
  match goal with Hd : string_forallb digit ?d = true, Hl : 8 <= String.length ?d |- _ =>
    exists d; name_shape; repeat split; auto; lia end.
Qed.

Lemma legacyPattern_match t m :
  FindStringSubmatch legacyPattern t = Some m ->
  exists d1 d2 fam suf, is_family fam /\ digits d1 /\ digits d2 /\
    t = "claude-" +:+ d1 +:+ "-" +:+ d2 +:+ "-" +:+ fam +:+ suf /\
    m 1 = "claude" /\ m 2 = d1 /\ m 3 = d2 /\ m 4 = fam.
Proof.
  unfold FindStringSubmatch. destruct (search legacyPattern 0 t) as [caps|] eqn:Hs; [|done].
  intros [= <-]. apply anchored_sound in Hs as (c' & HM & ->); [|done].
  unfold cat in HM. simpl in HM. family_spine.
  apply Matches_group_free in H8 as ->; [|done].
  exists w2, w4, w6, w7. submatches. name_shape. by repeat split.
Qed.

Lemma Matches_leading_version pos w rest c c' :
  Matches (Opt (cat [Repeat digit 1 None; Lit "."; Repeat digit 1 None; Lit "-"]))
          pos w rest c c' ->
  c' = c /\ leading w.
Proof.
  intros HM. pose proof (Matches_group_free _ _ _ _ _ _ HM eq_refl) as ->.
  split; [done|]. unfold cat in HM. simpl in HM. unfold leading.
  inversion HM; subst; [|by left]. spine. right.
  match goal with |- exists v, _ /\ ?a +:+ "." +:+ ?b +:+ _ = _ =>
    exists (a +:+ "." +:+ b); split; [exists a, b; by repeat split | by name_shape] end.
Qed.

Lemma Matches_trailing_version pos w rest c c' :
  Matches (Opt (cat [Lit "-"; Repeat digit 1 None; Lit "."; Repeat digit 1 None]))
          pos w rest c c' ->
  c' = c /\ trailing w.
Proof.
  intros HM. pose proof (Matches_group_free _ _ _ _ _ _ HM eq_refl) as ->.
  split; [done|]. unfold cat in HM. simpl in HM. unfold trailing.
  inversion HM; subst; [|by left]. spine. right.
  match goal with |- exists v, _ /\ _ +:+ ?a +:+ "." +:+ ?b +:+ _ = _ =>
    exists (a +:+ "." +:+ b); split; [exists a, b; by repeat split | by name_shape] end.
Qed.

Lemma dotWithDatePattern_match t m :
  FindStringSubmatch dotWithDatePattern t = Some m ->
  exists pre fam post d8, is_family fam /\ leading pre /\ trailing post /\
    digits d8 /\ String.length d8 = 8 /\
    t = "claude-" +:+ pre +:+ fam +:+ post +:+ "-" +:+ d8 /\
    m 1 = "claude-" +:+ pre +:+ fam +:+ post.
Proof.
  unfold FindStringSubmatch. destruct (search dotWithDatePattern 0 t) as [caps|] eqn:Hs; [|done].
  intros [= <-]. apply anchored_sound in Hs as (c' & HM & ->); [|done].
  unfold cat in HM. simpl in HM. family_spine.
  apply Matches_leading_version in H5 as [-> Hpre].
  apply Matches_trailing_version in H7 as [-> Hpost].
  exists w1, w6, w7, w2. submatches. name_shape. repeat split; auto; try lia.
  specialize (H13 8 eq_refl). lia.
Qed.

Lemma invertedPattern_match t m :
  FindStringSubmatch invertedPattern t = Some m ->
  exists d1 d2 fam rest, is_family fam /\ digits d1 /\ digits d2 /\
    t = "claude-" +:+ d1 +:+ "." +:+ d2 +:+ "-" +:+ fam +:+ "-" +:+ rest /\
    m 1 = d1 /\ m 2 = d2 /\ m 3 = fam.
Proof.
  unfold FindStringSubmatch. destruct (search invertedPattern 0 t) as [caps|] eqn:Hs; [|done].
  intros [= <-]. apply anchored_sound in Hs as (c' & HM & ->); [|done].
  unfold cat in HM. simpl in HM. family_spine.
  exists w0, w3, w5, w7. submatches. name_shape. by repeat split.
Qed.

(** ** Counting dashes and dots *)

Definition dash (c : ascii) : Z := if Ascii.eqb c "-" then 1 else 0.
Definition dot (c : ascii) : Z := if Ascii.eqb c "." then 1 else 0.
Definition dash_less_dot (c : ascii) : Z := dash c - dot c.

(** The bytes of a normalized name. *)
Definition plain (c : ascii) : bool :=
  digit c || ((97 <=? nat_of_ascii c) && (nat_of_ascii c <=? 122))
  || Ascii.eqb c "-" || Ascii.eqb c ".".

Ltac each_byte c := destruct c as [[] [] [] [] [] [] [] []]; try done.

Lemma digit_dash c : digit c = true -> dash c = 0%Z.
Proof. each_byte c. Qed.
Lemma digit_dot c : digit c = true -> dot c = 0%Z.
Proof. each_byte c. Qed.
Lemma digit_plain c : digit c = true -> plain c = true.
Proof. each_byte c. Qed.
Lemma plain_ascii c : plain c = true -> byte_is_ascii c = true.
Proof. each_byte c. Qed.
Lemma plain_lower c : plain c = true -> byte_lower c = c.
Proof. each_byte c. Qed.

Lemma weight_zero f cls (w : string) :
  (forall c, cls c = true -> f c = 0%Z) -> string_forallb cls w = true -> weight f w = 0%Z.
Proof.
  intros Hf. induction w as [|c w IH]; simpl; [done|].
  intros [Hc Hw]%andb_true_iff. rewrite (Hf c Hc), IH; done.
Qed.

Lemma weight_dash_less_dot (w : string) :
  weight dash_less_dot w = (weight dash w - weight dot w)%Z.
Proof. induction w as [|c w IH]; simpl; [done|]. unfold dash_less_dot at 1. lia. Qed.

Lemma weight_dot_nonneg (w : string) : (0 <= weight dot w)%Z.
Proof. induction w as [|c w IH]; simpl; [done|]. unfold dot at 1. case_match; lia. Qed.

Lemma digits_dash d : digits d -> weight dash d = 0%Z.
Proof. intros [Hd _]. by apply (weight_zero dash digit), Hd; apply digit_dash. Qed.
Lemma digits_dot d : digits d -> weight dot d = 0%Z.
Proof. intros [Hd _]. by apply (weight_zero dot digit), Hd; apply digit_dot. Qed.
Lemma digits_plain d : digits d -> string_forallb plain d = true.
Proof. intros [Hd _]. eapply string_forallb_impl, Hd. apply digit_plain. Qed.

Lemma family_dash w : is_family w -> weight dash w = 0%Z.
Proof. by intros [->|[->| ->]]. Qed.
Lemma family_dot w : is_family w -> weight dot w = 0%Z.
Proof. by intros [->|[->| ->]]. Qed.
Lemma family_plain w : is_family w -> string_forallb plain w = true.
Proof. by intros [->|[->| ->]]. Qed.

Lemma version_dash v : version v -> weight dash v = 0%Z.
Proof.
  intros (d1 & d2 & H1 & H2 & ->). rewrite !weight_app, (digits_dash d1), (digits_dash d2); done.
Qed.
Lemma version_dot v : version v -> weight dot v = 1%Z.
Proof.
  intros (d1 & d2 & H1 & H2 & ->). rewrite !weight_app, (digits_dot d1), (digits_dot d2); done.
Qed.
Lemma version_plain v : version v -> string_forallb plain v = true.
Proof.
  intros (d1 & d2 & H1 & H2 & ->).
  rewrite !string_forallb_app, (digits_plain d1), (digits_plain d2); done.
Qed.

(** A pattern does not match a name whose count is out of its bounds. *)
Lemma no_match_below f r lo s :
  final_eol r = true -> lower f r = Some lo -> (weight f s < lo)%Z ->
  FindStringSubmatch (Seq Bol r) s = None.
Proof.
  intros Hr Hlo Hs. apply anchored_no_match; [done|]. intros c' HM.
  apply (Matches_weight_ge f _ lo) in HM; [lia | done].
Qed.

Lemma no_match_above f r hi s :
  final_eol r = true -> upper f r = Some hi -> (hi < weight f s)%Z ->
  FindStringSubmatch (Seq Bol r) s = None.
Proof.
  intros Hr Hhi Hs. apply anchored_no_match; [done|]. intros c' HM.
  apply (Matches_weight_le f _ hi) in HM; [lia | done].
Qed.

Section with_runtime.
Context `{GoRuntime}.

Lemma strings_ToLower_plain (o : string) :
  string_forallb plain o = true -> strings_ToLower o = o.
Proof.
  intros Ho. unfold strings_ToLower, isASCII.
  rewrite (string_forallb_impl plain byte_is_ascii o plain_ascii Ho).
  induction o as [|c o IH]; simpl in *; [done|].
  apply andb_true_iff in Ho as [Hc Ho]. by rewrite (plain_lower c Hc), IH.
Qed.

(** Names with at most two dashes, other than those with two dashes and no
    dot, are left as they are. *)
Lemma NormalizeModelName_fixed (o : string) :
  string_forallb plain o = true ->
  (weight dash o <= 2)%Z -> ~ (weight dash o = 2 /\ weight dot o = 0)%Z ->
  NormalizeModelName o = o.
Proof.
  intros Hp Hd Hnd. pose proof (weight_dot_nonneg o) as Hdot.
  unfold NormalizeModelName. destruct (decide (o = "")) as [|_]; [done|].
  rewrite (strings_ToLower_plain o Hp).
  assert (FindStringSubmatch standardPattern o = None) as ->.
  { apply (no_match_below dash _ 3); [done|by vm_compute|lia]. }
  assert (FindStringSubmatch noMinorPattern o = None) as ->.
  { destruct (Z.eq_dec (weight dash o) 2%Z).
    - apply (no_match_above dot _ 0); [done|by vm_compute|lia].
    - apply (no_match_below dash _ 2); [done|by vm_compute|lia]. }
  assert (FindStringSubmatch legacyPattern o = None) as ->.
  { apply (no_match_below dash _ 3); [done|by vm_compute|lia]. }
  assert (FindStringSubmatch dotWithDatePattern o = None) as ->.
  { apply (no_match_below dash_less_dot _ 2);
      [done|by vm_compute|rewrite weight_dash_less_dot; lia]. }
  assert (FindStringSubmatch invertedPattern o = None) as ->.
  { apply (no_match_below dash _ 3); [done|by vm_compute|lia]. }
  done.
Qed.

(** claude-{family}-{major} is left as it is: the second pattern matches
    it as a whole. *)
Lemma NormalizeModelName_fixed_major (fam d1 : string) :
  is_family fam -> digits d1 ->
  NormalizeModelName ("claude-" +:+ fam +:+ "-" +:+ d1) = "claude-" +:+ fam +:+ "-" +:+ d1.
Proof.
  intros Hf Hd. set (o := "claude-" +:+ fam +:+ "-" +:+ d1).
  assert (weight dash o = 2%Z) as Hdash.
  { unfold o. rewrite !weight_app, (family_dash fam), (digits_dash d1); done. }
  assert (string_forallb plain o = true) as Hp.
  { unfold o. rewrite !string_forallb_app, (family_plain fam), (digits_plain d1); done. }
  unfold NormalizeModelName. destruct (decide (o = "")) as [|_]; [done|].
  rewrite (strings_ToLower_plain o Hp).
  assert (FindStringSubmatch standardPattern o = None) as ->.
  { apply (no_match_below dash _ 3); [done|by vm_compute|lia]. }
  destruct (FindStringSubmatch noMinorPattern o) as [m|] eqn:Hm.
  - apply noMinorPattern_match in Hm
      as (fam' & d1' & suf & Hf' & Hd' & Hsuf & Ho & ->).
    destruct Hsuf as [->|(d8 & Hd8 & ->)]; [by rewrite Ho, string_app_nil_r|].
    exfalso. rewrite Ho in Hdash. revert Hdash.
    rewrite !weight_app, (family_dash fam'), (digits_dash d1'), (digits_dash d8); done.
  - exfalso. unfold FindStringSubmatch in Hm.
    assert (is_Some (search noMinorPattern 0 o)) as [caps Hc]; [|by rewrite Hc in Hm].
    eapply anchored_complete.
    assert (o = ("claude-" +:+ fam +:+ "-" +:+ d1 +:+ "") +:+ "" +:+ "" +:+ "") as ->.
    { unfold o. by name_shape. }
    eapply M_Seq; [apply M_Group|].
    + eapply M_Seq; [apply M_Lit|]. eapply M_Seq; [by apply family_Matches|].
      eapply M_Seq; [apply M_Lit|]. eapply M_Seq; [by apply digits_Matches | apply M_Empty].
    + eapply M_Seq; [apply M_OptNone|]. eapply M_Seq; [apply M_Eol | apply M_Empty].
Qed.

(** The result of NormalizeModelName, case by case. *)
Lemma NormalizeModelName_cases (s : string) :
  Normalizes (strings_ToLower s) (NormalizeModelName s) \/ NormalizeModelName s = s.
Proof.
  unfold NormalizeModelName. destruct (decide (s = "")) as [|_]; [by right|].
  destruct (FindStringSubmatch standardPattern _) as [m|] eqn:H1.
  { left. apply standardPattern_match in H1
      as (fam & d1 & d2 & suf & Hf & Hd1 & Hd2 & -> & -> & ->).
    rewrite !string_app_assoc. by constructor. }
  destruct (FindStringSubmatch noMinorPattern _) as [m|] eqn:H2.
  { left. apply noMinorPattern_match in H2
      as (fam & d1 & suf & Hf & Hd1 & _ & -> & ->). by constructor. }
  destruct (FindStringSubmatch legacyPattern _) as [m|] eqn:H3.
  { left. apply legacyPattern_match in H3
      as (d1 & d2 & fam & suf & Hf & Hd1 & Hd2 & -> & -> & -> & -> & ->).
    by apply (N_legacy d1 d2 fam suf). }
  destruct (FindStringSubmatch dotWithDatePattern _) as [m|] eqn:H4.
  { left. apply dotWithDatePattern_match in H4
      as (pre & fam & post & d8 & Hf & Hpre & Hpost & Hd8 & Hl & -> & ->).
    by constructor. }
  destruct (FindStringSubmatch invertedPattern _) as [m|] eqn:H5; [|by right].
  left. apply invertedPattern_match in H5
    as (d1 & d2 & fam & rest & Hf & Hd1 & Hd2 & -> & -> & -> & ->).
  by constructor.
Qed.

Lemma versionedTwiceWithDate_match (v1 fam v2 d8 : string) :
  version v1 -> is_family fam -> version v2 -> digits d8 -> String.length d8 = 8 ->
  is_Some (FindStringSubmatch versionedTwiceWithDate
             ("claude-" +:+ (v1 +:+ "-") +:+ fam +:+ ("-" +:+ v2) +:+ "-" +:+ d8)).
Proof.
  intros (a1 & b1 & Ha1 & Hb1 & ->) Hf (a2 & b2 & Ha2 & Hb2 & ->) [Hd8 _] Hl.
  unfold FindStringSubmatch. apply fmap_is_Some.
  eapply (anchored_complete _ _ ∅).
  assert ("claude-" +:+ ((a1 +:+ "." +:+ b1) +:+ "-") +:+ fam +:+
            ("-" +:+ a2 +:+ "." +:+ b2) +:+ "-" +:+ d8
          = "claude-" +:+ a1 +:+ "." +:+ b1 +:+ "-" +:+ fam +:+ "-" +:+ a2 +:+ "." +:+
            b2 +:+ "-" +:+ d8 +:+ "" +:+ "") as ->.
  { by name_shape. }
  repeat (eapply M_Seq;
    [first [apply M_Lit | by apply digits_Matches | by apply family_Matches
           | apply M_Eol | apply M_Repeat; [done | lia | intros ? [= <-]; lia]]|]).
  apply M_Empty.
Qed.

Ltac count :=
  rewrite ?weight_app, ?string_forallb_app;
  repeat match goal with
  | Hf : is_family ?w |- _ =>
      progress rewrite ?(family_dash w Hf), ?(family_dot w Hf), ?(family_plain w Hf)
  | Hd : digits ?w |- _ =>
      progress rewrite ?(digits_dash w Hd), ?(digits_dot w Hd), ?(digits_plain w Hd)
  | Hv : version ?w |- _ =>
      progress rewrite ?(version_dash w Hv), ?(version_dot w Hv), ?(version_plain w Hv)
  end;
  vm_compute.

Ltac fixed_by_count :=
  apply NormalizeModelName_fixed; count; [done | intros [=] | intros [? ?]; congruence].

Lemma NormalizeModelName_fixed_Normalizes (t o : string) :
  Normalizes t o -> FindStringSubmatch versionedTwiceWithDate t = None ->
  NormalizeModelName o = o.
Proof.
  intros [fam d1 d2 suf Hf H1 H2|fam d1 suf Hf H1|d1 d2 fam suf Hf H1 H2
         |pre fam post d8 Hf Hpre Hpost H8 Hl|d1 d2 fam rest Hf H1 H2] Hex.
  - fixed_by_count.
  - by apply NormalizeModelName_fixed_major.
  - fixed_by_count.
  - destruct Hpre as [->|(v1 & Hv1 & ->)], Hpost as [->|(v2 & Hv2 & ->)].
    + fixed_by_count.
    + fixed_by_count.
    + fixed_by_count.
    + destruct (versionedTwiceWithDate_match v1 fam v2 d8) as [m Hm]; auto. congruence.
  - fixed_by_count.
Qed.

(** ** The family of a name *)

(** The first of haiku, sonnet and opus in [s], read without regard to
    ASCII case. *)
Fixpoint family_of (s : string) : string :=
  if fold_prefix "haiku" s then "haiku"
  else if fold_prefix "sonnet" s then "sonnet"
  else if fold_prefix "opus" s then "opus"
  else match s with
       | String _ s' => family_of s'
       | EmptyString => ""
       end.

Lemma family_of_unfold (s : string) :
  family_of s =
  if fold_prefix "haiku" s then "haiku"
  else if fold_prefix "sonnet" s then "sonnet"
  else if fold_prefix "opus" s then "opus"
  else match s with
       | String _ s' => family_of s'
       | EmptyString => ""
       end.
Proof. by destruct s. Qed.

Definition found (pos : nat) (w : string) : Captures :=
  <[0 := (pos, w)]> (<[1 := (pos, w)]> (∅ : gmap nat (nat * string))).

Lemma submatch_found (pos : nat) (w : string) : submatch (found pos w) 1 = w.
Proof. reflexivity. Qed.

Lemma match_at_familyPattern (pos : nat) (s : string) :
  match_at familyPattern pos s =
  if fold_prefix "haiku" s then Some (found pos (string_take 5 s))
  else if fold_prefix "sonnet" s then Some (found pos (string_take 6 s))
  else if fold_prefix "opus" s then Some (found pos (string_take 4 s))
  else None.
Proof.
  unfold match_at, familyPattern, found. cbn [run].
  replace (pos + String.length "haiku" - pos) with 5 by (simpl; lia).
  replace (pos + String.length "sonnet" - pos) with 6 by (simpl; lia).
  replace (pos + String.length "opus" - pos) with 4 by (simpl; lia).
  by repeat case_match.
Qed.

Lemma fold_prefix_take (t s : string) :
  fold_prefix t s = true ->
  string_map byte_lower (string_take (String.length t) s) = t.
Proof.
  revert s. induction t as [|a t IH]; intros [|b s]; simpl; try done.
  intros [Ha Hs]%andb_true_iff. apply Ascii.eqb_eq in Ha. by rewrite <- Ha, IH.
Qed.

Lemma isASCII_take (n : nat) (s : string) :
  isASCII s = true -> isASCII (string_take n s) = true.
Proof.
  unfold isASCII. revert s. induction n as [|n IH]; intros [|c s]; simpl; try done.
  intros [Hc Hs]%andb_true_iff. rewrite Hc. simpl. auto.
Qed.

Lemma ExtractModelFamily_search (pos : nat) (s : string) :
  isASCII s = true ->
  match search familyPattern pos s with
  | Some caps => strings_ToLower (submatch caps 1)
  | None => ""
  end = family_of s.
Proof.
  assert (Htake : forall pos' t s', isASCII s' = true -> fold_prefix t s' = true ->
    strings_ToLower (submatch (found pos' (string_take (String.length t) s')) 1) = t).
  { intros pos' t s' Ha Ht. rewrite submatch_found.
    unfold strings_ToLower. rewrite (isASCII_take _ _ Ha). by apply fold_prefix_take. }
  revert pos. induction s as [|c s IH]; intros pos Ha.
  - by rewrite family_of_unfold; cbn [search]; rewrite match_at_familyPattern.
  - rewrite family_of_unfold. cbn [search]. rewrite match_at_familyPattern.
    destruct (fold_prefix "haiku" (String c s)) eqn:H1; [by apply (Htake pos "haiku")|].
    destruct (fold_prefix "sonnet" (String c s)) eqn:H2; [by apply (Htake pos "sonnet")|].
    destruct (fold_prefix "opus" (String c s)) eqn:H3; [by apply (Htake pos "opus")|].
    apply IH. unfold isASCII in *. simpl in Ha. by apply andb_true_iff in Ha as [_ ?].
Qed.

Lemma ExtractModelFamily_family_of (s : string) :
  isASCII s = true -> ExtractModelFamily s = family_of s.
Proof.
  intros Ha. unfold ExtractModelFamily, FindStringSubmatch.
  rewrite <- (ExtractModelFamily_search 0 s Ha).
  by destruct (search familyPattern 0 s).
Qed.
















(** C9 (as amended).  NormalizeModelName is idempotent on every name whose
    lower-cased form is not claude-{M}.{m}-{family}-{M'}.{m'}-{8 digits}:
    applying it to its own result gives that result again. *)
Theorem NormalizeModelName_idempotent (s : string) :
  FindStringSubmatch versionedTwiceWithDate (strings_ToLower s) = None ->
  NormalizeModelName (NormalizeModelName s) = NormalizeModelName s.
Proof.
  intros Hex. destruct (NormalizeModelName_cases s) as [HN|E]; [|by rewrite !E].
  by apply (NormalizeModelName_fixed_Normalizes (strings_ToLower s)).
Qed.


End with_runtime.





(** C9, counterexample: the first pass strips the date, the second pass reads
    what is left as the inverted form. *)
Lemma NormalizeModelName_not_idempotent :
  @NormalizeModelName canonical_runtime "claude-3.7-sonnet-4.5-20250101"
  = "claude-3.7-sonnet-4.5" /\
  @NormalizeModelName canonical_runtime
    (@NormalizeModelName canonical_runtime "claude-3.7-sonnet-4.5-20250101")
  <> @NormalizeModelName canonical_runtime "claude-3.7-sonnet-4.5-20250101".
Proof. split; [by vm_compute|]. vm_compute. discriminate. Qed.

Example NormalizeModelName_dated_twice :
  @NormalizeModelName canonical_runtime "claude-3.7-sonnet-4.5-20250101"
  = "claude-3.7-sonnet-4.5"
  /\ @NormalizeModelName canonical_runtime "claude-3.7-sonnet-4.5" = "claude-sonnet-3.7".
Proof. by vm_compute. Qed.

Lemma NormalizeModelName_idempotent_witness :
  @NormalizeModelName canonical_runtime
    (@NormalizeModelName canonical_runtime "Claude-3-7-Sonnet-20250219")
  = @NormalizeModelName canonical_runtime "Claude-3-7-Sonnet-20250219".
Proof. apply (@NormalizeModelName_idempotent canonical_runtime). vm_compute. reflexivity. Defined.


Example NormalizeModelName_examples :
  @NormalizeModelName canonical_runtime "claude-haiku-4-5" = "claude-haiku-4.5"
  /\ @NormalizeModelName canonical_runtime "claude-sonnet-4-5-20250929" = "claude-sonnet-4.5"
  /\ @NormalizeModelName canonical_runtime "claude-sonnet-4" = "claude-sonnet-4"
  /\ @NormalizeModelName canonical_runtime "claude-sonnet-4-20250514" = "claude-sonnet-4"
  /\ @NormalizeModelName canonical_runtime "claude-3-7-sonnet" = "claude-3.7-sonnet"
  /\ @NormalizeModelName canonical_runtime "claude-3.7-sonnet-20250219" = "claude-3.7-sonnet"
  /\ @NormalizeModelName canonical_runtime "claude-4.5-opus-high" = "claude-opus-4.5"
  /\ @NormalizeModelName canonical_runtime "gpt-4" = "gpt-4".
Proof. by vm_compute. Qed.

Example ExtractModelFamily_examples :
  @ExtractModelFamily canonical_runtime "claude-haiku-4.5" = "haiku"
  /\ @ExtractModelFamily canonical_runtime "Claude-Sonnet-4" = "sonnet"
  /\ @ExtractModelFamily canonical_runtime "claude-3-opus" = "opus"
  /\ @ExtractModelFamily canonical_runtime "gpt-4" = "".
Proof. by vm_compute. Qed.

End resolver_facts.

(** * Finish reasons *)
Section finish_reason.
Context `{GoRuntime} `{parser.EncodingJSON} `{!stream.Float64}.

(** The finish_reason values that a reply carries: those of the choices of
    a completion, and those of the chunks of an event stream. *)
Definition finish_reasons (reply : api.Reply) : list string :=
  match reply with
  | api.JSONError _ _ _ => []
  | api.JSONCompletion _ response => openai.FinishReason <$> openai.Choices response
  | api.EventStream events =>
      omap (fun o => match o with
                     | stream.Data chunk => stream.finish_reason chunk
                     | stream.ErrorData _ _ => None
                     end) events
  end.

(** The tool calls that a reply exposes. *)
Definition exposed_tool_calls (reply : api.Reply) : list string :=
  match reply with
  | api.JSONError _ _ _ => []
  | api.JSONCompletion _ response =>
      openai.tc_ID <$> (openai.ToolCalls ∘ openai.Message <$> openai.Choices response) ≫= id
  | api.EventStream events =>
      omap (fun o => match o with
                     | stream.Data (stream.mkChunk _ _ _ _ (stream.DeltaToolCall _ tc) _) =>
                         Some (parser.ID tc)
                     | _ => None
                     end) events
  end.





End finish_reason.

(** The reply to the tool-call scenario, not streamed. *)
Definition weather_reply : api.Reply :=
  api.JSONCompletion 200
    (openai.mkOpenAIResponse "conversation" "chat.completion" 0 "claude-sonnet-4"
       [openai.mkOpenAIChoice 0
          (openai.mkOpenAIMessage "assistant" ""
             [openai.mkOpenAIToolCall "t1" "function" "get_weather" paris_arguments])
          "stop"]
       (openai.mkOpenAIUsage 0 0 0)).

Example handleNonStreamingChatCompletion_weather :
  @api.handleNonStreamingChatCompletion canonical_runtime reference_json reference_float64
    default_config empty_cache (inl (client.mkResponse 200 [weather_stream])) stream.EOF
    "claude-sonnet-4" "conversation"
  = Some weather_reply.
Proof. vm_compute. reflexivity. Qed.


Example handleStreamingChatCompletion_weather :
  exists reply,
    @api.handleStreamingChatCompletion canonical_runtime reference_json
      default_config (inl (client.mkResponse 200 [weather_stream])) stream.EOF
      "claude-sonnet-4" "conversation" = Some reply /\
    exposed_tool_calls reply = ["t1"] /\
    finish_reasons reply = ["stop"].
Proof. eexists. split; [vm_compute; reflexivity|]. split; reflexivity. Qed.


(** * Retries *)
Section retries.
Context `{GoRuntime} `{parser.EncodingJSON} `{!stream.Float64}.

(** 403, 429 and 5xx *)
Definition retryable (status : Z) : bool :=
  (status =? 403)%Z || (status =? 429)%Z || (500 <=? status)%Z.

(** Every attempt that the loop makes ends in a retryable status. *)
Definition all_retryable (doRequest : nat -> client.Attempt) (cfg : config.Config) : bool :=
  forallb (fun attempt =>
             match doRequest attempt with
             | inl resp => retryable (client.StatusCode resp)
             | inr _ => false
             end)
          (seq 0 (Z.to_nat (config.MaxRetries cfg))).

Lemma retry_loop_all_retryable doRequest todo attempt lastErr log :
  forallb (fun attempt =>
             match doRequest attempt with
             | inl resp => retryable (client.StatusCode resp)
             | inr _ => false
             end) (seq attempt todo) = true ->
  exists log', client.retry_loop doRequest todo attempt lastErr log = (None, lastErr, log').
Proof.
  revert attempt log. induction todo as [|todo IH]; intros attempt log; simpl; [eauto|].
  intros [Ha Hrest]%andb_true_iff.
  destruct (doRequest attempt) as [resp|err]; [|done].
  unfold retryable in Ha.
  destruct (client.StatusCode resp =? 403)%Z; [by apply IH|].
  destruct (client.StatusCode resp =? 429)%Z; [by apply IH|].
  destruct (500 <=? client.StatusCode resp)%Z; [by apply IH | done].
Qed.

(** C8 (as amended).  When every attempt ends in a retryable upstream status
    (403, 429 or 5xx), RequestWithRetry returns an error and the handlers
    answer 500 with an error of type internal_error.  Its message begins
    "Request failed: all N retry attempts failed: " and carries no body of an
    upstream response: it is the same for any two upstreams that are retried
    to the end, whatever statuses and bodies they answer with. *)
Theorem retries_exhausted (doRequest doRequest' : nat -> client.Attempt)
    (cfg : config.Config) (modelCache : model.Cache) (ends : stream.ReadEnd)
    (model_ conversationID : string) :
  all_retryable doRequest cfg = true ->
  all_retryable doRequest' cfg = true ->
  exists message,
    String.prefix ("Request failed: all " +:+ client.format_int (config.MaxRetries cfg)
                   +:+ " retry attempts failed: ") message = true /\
    forall upstream, upstream = doRequest \/ upstream = doRequest' ->
      api.handleNonStreamingChatCompletion cfg modelCache
        (client.PostStream upstream cfg).1 ends model_ conversationID
      = Some (api.JSONError 500 message "internal_error") /\
      api.handleStreamingChatCompletion cfg
        (client.PostStream upstream cfg).1 ends model_ conversationID
      = Some (api.JSONError 500 message "internal_error").
Proof.
  intros Hall Hall'.
  exists ("Request failed: " +:+ "all " +:+ client.format_int (config.MaxRetries cfg)
          +:+ " retry attempts failed: " +:+ client.format_error None).
  split.
  - rewrite <- !string_app_assoc. apply prefix_app.
  - intros upstream [-> | ->]; unfold client.PostStream, client.RequestWithRetry.
    + destruct (retry_loop_all_retryable doRequest _ 0 None [] Hall) as [log' ->].
      by split.
    + destruct (retry_loop_all_retryable doRequest' _ 0 None [] Hall') as [log' ->].
      by split.
Qed.

End retries.

(** C8, counterexample: three attempts, each answered with 503 and the body
    "upstream overloaded"; the message of the failure does not carry it. *)
Lemma retries_exhausted_drops_body :
  exists message,
    @api.handleNonStreamingChatCompletion canonical_runtime reference_json reference_float64
      default_config empty_cache (client.PostStream overloaded default_config).1 stream.EOF
      "claude-sonnet-4" "conversation"
    = Some (api.JSONError 500 message "internal_error") /\
    message = "Request failed: all 3 retry attempts failed: %!w(<nil>)" /\
    strings_Contains message "upstream overloaded" = false.
Proof. eexists. split; [vm_compute; reflexivity|]. split; reflexivity. Qed.

(** An upstream that answers every attempt with 429 and another body. *)
Definition throttled : nat -> client.Attempt :=
  fun _ => inl (client.mkResponse 429 ["slow down"]).

Lemma retries_exhausted_witness :
  exists message,
    String.prefix "Request failed: all 3 retry attempts failed: " message = true /\
    @api.handleNonStreamingChatCompletion canonical_runtime reference_json reference_float64
      default_config empty_cache (client.PostStream overloaded default_config).1 stream.EOF
      "claude-sonnet-4" "conversation"
    = Some (api.JSONError 500 message "internal_error") /\
    @api.handleStreamingChatCompletion canonical_runtime reference_json
      default_config (client.PostStream throttled default_config).1 stream.EOF
      "claude-sonnet-4" "conversation"
    = Some (api.JSONError 500 message "internal_error").
Proof.
  destruct (@retries_exhausted canonical_runtime reference_json reference_float64
              overloaded throttled default_config empty_cache stream.EOF
              "claude-sonnet-4" "conversation") as (message & Hp & Hboth);
    [reflexivity | reflexivity |].
  exists message. split; [exact Hp|]. split.
  - apply (Hboth overloaded). by left.
  - apply (Hboth throttled). by right.
Defined.

(** * Access tokens *)
Section access_token.
Context `{auth.Library}.
Import auth.

Lemma set_refreshToken_accessToken m v : accessToken (set_refreshToken m v) = accessToken m.
Proof. done. Qed.
Lemma set_profileArn_accessToken m v : accessToken (set_profileArn m v) = accessToken m.
Proof. done. Qed.
Lemma set_expiresAt_accessToken m v : accessToken (set_expiresAt m v) = accessToken m.
Proof. done. Qed.

(** A refresh that reports no error has stored a non-empty token. *)
Lemma refreshTokenKiroDesktop_nonempty m w m' w' :
  refreshTokenKiroDesktop m w = (None, m', w') -> accessToken m' <> "".
Proof.
  unfold refreshTokenKiroDesktop.
  case_bool_decide; [by intros [=]|].
  destruct (http_Do w _) as [err|[StatusCode body]]; [by intros [=]|].
  case_bool_decide; [by intros [=]|].
  destruct (Decode_DesktopResult body) as [result|err]; [|by intros [=]].
  case_bool_decide as Ha; [by intros [=]|].
  unfold mbind, Eff_bind, mret, Eff_ret, time_Now.
  destruct (save_credentials _ _) as [[] w'']. intros [= <- <-].
  rewrite set_expiresAt_accessToken. repeat case_bool_decide; done.
Qed.

Lemma refreshTokenAWSSSOOIDC_nonempty m w m' w' :
  refreshTokenAWSSSOOIDC m w = (None, m', w') -> accessToken m' <> "".
Proof.
  unfold refreshTokenAWSSSOOIDC.
  repeat (case_bool_decide; [by intros [=]|]).
  destruct (http_Do w _) as [err|[StatusCode body]]; [by intros [=]|].
  case_bool_decide; [by intros [=]|].
  destruct (Decode_OIDCResult body) as [result|err]; [|by intros [=]].
  case_bool_decide as Ha; [by intros [=]|].
  unfold mbind, Eff_bind, mret, Eff_ret, time_Now.
  destruct (save_credentials _ _) as [[] w'']. intros [= <- <-].
  rewrite set_expiresAt_accessToken. repeat case_bool_decide; done.
Qed.

Lemma refreshTokenRequest_nonempty m w m' w' :
  refreshTokenRequest m w = (None, m', w') -> accessToken m' <> "".
Proof.
  unfold refreshTokenRequest. destruct (authType m);
    [apply refreshTokenKiroDesktop_nonempty | apply refreshTokenAWSSSOOIDC_nonempty].
Qed.

Lemma refresh_or_degrade_nonempty m w token m' w' :
  refresh_or_degrade m w = (inl token, m', w') -> token <> "" /\ token = accessToken m'.
Proof.
  unfold refresh_or_degrade, mbind, Eff_bind.
  destruct (refreshTokenRequest m w) as [[[err|] m1] w1] eqn:Hr.
  - destruct (bool_decide (sqliteDB m1 <> "")); simpl; [|by intros [=]].
    case_bool_decide as Ha; simpl; [|by intros [=]].
    destruct (isTokenExpiredUnlocked m1 w1) as [[] w2]; simpl; [by intros [=]|].
    by intros [= <- <- <-].
  - intros [= <- <- <-]. split; [|done]. by eapply refreshTokenRequest_nonempty.
Qed.

Lemma reload_or_refresh_nonempty m w token m' w' :
  reload_or_refresh m w = (inl token, m', w') -> token <> "" /\ token = accessToken m'.
Proof.
  unfold reload_or_refresh.
  destruct (bool_decide (sqliteDB m <> "")); [|apply refresh_or_degrade_nonempty].
  unfold mbind at 1, Eff_bind at 1.
  destruct (isTokenExpiringSoonUnlocked m w) as [[] w1]; [|apply refresh_or_degrade_nonempty].
  unfold mbind at 1, Eff_bind at 1, reload.
  case_bool_decide as Ha; [|apply refresh_or_degrade_nonempty].
  unfold mbind at 1, Eff_bind at 1.
  destruct (isTokenExpiringSoonUnlocked _ w1) as [[] w2]; simpl;
    [apply refresh_or_degrade_nonempty|].
  by intros [= <- <- <-].
Qed.

End access_token.

(** C10.  Whenever GetAccessToken returns without an error, the token it
    returns is not empty, and it is the access token that the manager
    holds afterwards. *)
Theorem GetAccessToken_nonempty `{auth.Library} (m : auth.Manager) (w : auth.World)
    (token : string) (m' : auth.Manager) (w' : auth.World) :
  auth.GetAccessToken m w = (inl token, m', w') ->
  token <> "" /\ token = auth.accessToken m'.
Proof.
  unfold auth.GetAccessToken.
  case_bool_decide as Ha; [|apply reload_or_refresh_nonempty].
  unfold mbind at 1, auth.Eff_bind at 1.
  destruct (auth.isTokenExpiringSoonUnlocked m w) as [[] w1]; simpl;
    [apply reload_or_refresh_nonempty|].
  by intros [= <- <- <-].
Qed.

Example GetAccessToken_refreshes :
  (@auth.GetAccessToken reference_library desktop_manager granting_world).1.1 = inl "access-2".
Proof. vm_compute. reflexivity. Qed.

Lemma GetAccessToken_nonempty_witness :
  "access-2" <> "" /\
  "access-2" = auth.accessToken
                 (@auth.GetAccessToken reference_library desktop_manager granting_world).1.2.
Proof.
  apply (@GetAccessToken_nonempty reference_library desktop_manager granting_world "access-2"
           _ (@auth.GetAccessToken reference_library desktop_manager granting_world).2).
  vm_compute. reflexivity.
Defined.

(** * The request shaper: what each step keeps *)
Section shaper_steps.
Import utils converter.

(** A message with tool calls or tool results. *)
Definition has_tool_content (msg : UnifiedMessage) : bool :=
  bool_decide (ToolCalls msg <> []) || bool_decide (ToolResults msg <> []).

(** What StripAllToolContent puts in the place of [msg]. *)
Definition strip_message (msg : UnifiedMessage) : UnifiedMessage :=
  if has_tool_content msg then
    mkMsg (Role msg)
      (ContentString
         (strings_Join
            ([ExtractTextContent (MsgContent msg)]
             ++ (if bool_decide (ToolCalls msg <> []) then [ToolCallsToText (ToolCalls msg)]
                 else [])
             ++ (if bool_decide (ToolResults msg <> []) then [ToolResultsToText (ToolResults msg)]
                 else []))
            (nl +:+ nl)))
      [] [] (Images msg)
  else msg.

Lemma length_pos_nonempty {A} (l : list A) : 0 < length l <-> l <> [].
Proof. destruct l; simpl; split; (congruence || lia). Qed.

Lemma StripAllToolContent_eq (messages : list UnifiedMessage) :
  StripAllToolContent messages
  = (strip_message <$> messages, existsb has_tool_content messages).
Proof.
  unfold StripAllToolContent.
  match goal with |- foldl ?f _ _ = _ => set (step := f) end.
  assert (Hstep : forall acc b m,
    step (acc, b) m = (acc ++ [strip_message m], b || has_tool_content m)).
  { intros acc b m. unfold step, strip_message, has_tool_content.
    destruct (ToolCalls m) as [|c cs], (ToolResults m) as [|r rs];
      cbn -[strings_Join ToolCallsToText ToolResultsToText];
      by rewrite ?orb_true_r, ?orb_false_r. }
  assert (G : forall ms acc b,
    foldl step (acc, b) ms
    = (acc ++ (strip_message <$> ms), b || existsb has_tool_content ms)).
  { induction ms as [|m ms IH]; intros acc b; cbn [foldl fmap list_fmap existsb].
    - by rewrite app_nil_r, orb_false_r.
    - by rewrite Hstep, IH, <- app_assoc, orb_assoc. }
  by rewrite G.
Qed.

Lemma strip_message_clean (msg : UnifiedMessage) :
  has_tool_content (strip_message msg) = false.
Proof.
  unfold strip_message. destruct (has_tool_content msg) eqn:E; [done | exact E].
Qed.

(** X1.  StripAllToolContent keeps the number, the order, the roles and the
    images of the messages; no message of the result has tool calls or
    tool results; a message without tool content is passed on as it is;
    and the flag tells whether some message had tool content. *)
Theorem StripAllToolContent_strips (messages : list UnifiedMessage) :
  let result := (StripAllToolContent messages).1 in
  Role <$> result = Role <$> messages /\
  Images <$> result = Images <$> messages /\
  Forall (fun msg => ToolCalls msg = [] /\ ToolResults msg = []) result /\
  (forall i msg, messages !! i = Some msg -> ToolCalls msg = [] -> ToolResults msg = [] ->
     result !! i = Some msg) /\
  ((StripAllToolContent messages).2 = true <->
   Exists (fun msg => ToolCalls msg <> [] \/ ToolResults msg <> []) messages).
Proof.
  rewrite StripAllToolContent_eq. simpl. repeat split.
  - rewrite <- list_fmap_compose. apply list_fmap_ext. intros _ msg _. simpl.
    unfold strip_message. by destruct (has_tool_content msg).
  - rewrite <- list_fmap_compose. apply list_fmap_ext. intros _ msg _. simpl.
    unfold strip_message. by destruct (has_tool_content msg).
  - apply Forall_fmap, Forall_forall. intros msg _. simpl.
    pose proof (strip_message_clean msg) as Hc. unfold has_tool_content in Hc.
    apply orb_false_iff in Hc as [H1 H2].
    apply bool_decide_eq_false in H1, H2. split.
    + destruct (ToolCalls (strip_message msg)); [done | by destruct H1].
    + destruct (ToolResults (strip_message msg)); [done | by destruct H2].
  - intros i msg Hi Hc Hr. rewrite list_lookup_fmap, Hi. simpl. f_equal.
    unfold strip_message, has_tool_content. by rewrite Hc, Hr.
  - intros Hex. apply existsb_exists in Hex as (msg & Hin & Hm).
    apply Exists_exists. exists msg. split; [by apply list_elem_of_In|].
    unfold has_tool_content in Hm. apply orb_true_iff in Hm as [Hm|Hm];
      apply bool_decide_eq_true in Hm; auto.
  - intros Hex. apply Exists_exists in Hex as (msg & Hin & Hm).
    apply existsb_exists. exists msg. split; [by apply list_elem_of_In|].
    unfold has_tool_content. destruct Hm as [Hm|Hm].
    + by rewrite (bool_decide_eq_true_2 _ Hm).
    + by rewrite (bool_decide_eq_true_2 _ Hm), orb_true_r.
Qed.

(** ** Merging *)

Lemma merge_step_tool_content (merged : list UnifiedMessage) (msg : UnifiedMessage) :
  mjoin (ToolCalls <$> merge_step merged msg) = mjoin (ToolCalls <$> merged) ++ ToolCalls msg /\
  mjoin (ToolResults <$> merge_step merged msg)
  = mjoin (ToolResults <$> merged) ++ ToolResults msg.
Proof.
  unfold merge_step. destruct (last merged) as [l|] eqn:Hlast.
  - destruct (decide (Role msg = Role l)).
    + apply last_Some in Hlast as [init ->].
      rewrite length_app. simpl. replace (pred (length init + 1)) with (length init + 0) by lia.
      rewrite insert_app_r. simpl. rewrite !fmap_app, !join_app. simpl.
      rewrite !app_nil_r, <- !app_assoc. split; f_equal.
      * destruct (decide (0 < length (ToolCalls msg))) as [|Hn]; [done|].
        destruct (ToolCalls msg); [by rewrite app_nil_r | simpl in Hn; lia].
      * destruct (decide (0 < length (ToolResults msg))) as [|Hn]; [done|].
        destruct (ToolResults msg); [by rewrite app_nil_r | simpl in Hn; lia].
    + rewrite !fmap_app, !join_app. simpl. by rewrite !app_nil_r.
  - rewrite !fmap_app, !join_app. simpl. by rewrite !app_nil_r.
Qed.

Lemma foldl_merge_step_tool_content (messages merged : list UnifiedMessage) :
  mjoin (ToolCalls <$> foldl merge_step merged messages)
  = mjoin (ToolCalls <$> merged) ++ mjoin (ToolCalls <$> messages) /\
  mjoin (ToolResults <$> foldl merge_step merged messages)
  = mjoin (ToolResults <$> merged) ++ mjoin (ToolResults <$> messages).
Proof.
  revert merged. induction messages as [|msg messages IH]; intros merged; simpl.
  - by rewrite !app_nil_r.
  - destruct (IH (merge_step merged msg)) as [-> ->].
    destruct (merge_step_tool_content merged msg) as [-> ->].
    by rewrite <- !app_assoc.
Qed.

(** X2.  MergeAdjacentMessages leaves no two neighbours with the same role,
    and it loses no tool call and no tool result: read in order over the
    whole list they are the same before and after. *)
Theorem MergeAdjacentMessages_keeps_tool_content (messages : list UnifiedMessage) :
  no_adjacent_same_role (MergeAdjacentMessages messages) /\
  mjoin (ToolCalls <$> MergeAdjacentMessages messages) = mjoin (ToolCalls <$> messages) /\
  mjoin (ToolResults <$> MergeAdjacentMessages messages) = mjoin (ToolResults <$> messages).
Proof.
  split; [apply MergeAdjacentMessages_spec|].
  unfold MergeAdjacentMessages. destruct (decide (length messages = 0)) as [H0|_].
  - by destruct messages.
  - apply (foldl_merge_step_tool_content messages []).
Qed.

(** ** Steps that change nothing on a shaped list *)

Lemma no_adjacent_app_inv (l k : list UnifiedMessage) :
  no_adjacent_same_role (l ++ k) -> no_adjacent_same_role l.
Proof.
  intros H i a b Ha Hb. apply (H i a b); by apply lookup_app_l_Some.
Qed.

Lemma foldl_merge_step_id (messages merged : list UnifiedMessage) :
  no_adjacent_same_role (merged ++ messages) ->
  foldl merge_step merged messages = merged ++ messages.
Proof.
  revert merged. induction messages as [|msg messages IH]; intros merged H; simpl.
  - by rewrite app_nil_r.
  - assert (merge_step merged msg = merged ++ [msg]) as ->.
    { unfold merge_step. destruct (last merged) as [l|] eqn:Hlast; [|done].
      destruct (decide (Role msg = Role l)) as [E|]; [|done]. exfalso.
      apply last_Some in Hlast as [init ->].
      apply (H (length init) l msg); [| |done].
      - rewrite <- app_assoc. by rewrite lookup_app_r, Nat.sub_diag by lia.
      - rewrite <- !app_assoc. simpl.
        rewrite lookup_app_r by lia. by replace (S (length init) - length init) with 1 by lia. }
    rewrite IH; rewrite <- app_assoc; done.
Qed.

Lemma MergeAdjacentMessages_id (messages : list UnifiedMessage) :
  no_adjacent_same_role messages -> MergeAdjacentMessages messages = messages.
Proof.
  intros H. unfold MergeAdjacentMessages.
  destruct (decide (length messages = 0)); [by destruct messages|].
  by apply (foldl_merge_step_id messages []).
Qed.

Lemma NormalizeMessageRoles_id (messages : list UnifiedMessage) :
  Forall valid_role messages -> NormalizeMessageRoles messages = messages.
Proof.
  unfold NormalizeMessageRoles. induction 1 as [|msg messages Hm _ IH]; simpl; [done|].
  rewrite IH. destruct (decide _) as [[H1 H2]|]; [|done]. by destruct Hm.
Qed.

Lemma foldl_alternate_step_id (rest result : list UnifiedMessage) :
  no_adjacent_same_role (result ++ rest) ->
  foldl alternate_step result rest = result ++ rest.
Proof.
  revert result. induction rest as [|msg rest IH]; intros result H; simpl.
  - by rewrite app_nil_r.
  - assert (alternate_step result msg = result ++ [msg]) as ->.
    { unfold alternate_step. destruct (decide _) as [[Hu Hl]|]; [|done]. exfalso.
      destruct (last result) as [l|] eqn:Hlast; [|done]. simpl in Hl. injection Hl as Hl.
      apply last_Some in Hlast as [init ->].
      apply (H (length init) l msg); [| |congruence].
      - rewrite <- app_assoc. by rewrite lookup_app_r, Nat.sub_diag by lia.
      - rewrite <- !app_assoc. simpl.
        rewrite lookup_app_r by lia. by replace (S (length init) - length init) with 1 by lia. }
    rewrite IH; rewrite <- app_assoc; done.
Qed.

Lemma EnsureAlternatingRoles_id (messages : list UnifiedMessage) :
  no_adjacent_same_role messages -> EnsureAlternatingRoles messages = messages.
Proof.
  intros H. unfold EnsureAlternatingRoles. destruct messages as [|m0 [|m1 rest]]; try done.
  by apply (foldl_alternate_step_id (m1 :: rest) [m0]).
Qed.

(** The invariant that the pipeline establishes (for any input). *)
Lemma shaped_messages_alternating tools messages :
  messages <> [] -> alternating_inv (shaped_messages tools messages).
Proof.
  intros Hne. unfold shaped_messages.
  set (m0 := if decide (length tools = 0)
             then (StripAllToolContent messages).1 else messages).
  assert (Hm0 : m0 <> []).
  { subst m0. destruct (decide _); [|exact Hne].
    intros E. apply (f_equal length) in E.
    rewrite StripAllToolContent_length in E. destruct messages; simpl in E; congruence. }
  destruct (MergeAdjacentMessages_spec m0) as [Hadj Hne1]. specialize (Hne1 Hm0).
  destruct (EnsureFirstMessageIsUser_spec _ Hadj) as [Hadj2 Hhd]. specialize (Hhd Hne1).
  destruct Hhd as (m & rest & Heq & Hu).
  destruct (NormalizeMessageRoles_spec _ Hadj2) as (Hv & Hna & _ & Hfirst).
  destruct (Hfirst _ _ Heq Hu) as (m' & rest' & Heq' & Hu').
  eapply EnsureAlternatingRoles_spec; eauto.
Qed.

(** Tool content does not come back after stripping. *)
Definition clean (messages : list UnifiedMessage) : Prop :=
  Forall (fun msg => has_tool_content msg = false) messages.

Lemma merge_step_clean merged msg :
  clean merged -> has_tool_content msg = false -> clean (merge_step merged msg).
Proof.
  intros Hc Hm. unfold merge_step. destruct (last merged) as [l|] eqn:Hlast.
  - destruct (decide (Role msg = Role l)).
    + apply Forall_insert; [done|].
      assert (has_tool_content l = false) as Hl.
      { eapply Forall_forall in Hc; [exact Hc|]. rewrite last_lookup in Hlast.
        by eapply list_elem_of_lookup_2. }
      unfold has_tool_content in *. simpl.
      apply orb_false_iff in Hm as [H1 H2]. apply orb_false_iff in Hl as [H3 H4].
      apply bool_decide_eq_false, dec_stable in H1, H2, H3, H4.
      by rewrite H1, H2, H3, H4.
    + apply Forall_app. split; [done | by constructor].
  - apply Forall_app. split; [done | by constructor].
Qed.

Lemma foldl_merge_step_clean messages merged :
  clean merged -> clean messages -> clean (foldl merge_step merged messages).
Proof.
  revert merged. induction messages as [|msg messages IH]; intros merged Hc Hm; simpl; [done|].
  apply Forall_cons in Hm as [Hmsg Hm]. apply IH; [by apply merge_step_clean | done].
Qed.

Lemma foldl_alternate_step_clean rest result :
  clean result -> clean rest -> clean (foldl alternate_step result rest).
Proof.
  revert result. induction rest as [|msg rest IH]; intros result Hc Hr; simpl; [done|].
  apply Forall_cons in Hr as [Hmsg Hr]. apply IH; [|done].
  unfold alternate_step. destruct (decide _).
  - repeat (apply Forall_app; split); try done; by constructor.
  - apply Forall_app; split; [done | by constructor].
Qed.

Lemma shaped_messages_clean messages : clean (shaped_messages [] messages).
Proof.
  unfold shaped_messages. simpl. rewrite StripAllToolContent_eq. simpl.
  set (m0 := strip_message <$> messages).
  assert (clean m0) as H0.
  { apply Forall_fmap, Forall_forall. intros msg _. apply strip_message_clean. }
  assert (clean (MergeAdjacentMessages m0)) as H1.
  { unfold MergeAdjacentMessages. destruct (decide _); [constructor|].
    apply foldl_merge_step_clean; [constructor | done]. }
  assert (clean (EnsureFirstMessageIsUser (MergeAdjacentMessages m0))) as H2.
  { unfold EnsureFirstMessageIsUser. destruct (MergeAdjacentMessages m0) as [|m ms]; [done|].
    destruct (decide _); [done|]. by constructor. }
  assert (clean (NormalizeMessageRoles (EnsureFirstMessageIsUser (MergeAdjacentMessages m0))))
    as H3.
  { unfold NormalizeMessageRoles. apply Forall_fmap. eapply Forall_impl; [exact H2|].
    intros msg Hmsg. simpl. by destruct (decide _). }
  revert H3. generalize (NormalizeMessageRoles (EnsureFirstMessageIsUser
                                                  (MergeAdjacentMessages m0))).
  intros l Hl. unfold EnsureAlternatingRoles. destruct l as [|a [|b l]]; try done.
  apply Forall_cons in Hl as [Ha Hl].
  apply foldl_alternate_step_clean; [by constructor | done].
Qed.

Lemma strip_clean_id messages :
  clean messages -> (StripAllToolContent messages).1 = messages.
Proof.
  intros Hc. rewrite StripAllToolContent_eq. cbn [fst].
  induction Hc as [|msg messages Hm _ IH]; cbn [fmap list_fmap]; [done|].
  fold (fmap strip_message messages). rewrite IH. unfold strip_message. by rewrite Hm.
Qed.

(** X3.  The message pipeline of BuildKiroPayload is idempotent: a list that
    went through it is not changed by going through it again. *)
Theorem shaped_messages_idempotent (tools : list UnifiedTool)
    (messages : list UnifiedMessage) :
  shaped_messages tools (shaped_messages tools messages) = shaped_messages tools messages.
Proof.
  destruct messages as [|m ms].
  { unfold shaped_messages. destruct (decide (length tools = 0)); reflexivity. }
  destruct (shaped_messages_alternating tools (m :: ms)) as [Hv Ha (m0 & rest & Heq & Hu)];
    [done|].
  assert (Hclean : length tools = 0 -> clean (shaped_messages tools (m :: ms))).
  { intros Ht. destruct tools; [|done]. apply shaped_messages_clean. }
  revert Hv Ha Heq Hclean. generalize (shaped_messages tools (m :: ms)).
  intros out Hv Ha -> Hclean. unfold shaped_messages.
  assert ((if decide (length tools = 0)
           then (StripAllToolContent (m0 :: rest)).1 else m0 :: rest) = m0 :: rest) as ->.
  { destruct (decide (length tools = 0)); [|done]. by apply strip_clean_id, Hclean. }
  rewrite (MergeAdjacentMessages_id _ Ha).
  assert (EnsureFirstMessageIsUser (m0 :: rest) = m0 :: rest) as ->.
  { unfold EnsureFirstMessageIsUser. by destruct (decide _). }
  rewrite (NormalizeMessageRoles_id _ Hv).
  by apply EnsureAlternatingRoles_id.
Qed.

(** ** Alternation *)

Lemma foldl_alternate_step_sublist (rest result : list UnifiedMessage) :
  exists inserted,
    foldl alternate_step result rest = result ++ inserted /\
    sublist rest inserted /\
    Forall (fun msg => msg ∈ rest \/ msg = synthetic "assistant" "(empty)") inserted /\
    length inserted <= 2 * length rest.
Proof.
  revert result. induction rest as [|msg rest IH]; intros result; simpl.
  - exists []. by rewrite app_nil_r.
  - destruct (IH (alternate_step result msg)) as (ins & -> & Hsub & Hall & Hlen).
    unfold alternate_step. destruct (decide _).
    + exists (synthetic "assistant" "(empty)" :: msg :: ins).
      rewrite <- !app_assoc. simpl. repeat split.
      * by apply sublist_cons, sublist_skip.
      * constructor; [by right|]. constructor; [left; by left|].
        eapply Forall_impl; [exact Hall|]. intros x [?|?]; [left; by right | by right].
      * simpl. lia.
    + exists (msg :: ins). rewrite <- !app_assoc. simpl. repeat split.
      * by apply sublist_skip.
      * constructor; [left; by left|].
        eapply Forall_impl; [exact Hall|]. intros x [?|?]; [left; by right | by right].
      * simpl. lia.
Qed.

(** X4.  EnsureAlternatingRoles only inserts: the messages given are all
    kept, in their order; every other message of the result is the
    assistant message "(empty)"; and of n >= 1 messages the result has
    at most 2n - 1. *)
Theorem EnsureAlternatingRoles_inserts (messages : list UnifiedMessage) :
  sublist messages (EnsureAlternatingRoles messages) /\
  Forall (fun msg => msg ∈ messages \/ msg = synthetic "assistant" "(empty)")
         (EnsureAlternatingRoles messages) /\
  length (EnsureAlternatingRoles messages) <= 2 * length messages - 1.
Proof.
  unfold EnsureAlternatingRoles. destruct messages as [|m0 [|m1 rest]].
  - repeat split; [done | constructor | simpl; lia].
  - repeat split; [done | | simpl; lia]. constructor; [left; by left | constructor].
  - destruct (foldl_alternate_step_sublist (m1 :: rest) [m0]) as (ins & -> & Hsub & Hall & Hlen).
    repeat split.
    + simpl. by apply sublist_skip.
    + simpl. constructor; [left; by left|].
      eapply Forall_impl; [exact Hall|]. intros x [?|?]; [left; by right | by right].
    + simpl in *. lia.
Qed.

End shaper_steps.

(** * The event-stream parser: further properties *)
Section parser_steps.
Context `{GoRuntime} `{parser.EncodingJSON}.
Import parser.

(** X5.  DeduplicateToolCalls invents nothing and leaves no duplicate: every
    call of the result is a call of the input, no two calls of the result
    have the same name and arguments, and the result of a non-empty input
    is not empty. *)
Theorem DeduplicateToolCalls_sound (toolCalls : list ToolCall) :
  (forall tc, tc ∈ DeduplicateToolCalls toolCalls -> tc ∈ toolCalls) /\
  NoDup (dedup_key <$> DeduplicateToolCalls toolCalls) /\
  (DeduplicateToolCalls toolCalls = [] <-> toolCalls = []).
Proof.
  split; [intros tc; apply DeduplicateToolCalls_subseteq|].
  split; [apply DeduplicateToolCalls_NoDup_keys|].
  split; [|by intros ->].
  destruct toolCalls as [|tc l]; [done|]. intros E. exfalso.
  rewrite DeduplicateToolCalls_eq in E.
  set (src := (map_range (foldl byID_step ∅ (tc :: l))).*2 ++ filter (fun tc => ID tc = "") (tc :: l))
    in E.
  assert (src <> []) as Hsrc.
  { unfold src. destruct (decide (ID tc = "")) as [Hid|Hid].
    - rewrite filter_cons_True by done. by destruct (_.*2).
    - assert (is_Some (foldl byID_step ∅ (tc :: l) !! ID tc)) as [v Hv].
      { assert (G : forall l (acc : gmap string ToolCall),
                  is_Some (acc !! ID tc) -> is_Some (foldl byID_step acc l !! ID tc)).
        { clear. induction l as [|c l IH]; intros acc Ha; simpl; [done|]. apply IH.
          unfold byID_step. destruct (decide (ID c = "")); [done|].
          destruct (acc !! ID c) eqn:Ec.
          - destruct (decide _); [|done].
            destruct (decide (ID c = ID tc)) as [->|]; [by rewrite lookup_insert_eq|].
            by rewrite lookup_insert_ne.
          - destruct (decide (ID c = ID tc)) as [->|]; [by rewrite lookup_insert_eq|].
            by rewrite lookup_insert_ne. }
        simpl. apply G. unfold byID_step. rewrite decide_False by done.
        rewrite lookup_empty. by rewrite lookup_insert_eq. }
      assert ((ID tc, v) ∈ map_range (foldl byID_step ∅ (tc :: l))) as Hin.
      { rewrite (map_range_perm _). by apply elem_of_map_to_list. }
      destruct (map_range (foldl byID_step ∅ (tc :: l))); [by apply not_elem_of_nil in Hin|].
      done. }
  destruct src as [|x src]; [done|]. simpl in E.
  unfold index_bool in E. by rewrite lookup_empty in E.
Qed.

(** ** Matching braces *)

Lemma brace_walk_closing s i bc ins esc j :
  brace_walk s i bc ins esc = Some j -> String.get (j - i) s = Some "}"%char.
Proof.
  revert i bc ins esc. induction s as [|c s IH]; intros i bc ins esc; [done|].
  assert (forall bc' ins' esc', brace_walk s (S i) bc' ins' esc' = Some j ->
            String.get (j - i) (String c s) = Some "}"%char) as Hrec.
  { intros bc' ins' esc' Hw. pose proof (brace_walk_bounds _ _ _ _ _ _ Hw) as Hb.
    apply IH in Hw. replace (j - i) with (S (j - S i)) by lia. done. }
  cbn [brace_walk].
  destruct (Ascii.eqb c "}") eqn:Hc.
  - repeat match goal with
           | |- context [if ?b then _ else _] => destruct b
           end; try (by eapply Hrec).
    intros [= <-]. rewrite Nat.sub_diag. apply Ascii.eqb_eq in Hc as ->. done.
  - repeat match goal with
           | |- context [if ?b then _ else _] => destruct b
           end; by eapply Hrec.
Qed.

Lemma get_string_drop n k s : String.get k (string_drop n s) = String.get (n + k) s.
Proof.
  revert s. induction n as [|n IH]; intros s; simpl; [done|].
  destruct s as [|c s]; simpl; [by destruct k | apply IH].
Qed.

(** X6.  When FindMatchingBrace returns a position, the byte at the start
    position is an opening brace, the position returned lies behind it and
    inside the text, and the byte there is a closing brace. *)
Theorem FindMatchingBrace_closing (text : string) (startPos j : nat) :
  FindMatchingBrace text startPos = Some j ->
  startPos < j < String.length text /\
  String.get startPos text = Some "{"%char /\
  String.get j text = Some "}"%char.
Proof.
  intros Hf. pose proof (FindMatchingBrace_bounds _ _ _ Hf) as Hb.
  unfold FindMatchingBrace in Hf.
  destruct (String.get startPos text) as [c|] eqn:Hc; [|done].
  destruct (Ascii.eqb c "{") eqn:Ec; [|done]. apply Ascii.eqb_eq in Ec as ->.
  apply brace_walk_closing in Hf. rewrite get_string_drop in Hf.
  replace (startPos + (j - startPos)) with j in Hf by lia.
  split; [|done]. split; [|lia].
  destruct (decide (j = startPos)) as [->|]; [|lia]. congruence.
Qed.

(** ** What Feed keeps *)

(** The contents of the content events. *)
Definition contents (events : list Event) : list string :=
  omap (fun e => match e with ContentEvent c => Some c | _ => None end) events.

(** No element repeats the one before it; [prev] stands before the list. *)
Fixpoint no_repeat_from (prev : option string) (l : list string) : Prop :=
  match l with
  | [] => True
  | c :: l => prev <> Some c /\ no_repeat_from (Some c) l
  end.

Definition last_from (prev : option string) (l : list string) : option string :=
  match last l with Some c => Some c | None => prev end.

Lemma no_repeat_from_app prev l k :
  no_repeat_from prev l -> no_repeat_from (last_from prev l) k ->
  no_repeat_from prev (l ++ k).
Proof.
  revert prev. induction l as [|c l IH]; intros prev; simpl; [done|].
  intros [Hc Hl] Hk. split; [done|]. apply IH; [done|].
  unfold last_from in *. rewrite last_cons in Hk. by destruct (last l).
Qed.

Lemma last_from_app prev l k : last_from prev (l ++ k) = last_from (last_from prev l) k.
Proof.
  unfold last_from. destruct k as [|x k _] using rev_ind.
  - by rewrite app_nil_r.
  - by rewrite app_assoc, !last_snoc.
Qed.

Lemma contents_cons e new : contents (e :: new) = contents [e] ++ contents new.
Proof. unfold contents. by destruct e. Qed.

Lemma finalizeToolCall_lastContent p : lastContent (finalizeToolCall p) = lastContent p.
Proof.
  unfold finalizeToolCall. destruct (currentToolCall p); [|done].
  by destruct (decide (ID _ = "")).
Qed.

Lemma finalizeToolCall_prefix p : toolCalls p `prefix_of` toolCalls (finalizeToolCall p).
Proof.
  unfold finalizeToolCall. destruct (currentToolCall p); [|done].
  destruct (decide (ID _ = "")); simpl; by apply prefix_app_r.
Qed.

(** One event: the content emitted, if any, differs from the last one. *)
Lemma processEvent_step p jsonStr t :
  let '(p', outcome) := processEvent p jsonStr t in
  let new := match outcome with Emitted (Some e) => [e] | _ => [] end in
  no_repeat_from (lastContent p) (contents new) /\
  lastContent p' = last_from (lastContent p) (contents new) /\
  toolCalls p `prefix_of` toolCalls p'.
Proof.
  destruct t; simpl.
  - unfold processContentEvent. destruct (Unmarshal_content jsonStr) as [[c f]|]; [|done].
    destruct (decide (f <> "")); [done|].
    destruct (decide (lastContent p = Some c)); [done|]. simpl. done.
  - unfold processToolStartEvent.
    set (p1 := match currentToolCall p with Some _ => finalizeToolCall p | None => p end).
    assert (lastContent p1 = lastContent p /\ toolCalls p `prefix_of` toolCalls p1) as [E1 E2].
    { unfold p1. destruct (currentToolCall p) eqn:E; [|done].
      split; [apply finalizeToolCall_lastContent | apply finalizeToolCall_prefix]. }
    destruct (Unmarshal_toolStart jsonStr) as [[[[n i] v] [|]]|]; simpl.
    + rewrite finalizeToolCall_lastContent. simpl. split; [done|]. split; [done|].
      etrans; [exact E2|]. apply (finalizeToolCall_prefix (mkParser _ _ _ _ _)).
    + done.
    + done.
  - unfold processToolInputEvent. destruct (currentToolCall p); [|done].
    destruct (Unmarshal_toolInput jsonStr); done.
  - unfold processToolStopEvent. destruct (Unmarshal_toolStop jsonStr) as [[|]|]; simpl;
      try done; destruct (currentToolCall p); simpl; try done.
    split; [done|]. split; [by rewrite finalizeToolCall_lastContent|].
    apply finalizeToolCall_prefix.
  - unfold processUsageEvent. destruct (Unmarshal_usage jsonStr); done.
  - unfold processContextUsageEvent. destruct (Unmarshal_contextUsage jsonStr); done.
Qed.

Lemma feed_loop_keeps fuel p events :
  exists new consumed,
    (feed_loop fuel p events).2 = events ++ new /\
    no_repeat_from (lastContent p) (contents new) /\
    lastContent (feed_loop fuel p events).1 = last_from (lastContent p) (contents new) /\
    toolCalls p `prefix_of` toolCalls (feed_loop fuel p events).1 /\
    buffer p = consumed +:+ buffer (feed_loop fuel p events).1.
Proof.
  revert p events. induction fuel as [|fuel IH]; intros p events; simpl.
  { exists [], "". by rewrite app_nil_r. }
  destruct (earliest_pattern (buffer p)) as [[pos t]|]; [|exists [], ""; by rewrite app_nil_r].
  destruct (FindMatchingBrace (buffer p) pos) as [jsonEnd|];
    [|exists [], ""; by rewrite app_nil_r].
  set (p0 := mkParser (string_drop (jsonEnd + 1) (buffer p)) (lastContent p)
                      (currentToolCall p) (toolCalls p) (uuids p)).
  pose proof (processEvent_step p0
                (String.substring pos (jsonEnd + 1 - pos) (buffer p)) t) as Hstep.
  pose proof (processEvent_buffer p0
                (String.substring pos (jsonEnd + 1 - pos) (buffer p)) t) as Hbuf.
  destruct (processEvent p0 _ t) as [p1 outcome]. simpl in Hstep, Hbuf.
  destruct Hstep as (Hn & Hl & Hp).
  assert (Hcut : buffer p = string_take (jsonEnd + 1) (buffer p) +:+ buffer p1).
  { by rewrite Hbuf, string_take_drop. }
  destruct outcome as [[e|]|].
  - destruct (IH p1 (events ++ [e])) as (new & consumed & -> & Hn' & Hl' & Hp' & Hb').
    exists (e :: new), (string_take (jsonEnd + 1) (buffer p) +:+ consumed).
    rewrite <- app_assoc. split; [done|].
    rewrite (contents_cons e new).
    split; [apply no_repeat_from_app; [done | by rewrite <- Hl]|].
    split; [by rewrite Hl', Hl, last_from_app|].
    split; [by etrans|]. by rewrite string_app_assoc, <- Hb'.
  - destruct (IH p1 events) as (new & consumed & -> & Hn' & Hl' & Hp' & Hb').
    exists new, (string_take (jsonEnd + 1) (buffer p) +:+ consumed).
    split; [done|]. simpl in Hl. rewrite Hl in Hn', Hl'.
    split; [done|]. split; [done|]. split; [by etrans|].
    by rewrite string_app_assoc, <- Hb'.
  - destruct (IH p1 events) as (new & consumed & -> & Hn' & Hl' & Hp' & Hb').
    exists new, (string_take (jsonEnd + 1) (buffer p) +:+ consumed).
    split; [done|]. simpl in Hl. rewrite Hl in Hn', Hl'.
    split; [done|]. split; [done|]. split; [by etrans|].
    by rewrite string_app_assoc, <- Hb'.
Qed.

(** X7.  Feed never emits the same content twice in a row: no content
    event of the result repeats the content emitted before it, the first
    one does not repeat the last content of earlier calls, and the parser
    remembers the last content emitted. *)
Theorem Feed_no_repeated_content (p : AwsEventStreamParser) (chunk : string) :
  no_repeat_from (lastContent p) (contents (Feed p chunk).2) /\
  lastContent (Feed p chunk).1 = last_from (lastContent p) (contents (Feed p chunk).2).
Proof.
  unfold Feed.
  destruct (feed_loop_keeps
              (S (String.length (buffer (mkParser (buffer p +:+ chunk) (lastContent p)
                                           (currentToolCall p) (toolCalls p) (uuids p)))))
              (mkParser (buffer p +:+ chunk) (lastContent p) (currentToolCall p)
                        (toolCalls p) (uuids p)) [])
    as (new & consumed & E & Hn & Hl & _ & _).
  simpl in *. by rewrite E.
Qed.

(** X8.  Feed consumes its input from the front and only adds tool calls:
    what is left in the buffer is an end piece of the old buffer followed
    by the chunk, and the tool calls collected before are still there, in
    front of the new ones. *)
Theorem Feed_consumes_prefix (p : AwsEventStreamParser) (chunk : string) :
  (exists consumed, buffer p +:+ chunk = consumed +:+ buffer (Feed p chunk).1) /\
  toolCalls p `prefix_of` toolCalls (Feed p chunk).1.
Proof.
  unfold Feed.
  destruct (feed_loop_keeps
              (S (String.length (buffer (mkParser (buffer p +:+ chunk) (lastContent p)
                                           (currentToolCall p) (toolCalls p) (uuids p)))))
              (mkParser (buffer p +:+ chunk) (lastContent p) (currentToolCall p)
                        (toolCalls p) (uuids p)) [])
    as (new & consumed & _ & _ & _ & Hp & Hb).
  simpl in *. eauto.
Qed.

End parser_steps.

Lemma FindMatchingBrace_closing_witness :
  2 < 10 < String.length "ab{c{d}e{}}f" /\
  String.get 2 "ab{c{d}e{}}f" = Some "{"%char /\
  String.get 10 "ab{c{d}e{}}f" = Some "}"%char.
Proof. apply (FindMatchingBrace_closing "ab{c{d}e{}}f" 2 10). reflexivity. Defined.

(** * The thinking parser: further properties *)
Section thinking_steps.
Import thinking.

Lemma processForOutput_remove p content isFirst isLast :
  handlingMode p = ThinkingHandlingRemove -> processForOutput p content isFirst isLast = "".
Proof. intros Hm. unfold processForOutput. by rewrite decide_True. Qed.

Lemma processThinkingContent_remove p content result :
  handlingMode p = ThinkingHandlingRemove -> ThinkingContent result = "" ->
  handlingMode (processThinkingContent p content result).1 = ThinkingHandlingRemove /\
  ThinkingContent (processThinkingContent p content result).2 = "".
Proof.
  intros Hm Hr. unfold processThinkingContent.
  destruct (decide (thinkingTagClose p = "")); [done|].
  destruct (strings_Index content (thinkingTagClose p)) as [idx|].
  - simpl. split; [done|]. destruct (decide _); simpl; by apply processForOutput_remove.
  - simpl. destruct (firstThinkingSent p); simpl;
      (split; [done | by apply processForOutput_remove]).
Qed.

Lemma check_tags_remove tags p result p' result' :
  handlingMode p = ThinkingHandlingRemove -> ThinkingContent result = "" ->
  check_tags tags p result = Some (p', result') ->
  handlingMode p' = ThinkingHandlingRemove /\ ThinkingContent result' = "".
Proof.
  intros Hm Hr. induction tags as [|tag tags IH]; simpl.
  - by intros [= <- <-].
  - destruct (strings_Index (buffer p) tag) as [idx|]; [|done].
    destruct (getCloseTag tag) as [closeTag|]; [|done].
    match goal with
    | |- context [if decide (?after <> "") then processThinkingContent ?q _ ?r else _] =>
        set (p1 := q); set (r1 := r); set (afterTag := after)
    end.
    assert (ThinkingContent r1 = "") as Hr1 by (unfold r1; by destruct (decide _)).
    destruct (decide (afterTag <> "")).
    + pose proof (processThinkingContent_remove p1 afterTag r1 Hm Hr1) as [H1 H2].
      destruct (processThinkingContent p1 afterTag r1) as [p2 r2]. by intros [= <- <-].
    + by intros [= <- <-].
Qed.

(** X9.  In the handling mode "remove" the parser never gives out thinking
    content: every result of Feed and of Finalize has an empty
    ThinkingContent, and the mode stays. *)
Theorem remove_mode_emits_no_thinking (p : ThinkingParser) (content : string) :
  handlingMode p = ThinkingHandlingRemove ->
  (forall p' result, Feed p content = Some (p', result) ->
     ThinkingContent result = "" /\ handlingMode p' = ThinkingHandlingRemove) /\
  ThinkingContent (Finalize p).2 = "" /\
  handlingMode (Finalize p).1 = ThinkingHandlingRemove.
Proof.
  intros Hm. split.
  - intros p' result. unfold Feed.
    destruct (thinkingEnded p); [by intros [= <- <-]|].
    destruct (inThinking p).
    { pose proof (processThinkingContent_remove p content empty_result Hm eq_refl) as [H1 H2].
      destruct (processThinkingContent p content empty_result). by intros [= <- <-]. }
    destruct (negb (foundThinking p)).
    + simpl. destruct (_ <=? _).
      * intros Hc. apply check_tags_remove in Hc; [by destruct Hc | done | done].
      * by intros [= <- <-].
    + pose proof (processThinkingContent_remove p content empty_result Hm eq_refl) as [H1 H2].
      destruct (processThinkingContent p content empty_result). by intros [= <- <-].
  - unfold Finalize. destruct (decide (buffer p <> "" /\ foundThinking p = false)); simpl.
    + destruct (inThinking p); simpl; [|done]. split; [|done].
      by apply processForOutput_remove.
    + destruct (inThinking p); simpl; [|done]. split; [|done].
      by apply processForOutput_remove.
Qed.

Lemma getCloseTag_returns tag : tag <> "" -> is_Some (getCloseTag tag).
Proof.
  intros Ht. unfold getCloseTag. repeat (destruct (decide _); [done|]). by destruct tag.
Qed.

Lemma check_tags_returns tags p result :
  Forall (fun tag => tag <> "") tags -> is_Some (check_tags tags p result).
Proof.
  induction 1 as [|tag tags Ht _ IH]; simpl; [done|].
  destruct (strings_Index (buffer p) tag); [|done].
  destruct (getCloseTag_returns tag Ht) as [closeTag ->].
  destruct (decide _); [destruct (processThinkingContent _ _ _)|]; done.
Qed.

(** X10.  Feed returns (it does not panic) whenever none of the configured
    open tags is the empty string. *)
Theorem Feed_returns (p : ThinkingParser) (content : string) :
  Forall (fun tag => tag <> "") (openTags p) -> is_Some (Feed p content).
Proof.
  intros Ht. unfold Feed. destruct (thinkingEnded p); [done|].
  destruct (inThinking p); [done|]. destruct (negb (foundThinking p)); [|done].
  simpl. destruct (_ <=? _); [|done]. by apply check_tags_returns.
Qed.

Lemma Finalize_idle p :
  buffer p = "" \/ foundThinking p = true -> inThinking p = false ->
  Finalize p = (p, empty_result).
Proof.
  intros Hb Hi. unfold Finalize.
  rewrite decide_False by (intros [? ?]; destruct Hb; congruence).
  by rewrite Hi.
Qed.

(** X11.  Finalize gives out what is left only once: after Finalize the
    buffer holds nothing that is still to be passed on and no thinking
    block is open, so a second Finalize returns the empty result and
    changes nothing. *)
Theorem Finalize_twice (p : ThinkingParser) :
  Finalize (Finalize p).1 = ((Finalize p).1, empty_result).
Proof.
  apply Finalize_idle; unfold Finalize.
  - destruct (decide (buffer p <> "" /\ foundThinking p = false)) as [[Hb Hf]|Hn].
    + destruct (inThinking p); by left.
    + assert (buffer p = "" \/ foundThinking p = true) as Hp.
      { destruct (decide (buffer p = "")); [by left|].
        destruct (foundThinking p); [by right|]. by destruct Hn. }
      by destruct (inThinking p).
  - destruct (decide (buffer p <> "" /\ foundThinking p = false)); cbn beta iota;
      by destruct (inThinking p) eqn:Hi.
Qed.

End thinking_steps.

Lemma remove_mode_emits_no_thinking_witness :
  thinking.ThinkingContent
    (thinking.Finalize (thinking.NewThinkingParser "remove" [] 20)).2 = "" /\
  thinking.handlingMode
    (thinking.Finalize (thinking.NewThinkingParser "remove" [] 20)).1 = "remove".
Proof.
  apply (remove_mode_emits_no_thinking (thinking.NewThinkingParser "remove" [] 20) "").
  reflexivity.
Defined.

Lemma Feed_returns_witness :
  is_Some (thinking.Feed (thinking.NewThinkingParser "as_reasoning_content" [] 20)
             "<thinking>one moment</thinking>done").
Proof. apply Feed_returns. repeat constructor; discriminate. Defined.

(** * Retries: what RequestWithRetry returns and what it does on the way *)
Section retry_facts.
Import client.
Variable doRequest : nat -> Attempt.

(** The attempt is followed by another one (if one is left): it ended in
    a transport error or in a retryable status. *)
Definition tried_again (attempt : nat) : bool :=
  match doRequest attempt with
  | inl resp => retryable (StatusCode resp)
  | inr _ => true
  end.

(** The texts of the transport errors among [n] attempts from [attempt]
    on, in order. *)
Definition transport_errors (attempt n : nat) : list string :=
  omap (fun i => match doRequest i with inr err => Some err | inl _ => None end)
       (seq attempt n).

(** The number of attempts made when [todo] are allowed from [attempt]
    on. *)
Fixpoint attempts_made (todo attempt : nat) : nat :=
  match todo with
  | O => O
  | S todo => if tried_again attempt then S (attempts_made todo (S attempt)) else 1
  end.

(** What one attempt adds to the log: the back-off sleep before every
    attempt but the first; after a 403 the token refresh and the closing of
    the body; after a 429 or 5xx the closing of the body. *)
Definition effects_of (attempt : nat) : list Effect :=
  (if 0 <? attempt then [Sleep attempt] else []) ++
  match doRequest attempt with
  | inl resp =>
      if (StatusCode resp =? 403)%Z then [ForceRefresh; CloseBody resp]
      else if retryable (StatusCode resp) then [CloseBody resp]
      else []
  | inr _ => []
  end.

Definition last_error (lastErr : option string) (errors : list string) : option string :=
  match last errors with Some err => Some err | None => lastErr end.

Lemma attempts_made_le todo attempt : attempts_made todo attempt <= todo.
Proof.
  revert attempt. induction todo as [|todo IH]; intros attempt; simpl; [done|].
  destruct (tried_again attempt); [|lia]. specialize (IH (S attempt)). lia.
Qed.

Lemma attempts_made_all todo attempt :
  (forall i, i < todo -> tried_again (attempt + i) = true) ->
  attempts_made todo attempt = todo.
Proof.
  revert attempt. induction todo as [|todo IH]; intros attempt Hall; simpl; [done|].
  rewrite <- (Nat.add_0_r attempt) at 1. rewrite Hall by lia. f_equal. apply IH.
  intros i Hi. rewrite Nat.add_succ_comm. apply Hall. lia.
Qed.

Lemma last_error_cons lastErr err errors :
  last_error lastErr (err :: errors) = last_error (Some err) errors.
Proof. unfold last_error. rewrite last_cons. by destruct (last errors). Qed.

Lemma retry_loop_char todo attempt lastErr log :
  exists res,
    retry_loop doRequest todo attempt lastErr log =
      (res,
       last_error lastErr (transport_errors attempt (attempts_made todo attempt)),
       log ++ mjoin (effects_of <$> seq attempt (attempts_made todo attempt))) /\
    match res with
    | Some resp =>
        exists k, k < todo /\ doRequest (attempt + k) = inl resp /\
                  retryable (StatusCode resp) = false /\
                  forall i, i < k -> tried_again (attempt + i) = true
    | None => forall i, i < todo -> tried_again (attempt + i) = true
    end.
Proof.
  revert attempt lastErr log. induction todo as [|todo IH]; intros attempt lastErr log.
  { exists None. simpl. rewrite app_nil_r. split; [done|]. intros i Hi. lia. }
  assert (Hnext : forall lastErr' log' extra,
            tried_again attempt = true ->
            last_error lastErr (transport_errors attempt (S (attempts_made todo (S attempt))))
            = last_error lastErr' (transport_errors (S attempt) (attempts_made todo (S attempt))) ->
            log' = log ++ effects_of attempt ->
            extra = retry_loop doRequest todo (S attempt) lastErr' log' ->
            exists res,
              extra =
                (res,
                 last_error lastErr
                   (transport_errors attempt (attempts_made (S todo) attempt)),
                 log ++ mjoin (effects_of <$> seq attempt (attempts_made (S todo) attempt))) /\
              match res with
              | Some resp =>
                  exists k, k < S todo /\ doRequest (attempt + k) = inl resp /\
                            retryable (StatusCode resp) = false /\
                            forall i, i < k -> tried_again (attempt + i) = true
              | None => forall i, i < S todo -> tried_again (attempt + i) = true
              end).
  { intros lastErr' log' extra Ht He -> ->.
    destruct (IH (S attempt) lastErr' (log ++ effects_of attempt)) as (res & -> & Hres).
    exists res. cbn [attempts_made]. rewrite Ht. split.
    - rewrite He. cbn [seq fmap list_fmap mjoin list_join]. by rewrite <- app_assoc.
    - destruct res as [resp|].
      + destruct Hres as (k & Hk & Hd & Hr & Hall). exists (S k).
        split; [lia|]. rewrite Nat.add_succ_r. split; [done|]. split; [done|].
        intros [|i] Hi; [by rewrite Nat.add_0_r|].
        rewrite Nat.add_succ_r. apply Hall. lia.
      + intros [|i] Hi; [by rewrite Nat.add_0_r|].
        rewrite Nat.add_succ_r. apply Hres. lia. }
  cbn [retry_loop]. unfold tried_again, effects_of, transport_errors in *.
  cbn [seq omap list_omap] in *.
  destruct (doRequest attempt) as [resp|err] eqn:Hd.
  - unfold retryable in *.
    destruct (StatusCode resp =? 403)%Z eqn:E403.
    { eapply Hnext; [done|done| |reflexivity].
      destruct (0 <? attempt); by rewrite <- ?app_assoc. }
    destruct (StatusCode resp =? 429)%Z eqn:E429.
    { eapply Hnext; [done|done| |reflexivity].
      destruct (0 <? attempt); by rewrite <- ?app_assoc. }
    destruct (500 <=? StatusCode resp)%Z eqn:E500.
    { eapply Hnext; [done|done| |reflexivity].
      destruct (0 <? attempt); by rewrite <- ?app_assoc. }
    exists (Some resp). cbn [attempts_made]. unfold tried_again, retryable. rewrite Hd.
    rewrite E403, E429, E500. cbn [orb seq omap list_omap fmap list_fmap mjoin list_join].
    unfold effects_of, retryable. rewrite Hd, E403, E429, E500. cbn [orb].
    rewrite !app_nil_r.
    split; [by destruct (0 <? attempt); rewrite ?app_nil_r|]. exists 0. rewrite Nat.add_0_r.
    split; [lia|]. split; [done|]. split; [done|]. intros i Hi. lia.
  - eapply (Hnext (Some err) (if 0 <? attempt then log ++ [Sleep attempt] else log));
      [done | apply last_error_cons | | reflexivity].
    destruct (0 <? attempt); by rewrite ?app_nil_r.
Qed.

(** The response that RequestWithRetry returns. *)
Lemma RequestWithRetry_inl cfg resp :
  (RequestWithRetry doRequest cfg).1 = inl resp ->
  exists k, k < Z.to_nat (config.MaxRetries cfg) /\ doRequest k = inl resp /\
            retryable (StatusCode resp) = false /\
            forall i, i < k -> tried_again i = true.
Proof.
  unfold RequestWithRetry.
  destruct (retry_loop_char (Z.to_nat (config.MaxRetries cfg)) 0 None []) as (res & -> & Hres).
  destruct res as [resp'|]; [|done]. simpl. by intros [= <-].
Qed.

(** X12.  RequestWithRetry returns a response exactly when one of the
    MaxRetries attempts ends in a status other than 403, 429 and 5xx while
    every attempt before it ended in a transport error or in one of these
    statuses; the response returned is the one of that attempt. *)
Theorem RequestWithRetry_returns_first_final (cfg : config.Config) (resp : Response) :
  (RequestWithRetry doRequest cfg).1 = inl resp <->
  exists k, k < Z.to_nat (config.MaxRetries cfg) /\ doRequest k = inl resp /\
            retryable (StatusCode resp) = false /\
            forall i, i < k -> tried_again i = true.
Proof.
  split; [apply RequestWithRetry_inl|].
  intros (k & Hk & Hd & Hr & Hall). unfold RequestWithRetry.
  destruct (retry_loop_char (Z.to_nat (config.MaxRetries cfg)) 0 None []) as (res & -> & Hres).
  destruct res as [resp'|]; simpl.
  - destruct Hres as (k' & Hk' & Hd' & Hr' & Hall'). simpl in *.
    destruct (lt_eq_lt_dec k k') as [[Hlt| ->]|Hlt].
    + apply Hall' in Hlt. unfold tried_again in Hlt. rewrite Hd in Hlt. congruence.
    + congruence.
    + apply Hall in Hlt. unfold tried_again in Hlt. rewrite Hd' in Hlt. congruence.
  - specialize (Hres k Hk). simpl in Hres. unfold tried_again in Hres.
    rewrite Hd in Hres. congruence.
Qed.

(** X13.  RequestWithRetry returns an error exactly when every one of
    the MaxRetries attempts ends in a transport error or in a status 403,
    429 or 5xx.  The message then counts the attempts allowed and ends
    with the text of the last transport error, whichever attempt it came
    from, or with the text that fmt prints for a nil error. *)
Theorem RequestWithRetry_gives_up (cfg : config.Config) (err : string) :
  (RequestWithRetry doRequest cfg).1 = inr err <->
  (forall i, i < Z.to_nat (config.MaxRetries cfg) -> tried_again i = true) /\
  err = "all " +:+ format_int (config.MaxRetries cfg) +:+ " retry attempts failed: "
        +:+ format_error (last (transport_errors 0 (Z.to_nat (config.MaxRetries cfg)))).
Proof.
  unfold RequestWithRetry.
  destruct (retry_loop_char (Z.to_nat (config.MaxRetries cfg)) 0 None []) as (res & -> & Hres).
  destruct res as [resp|]; simpl.
  - split; [done|]. intros [Hall _]. destruct Hres as (k & Hk & Hd & Hr & _).
    apply Hall in Hk. unfold tried_again in Hk. simpl in Hd. rewrite Hd in Hk. congruence.
  - rewrite (attempts_made_all _ 0) by done.
    unfold last_error.
    split.
    + intros [= <-]. split; [done|]. by destruct (last _).
    + intros [_ ->]. by destruct (last _).
Qed.

(** X14.  The log of RequestWithRetry: attempt after attempt, a sleep
    before every attempt but the first, a token refresh and the closing of
    the body after a 403, the closing of the body after a 429 or 5xx, and
    nothing after a transport error or after the response that is
    returned.  No more than MaxRetries attempts are made. *)
Theorem RequestWithRetry_effects (cfg : config.Config) :
  (RequestWithRetry doRequest cfg).2 =
    mjoin (effects_of <$> seq 0 (attempts_made (Z.to_nat (config.MaxRetries cfg)) 0)) /\
  attempts_made (Z.to_nat (config.MaxRetries cfg)) 0 <= Z.to_nat (config.MaxRetries cfg).
Proof.
  split; [|apply attempts_made_le]. unfold RequestWithRetry.
  destruct (retry_loop_char (Z.to_nat (config.MaxRetries cfg)) 0 None []) as (res & -> & _).
  by destruct res.
Qed.

End retry_facts.

(** * The handlers and the stream *)
Section handler_facts.
Context `{GoRuntime} `{parser.EncodingJSON} `{!stream.Float64}.

(** X15.  An error of type api_error is the answer of the upstream passed
    on: its status is the status of an attempt that RequestWithRetry made,
    it is neither 200 nor one of the retried statuses 403, 429 and 5xx, and
    its message is the body of that response. *)
Theorem upstream_error_passed_on (doRequest : nat -> client.Attempt) (cfg : config.Config)
    (modelCache : model.Cache) (ends : stream.ReadEnd) (model_ conversationID : string)
    (status : Z) (message : string) :
  api.handleNonStreamingChatCompletion cfg modelCache (client.PostStream doRequest cfg).1
    ends model_ conversationID = Some (api.JSONError status message "api_error") \/
  api.handleStreamingChatCompletion cfg (client.PostStream doRequest cfg).1
    ends model_ conversationID = Some (api.JSONError status message "api_error") ->
  status <> 200%Z /\ retryable status = false /\
  exists k body, k < Z.to_nat (config.MaxRetries cfg) /\
                 doRequest k = inl (client.mkResponse status body) /\
                 message = api.read_all body.
Proof.
  unfold client.PostStream.
  destruct (client.RequestWithRetry doRequest cfg).1 as [resp|err] eqn:Hpost.
  - apply RequestWithRetry_inl in Hpost as (k & Hk & Hd & Hr & _).
    unfold api.handleNonStreamingChatCompletion, api.handleStreamingChatCompletion.
    destruct (decide (client.StatusCode resp <> 200%Z)) as [Hs|Hs].
    + intros [[= <- <-]|[= <- <-]]; (split; [done|]); (split; [done|]);
        exists k, (client.Body resp); by destruct resp.
    + intros [Hn|Hn]; exfalso.
      * destruct (stream.CollectStreamResult _ _ _) as [[result|err]|]; simpl in Hn;
          [|done|done].
        by destruct (stream.CalculateTokensFromContextUsage _ _ _ _).
      * by destruct (stream.StreamToOpenAI _ _ _ _ _).
  - by intros [|].
Qed.

(** The tool calls and the contents among the events, and among what is
    sent to the client. *)
Definition tool_uses (events : list stream.KiroEvent) : list parser.ToolCall :=
  omap (fun e => match e with stream.ToolUseEvent tc => Some tc | _ => None end) events.

Definition content_of (events : list stream.KiroEvent) : list string :=
  omap (fun e => match e with stream.ContentEvent c => Some c | _ => None end) events.

Definition tool_deltas (out : list stream.Output) : list (nat * parser.ToolCall) :=
  omap (fun o => match o with
                 | stream.Data c =>
                     match stream.delta c with
                     | stream.DeltaToolCall i tc => Some (i, tc)
                     | _ => None
                     end
                 | _ => None
                 end) out.

Definition content_deltas (out : list stream.Output) : list string :=
  omap (fun o => match o with
                 | stream.Data c =>
                     match stream.delta c with
                     | stream.DeltaContent content => Some content
                     | _ => None
                     end
                 | _ => None
                 end) out.

Lemma concat_cons (x : string) (l : list string) :
  String.concat "" (x :: l) = x +:+ String.concat "" l.
Proof. destruct l; simpl; [by rewrite string_app_nil_r | done]. Qed.

Lemma concat_app (l k : list string) :
  String.concat "" (l ++ k) = String.concat "" l +:+ String.concat "" k.
Proof.
  induction l as [|x l IH]; [done|].
  rewrite <- app_comm_cons, !concat_cons, IH. by rewrite string_app_assoc.
Qed.

Lemma stream_events_deltas model_ conversationID cfg events chunkIndex toolCallIndex :
  tool_deltas (stream.stream_events model_ conversationID cfg events chunkIndex
                 toolCallIndex).1
  = zip (seq toolCallIndex (length (tool_uses events))) (tool_uses events) /\
  String.concat "" (content_deltas (stream.stream_events model_ conversationID cfg events
                                      chunkIndex toolCallIndex).1)
  = String.concat "" (content_of events).
Proof.
  revert chunkIndex toolCallIndex.
  induction events as [|event events IH]; intros chunkIndex toolCallIndex; [done|].
  cbn [stream.stream_events].
  destruct event as [content|thinkingContent isFirst isLast|toolUse|credits|percentage].
  - destruct (IH (S chunkIndex) toolCallIndex) as [IH1 IH2].
    destruct (stream.stream_events _ _ _ events _ _) as [rest last_].
    unfold tool_uses, content_of in *. cbn [omap list_omap fst] in *.
    destruct (decide (content <> "")) as [Hc|Hc].
    + unfold tool_deltas, content_deltas in *. cbn [omap list_omap stream.delta
        stream.createOpenAIContentChunk stream.createOpenAIDeltaChunk fst].
      split; [done|]. by rewrite !concat_cons, IH2.
    + apply dec_stable in Hc as ->. cbn [fst]. split; [done|]. by rewrite concat_cons, IH2.
  - destruct (IH (S chunkIndex) toolCallIndex) as [IH1 IH2].
    destruct (stream.stream_events _ _ _ events _ _) as [rest last_].
    unfold tool_uses, content_of in *. cbn [omap list_omap fst] in *.
    destruct (decide _); [|done].
    unfold tool_deltas, content_deltas in *. by cbn [omap list_omap stream.delta
      stream.createOpenAIReasoningChunk stream.createOpenAIDeltaChunk fst].
  - destruct (IH (S chunkIndex) (S toolCallIndex)) as [IH1 IH2].
    destruct (stream.stream_events _ _ _ events _ _) as [rest last_].
    unfold tool_uses, content_of in *. cbn [omap list_omap fst length seq zip zip_with] in *.
    unfold tool_deltas, content_deltas in *. cbn [omap list_omap stream.delta
      stream.createOpenAIToolCallChunk stream.createOpenAIDeltaChunk fst].
    split; [by f_equal | done].
  - destruct (IH (S chunkIndex) toolCallIndex) as [IH1 IH2].
    by destruct (stream.stream_events _ _ _ events _ _) as [rest last_].
  - destruct (IH (S chunkIndex) toolCallIndex) as [IH1 IH2].
    by destruct (stream.stream_events _ _ _ events _ _) as [rest last_].
Qed.

Lemma tool_deltas_app out out' : tool_deltas (out ++ out') = tool_deltas out ++ tool_deltas out'.
Proof. apply omap_app. Qed.

Lemma content_deltas_app out out' :
  content_deltas (out ++ out') = content_deltas out ++ content_deltas out'.
Proof. apply omap_app. Qed.

Lemma StreamToOpenAI_deltas response model_ conversationID enable cfg out :
  stream.StreamToOpenAI response model_ conversationID enable cfg = Some out ->
  exists parsed,
    stream.ParseKiroStream response enable cfg = Some parsed /\
    tool_deltas out
    = zip (seq 0 (length (tool_uses (stream.events parsed)))) (tool_uses (stream.events parsed)) /\
    String.concat "" (content_deltas out) = String.concat "" (content_of (stream.events parsed)).
Proof.
  unfold stream.StreamToOpenAI.
  destruct (stream.ParseKiroStream response enable cfg) as [parsed|]; [|done].
  cbn [mbind option_bind].
  destruct (stream_events_deltas model_ conversationID cfg (stream.events parsed) 0 0)
    as [Q1 Q2].
  destruct (stream.stream_events _ _ _ _ _ _) as [out' chunkIndex]. cbn [fst] in *.
  intros Ho. exists parsed. split; [done|].
  destruct (stream.errs parsed); injection Ho as <-;
    rewrite tool_deltas_app, content_deltas_app, app_nil_r, Q1;
    (split; [done|]); by rewrite app_nil_r.
Qed.

(** X16.  The tool calls that StreamToOpenAI sends are the tool-use
    events of the parsed stream, all of them and in their order, and they
    are numbered 0, 1, 2, ... *)
Theorem StreamToOpenAI_tool_calls (response : stream.Body) (model_ conversationID : string)
    (enable : bool) (cfg : config.Config) (out : list stream.Output) :
  stream.StreamToOpenAI response model_ conversationID enable cfg = Some out ->
  (tool_deltas out).*1 = seq 0 (length (tool_deltas out)) /\
  exists parsed,
    stream.ParseKiroStream response enable cfg = Some parsed /\
    (tool_deltas out).*2 = tool_uses (stream.events parsed).
Proof.
  intros (parsed & Hp & Ht & _)%StreamToOpenAI_deltas. rewrite Ht.
  assert (length (seq 0 (length (tool_uses (stream.events parsed))))
          = length (tool_uses (stream.events parsed))) as Hl by apply length_seq.
  split.
  - rewrite fst_zip by lia. rewrite length_zip_with, Hl. f_equal. lia.
  - exists parsed. split; [done|]. rewrite snd_zip by lia. done.
Qed.




(** ** Tool calls in brackets *)

Lemma foldl_parse_match responseText n ms st :
  st.2 = n + length st.1 ->
  parser.ID <$> st.1 = parser.GenerateToolCallID <$> seq n (length st.1) ->
  Forall (fun tc => parser.Type_ tc = "function" /\
                    exists args, parser.Arguments tc = parser.Marshal args) st.1 ->
  let st' := foldl (bracket.parse_match responseText) st ms in
  st'.2 = n + length st'.1 /\
  parser.ID <$> st'.1 = parser.GenerateToolCallID <$> seq n (length st'.1) /\
  Forall (fun tc => parser.Type_ tc = "function" /\
                    exists args, parser.Arguments tc = parser.Marshal args) st'.1 /\
  length st'.1 <= length st.1 + length ms.
Proof.
  revert st. induction ms as [|m ms IH]; intros st Q1 Q2 Q3; cbn [foldl].
  { repeat split; try done. simpl. lia. }
  assert (Hstep : let st1 := bracket.parse_match responseText st m in
            st1.2 = n + length st1.1 /\
            parser.ID <$> st1.1 = parser.GenerateToolCallID <$> seq n (length st1.1) /\
            Forall (fun tc => parser.Type_ tc = "function" /\
                              exists args, parser.Arguments tc = parser.Marshal args) st1.1 /\
            length st1.1 <= S (length st.1)).
  { destruct st as [calls k]. cbn [fst snd] in *. unfold bracket.parse_match.
    assert (Hsame : k = n + length calls /\
              parser.ID <$> calls = parser.GenerateToolCallID <$> seq n (length calls) /\
              Forall (fun tc => parser.Type_ tc = "function" /\
                                exists args, parser.Arguments tc = parser.Marshal args) calls /\
              length calls <= S (length calls)) by (repeat split; try done; lia).
    destruct (m !! 0) as [[start text]|]; [|done].
    destruct (m !! 1) as [[? funcName]|]; [|done].
    destruct (strings_Index _ _) as [jsonStart|]; [|done].
    destruct (parser.FindMatchingBrace _ _) as [jsonEnd|]; [|done].
    destruct (parser.Unmarshal _) as [args|]; [|done].
    cbn [fst snd]. rewrite length_app. cbn [length]. rewrite Nat.add_1_r.
    split; [lia|]. split.
    - rewrite fmap_app, seq_S, fmap_app, Q2. cbn [fmap list_fmap parser.ID]. by subst k.
    - split; [|lia]. apply Forall_app. split; [done|]. apply Forall_singleton. eauto. }
  destruct Hstep as (S1 & S2 & S3 & S4).
  destruct (IH _ S1 S2 S3) as (I1 & I2 & I3 & I4).
  split; [done|]. split; [done|]. split; [done|]. simpl in *. lia.
Qed.

(** X18.  The tool calls that ParseBracketToolCalls returns have the type
    "function", arguments that json.Marshal wrote, and identifiers drawn
    one after the other from the generator; there is at most one call for
    each match of the pattern, and the count of identifiers drawn grows by
    the number of calls. *)
Theorem ParseBracketToolCalls_calls (responseText : string) (n : nat) :
  let calls := (bracket.ParseBracketToolCalls responseText n).1 in
  (bracket.ParseBracketToolCalls responseText n).2 = n + length calls /\
  parser.ID <$> calls = parser.GenerateToolCallID <$> seq n (length calls) /\
  Forall (fun tc => parser.Type_ tc = "function" /\
                    exists args, parser.Arguments tc = parser.Marshal args) calls /\
  length calls <= length (regexp.FindAllStringSubmatchIndex bracket.pattern responseText).
Proof.
  unfold bracket.ParseBracketToolCalls.
  destruct (_ || _).
  { cbn. repeat split; try done; lia. }
  by apply (foldl_parse_match responseText n _ ([], n)).
Qed.

End handler_facts.

(** An upstream that rejects the request. *)
Definition rejecting : nat -> client.Attempt :=
  fun _ => inl (client.mkResponse 400 ["Improperly formed request."]).

Lemma upstream_error_passed_on_witness :
  400%Z <> 200%Z /\ retryable 400 = false /\
  exists k body, k < Z.to_nat (config.MaxRetries default_config) /\
                 rejecting k = inl (client.mkResponse 400 body) /\
                 "Improperly formed request." = api.read_all body.
Proof.
  apply (@upstream_error_passed_on canonical_runtime reference_json reference_float64
           rejecting default_config empty_cache stream.EOF "claude-sonnet-4" "conversation").
  left. reflexivity.
Defined.

Lemma StreamToOpenAI_tool_calls_witness :
  exists out,
    @stream.StreamToOpenAI canonical_runtime reference_json ([weather_stream], stream.EOF)
      "claude-sonnet-4" "conversation" true default_config = Some out /\
    (tool_deltas out).*1 = seq 0 (length (tool_deltas out)).
Proof.
  eexists. split; [vm_compute; reflexivity|].
  eapply (@StreamToOpenAI_tool_calls canonical_runtime reference_json
            ([weather_stream], stream.EOF) "claude-sonnet-4" "conversation" true default_config).
  vm_compute. reflexivity.
Defined.



(** * The token manager: refreshing, saving and loading *)
Section manager_facts.
Context `{auth.Library}.
Import auth.

Lemma refreshTokenKiroDesktop_failure m w err m' w' :
  refreshTokenKiroDesktop m w = (Some err, m', w') -> m' = m /\ w' = w.
Proof.
  unfold refreshTokenKiroDesktop.
  case_bool_decide; [by intros [= _ <- <-]|].
  destruct (http_Do w _) as [e|[StatusCode body]]; [by intros [= _ <- <-]|].
  case_bool_decide; [by intros [= _ <- <-]|].
  destruct (Decode_DesktopResult body) as [result|e]; [|by intros [= _ <- <-]].
  case_bool_decide; [by intros [= _ <- <-]|].
  unfold mbind, Eff_bind, mret, Eff_ret, time_Now.
  by destruct (save_credentials _ _) as [[] w''].
Qed.

Lemma refreshTokenAWSSSOOIDC_failure m w err m' w' :
  refreshTokenAWSSSOOIDC m w = (Some err, m', w') -> m' = m /\ w' = w.
Proof.
  unfold refreshTokenAWSSSOOIDC.
  repeat (case_bool_decide; [by intros [= _ <- <-]|]).
  destruct (http_Do w _) as [e|[StatusCode body]]; [by intros [= _ <- <-]|].
  case_bool_decide; [by intros [= _ <- <-]|].
  destruct (Decode_OIDCResult body) as [result|e]; [|by intros [= _ <- <-]].
  case_bool_decide; [by intros [= _ <- <-]|].
  unfold mbind, Eff_bind, mret, Eff_ret, time_Now.
  by destruct (save_credentials _ _) as [[] w''].
Qed.

Lemma refreshTokenRequest_failure m w err m' w' :
  refreshTokenRequest m w = (Some err, m', w') -> m' = m /\ w' = w.
Proof.
  unfold refreshTokenRequest. destruct (authType m);
    [apply refreshTokenKiroDesktop_failure | apply refreshTokenAWSSSOOIDC_failure].
Qed.

(** X19.  A refresh that fails changes nothing: ForceRefresh then returns
    the error of the refresh as it is, the manager holds the tokens and the
    expiry it held before, nothing is written to the credentials file or
    the database, and the clock is not read. *)
Theorem ForceRefresh_failure_changes_nothing (m : Manager) (w : World) (err : string)
    (m' : Manager) (w' : World) :
  ForceRefresh m w = (inr err, m', w') ->
  m' = m /\ w' = w /\ (refreshTokenRequest m w).1.1 = Some err.
Proof.
  unfold ForceRefresh, mbind, Eff_bind, mret, Eff_ret.
  destruct (refreshTokenRequest m w) as [[[e|] m1] w1] eqn:Hr; [|by intros [=]].
  intros [= <- <- <-]. by apply refreshTokenRequest_failure in Hr as [-> ->].
Qed.

(** ** Saving *)

(** Two worlds that differ in the stored credentials only. *)
Definition same_surroundings (w w' : World) : Prop :=
  now w' = now w /\ ticks w' = ticks w /\ writable w' = writable w /\ http_Do w' = http_Do w.

Lemma saveCredentialsToSQLite_rows m w :
  let w' := (saveCredentialsToSQLite m w).2 in
  same_surroundings w w' /\ files w' = files w /\
  forall path, dom <$> (databases w' !! path) = dom <$> (databases w !! path).
Proof.
  unfold saveCredentialsToSQLite.
  assert (Hsame : same_surroundings w w /\ files w = files w /\
            forall path, dom <$> (databases w !! path) = dom <$> (databases w !! path))
    by done.
  case_bool_decide; [done|].
  destruct (databases w !! expandPath (sqliteDB m)) as [table|] eqn:Ht; [|done].
  assert (Hupdate : forall key jsonData, is_Some (table !! key) ->
            forall path,
              dom <$> (<[expandPath (sqliteDB m) := <[key := jsonData]> table]> (databases w)
                       !! path)
              = dom <$> (databases w !! path)).
  { intros key jsonData [v Hv] path.
    destruct (decide (expandPath (sqliteDB m) = path)) as [<-|Hne].
    - rewrite lookup_insert_eq, Ht. simpl. f_equal. rewrite dom_insert_L.
      apply elem_of_dom_2 in Hv. set_solver.
    - by rewrite lookup_insert_ne. }
  destruct (bool_decide (sqliteTokenKey m <> "")); simpl.
  - case_bool_decide as Hk; simpl.
    + split; [done|]. split; [done|]. by apply Hupdate.
    + destruct (first_row table sqliteTokenKeys) as [[key value]|] eqn:Hf; [|done].
      simpl. split; [done|]. split; [done|]. apply Hupdate.
      unfold first_row in Hf. destruct (list_find _ _) as [[i k]|] eqn:Hl; [|done].
      apply list_find_Some in Hl as (_ & Hs & _). simpl in Hf.
      destruct (table !! k) eqn:Hk'; [|done]. by injection Hf as <- <-.
  - destruct (first_row table sqliteTokenKeys) as [[key value]|] eqn:Hf; [|done].
    simpl. split; [done|]. split; [done|]. apply Hupdate.
    unfold first_row in Hf. destruct (list_find _ _) as [[i k]|] eqn:Hl; [|done].
    apply list_find_Some in Hl as (_ & Hs & _). simpl in Hf.
    destruct (table !! k) eqn:Hk'; [|done]. by injection Hf as <- <-.
Qed.

Lemma saveCredentialsToFile_files m w :
  let w' := (saveCredentialsToFile m w).2 in
  same_surroundings w w' /\ databases w' = databases w /\
  forall path, path <> expandPath (credsFile m) -> files w' !! path = files w !! path.
Proof.
  unfold saveCredentialsToFile. case_bool_decide; [done|].
  destruct (writable w _); [|done]. simpl. split; [done|]. split; [done|].
  intros path Hp. by rewrite lookup_insert_ne.
Qed.

Lemma save_credentials_ticks m w : ticks (save_credentials m w).2 = ticks w.
Proof.
  unfold save_credentials. case_bool_decide.
  - by destruct (saveCredentialsToSQLite_rows m w) as ((_ & Ht & _) & _).
  - by destruct (saveCredentialsToFile_files m w) as ((_ & Ht & _) & _).
Qed.

(** X20.  Saving the credentials touches the configured store only and
    never adds to a database: with a database configured, the files stay
    as they are and every database keeps its rows' keys (the row is
    updated, not inserted); without one, the databases stay as they are
    and no file other than the credentials file changes.  The clock and the
    network are left alone. *)
Theorem save_credentials_store (m : Manager) (w : World) :
  let w' := (save_credentials m w).2 in
  same_surroundings w w' /\
  (forall path, dom <$> (databases w' !! path) = dom <$> (databases w !! path)) /\
  (forall path, path <> expandPath (credsFile m) -> files w' !! path = files w !! path) /\
  (sqliteDB m <> "" -> files w' = files w) /\
  (sqliteDB m = "" -> databases w' = databases w).
Proof.
  unfold save_credentials. case_bool_decide as Hdb.
  - destruct (saveCredentialsToSQLite_rows m w) as (Hs & Hf & Hd).
    cbn zeta in *. split; [done|]. split; [done|]. split; [by rewrite Hf|]. done.
  - destruct (saveCredentialsToFile_files m w) as (Hs & Hd & Hf).
    cbn zeta in *. split; [done|]. split; [by rewrite Hd|]. split; [done|]. done.
Qed.

(** ** A refresh that succeeds *)

Lemma refreshTokenKiroDesktop_success m w m' w' :
  refreshTokenKiroDesktop m w = (None, m', w') ->
  refreshToken m' <> "" /\
  (exists req body result,
     http_Do w req = inr (200%Z, body) /\
     Decode_DesktopResult body = inl result /\
     accessToken m' = dr_AccessToken result /\
     expiresAt m' = (now w (ticks w) + seconds (wrap64 (dr_ExpiresIn result - 60)))%Z) /\
  ticks w' = S (ticks w).
Proof.
  unfold refreshTokenKiroDesktop.
  case_bool_decide as Hr; [by intros [=]|].
  destruct (http_Do w _) as [e|[StatusCode body]] eqn:Hd; [by intros [=]|].
  case_bool_decide as Hs; [by intros [=]|]. subst StatusCode.
  destruct (Decode_DesktopResult body) as [result|e] eqn:Hb; [|by intros [=]].
  case_bool_decide as Ha; [by intros [=]|].
  unfold mbind, Eff_bind, mret, Eff_ret, time_Now.
  match goal with
  | |- context [save_credentials ?m1 ?w1] =>
      pose proof (save_credentials_ticks m1 w1) as Ht;
      destruct (save_credentials m1 w1) as [[] w'']
  end.
  cbn [snd ticks] in Ht. intros [= <- <-].
  split; [by repeat case_bool_decide|].
  split; [|done]. eexists _, body, result. split; [exact Hd|]. by repeat case_bool_decide.
Qed.

Lemma refreshTokenAWSSSOOIDC_success m w m' w' :
  refreshTokenAWSSSOOIDC m w = (None, m', w') ->
  refreshToken m' <> "" /\
  (exists req body result,
     http_Do w req = inr (200%Z, body) /\
     Decode_OIDCResult body = inl result /\
     accessToken m' = or_AccessToken result /\
     expiresAt m' = (now w (ticks w) + seconds (wrap64 (or_ExpiresIn result - 60)))%Z) /\
  ticks w' = S (ticks w).
Proof.
  unfold refreshTokenAWSSSOOIDC.
  case_bool_decide as Hr; [by intros [=]|].
  repeat (case_bool_decide; [by intros [=]|]).
  match goal with |- context [http_Do w ?r] => generalize r; intros req end.
  destruct (http_Do w req) as [e|[StatusCode body]] eqn:Hd; [by intros [=]|].
  case_bool_decide as Hs; [by intros [=]|]. subst StatusCode.
  destruct (Decode_OIDCResult body) as [result|e] eqn:Hb; [|by intros [=]].
  case_bool_decide as Ha; [by intros [=]|].
  unfold mbind, Eff_bind, mret, Eff_ret, time_Now.
  match goal with
  | |- context [save_credentials ?m1 ?w1] =>
      pose proof (save_credentials_ticks m1 w1) as Ht;
      destruct (save_credentials m1 w1) as [[] w'']
  end.
  cbn [snd ticks] in Ht. intros [= <- <-].
  split; [by repeat case_bool_decide|].
  split; [|done]. eexists _, body, result. split; [exact Hd|]. by repeat case_bool_decide.
Qed.

Lemma wrap64_small (z : Z) :
  (-9223372036854775808 <= z < 9223372036854775808)%Z -> wrap64 z = z.
Proof. intros Hz. unfold wrap64. rewrite Z.mod_small; lia. Qed.

(** What the answer of the refresh endpoint grants: the access token and
    the life time in seconds. *)
Definition granted (t : AuthType) (body : string) : option (string * Z) :=
  match t with
  | AuthTypeKiroDesktop =>
      match Decode_DesktopResult body with
      | inl result => Some (dr_AccessToken result, dr_ExpiresIn result)
      | inr _ => None
      end
  | AuthTypeAWSSSOOIDC =>
      match Decode_OIDCResult body with
      | inl result => Some (or_AccessToken result, or_ExpiresIn result)
      | inr _ => None
      end
  end.

(** X21.  The token that ForceRefresh returns is never the cached one: it
    is the non-empty access token of an answer with status 200 that the
    refresh endpoint gave to this call.  The manager holds it afterwards
    and still holds a refresh token.  Its expiry is the one reading of the
    clock plus the Duration that the code computes from the life time
    granted: the life time less 60, times time.Second, both in 64-bit
    arithmetic that wraps around; for a life time from -9223371976 to
    9223372096 seconds nothing wraps, and the expiry is one minute before
    the life time granted. *)
Theorem ForceRefresh_success (m : Manager) (w : World) (token : string)
    (m' : Manager) (w' : World) :
  ForceRefresh m w = (inl token, m', w') ->
  token <> "" /\ accessToken m' = token /\ refreshToken m' <> "" /\
  ticks w' = S (ticks w) /\
  exists req body expiresIn,
    http_Do w req = inr (200%Z, body) /\
    granted (authType m) body = Some (token, expiresIn) /\
    expiresAt m' = (now w (ticks w) + wrap64 (wrap64 (expiresIn - 60) * second))%Z /\
    ((-9223371976 <= expiresIn <= 9223372096)%Z ->
     expiresAt m' = (now w (ticks w) + (expiresIn - 60) * second)%Z).
Proof.
  unfold ForceRefresh, mbind, Eff_bind, mret, Eff_ret.
  destruct (refreshTokenRequest m w) as [[[e|] m1] w1] eqn:Hr; [by intros [=]|].
  intros [= <- <- <-].
  split; [by eapply refreshTokenRequest_nonempty|]. split; [done|].
  unfold refreshTokenRequest, granted in *. destruct (authType m).
  - apply refreshTokenKiroDesktop_success in Hr
      as (Hrt & (req & body & result & Hd & Hb & Ha & He) & Ht).
    split; [done|]. split; [done|]. exists req, body, (dr_ExpiresIn result).
    rewrite Hb, Ha. split; [done|]. split; [done|]. split; [exact He|].
    intros Hin. rewrite He. unfold seconds, second.
    rewrite (wrap64_small (_ - 60)) by lia. by rewrite wrap64_small by lia.
  - apply refreshTokenAWSSSOOIDC_success in Hr
      as (Hrt & (req & body & result & Hd & Hb & Ha & He) & Ht).
    split; [done|]. split; [done|]. exists req, body, (or_ExpiresIn result).
    rewrite Hb, Ha. split; [done|]. split; [done|]. split; [exact He|].
    intros Hin. rewrite He. unfold seconds, second.
    rewrite (wrap64_small (_ - 60)) by lia. by rewrite wrap64_small by lia.
Qed.

(** ** Loading *)

(** X23.  Loading from the SQLite database never blanks a credential: a
    token, client id, client secret, profile or SSO region that the
    manager holds is replaced by a non-empty value or kept.  The region,
    the paths and the authentication type are not touched. *)
Theorem loadCredentialsFromSQLite_keeps (m : Manager) (dbPath : string) (w : World) :
  let m' := loadCredentialsFromSQLite m dbPath w in
  (accessToken m <> "" -> accessToken m' <> "") /\
  (refreshToken m <> "" -> refreshToken m' <> "") /\
  (profileArn m <> "" -> profileArn m' <> "") /\
  (ssoRegion m <> "" -> ssoRegion m' <> "") /\
  (clientID m <> "" -> clientID m' <> "") /\
  (clientSecret m <> "" -> clientSecret m' <> "") /\
  region m' = region m /\ credsFile m' = credsFile m /\ sqliteDB m' = sqliteDB m /\
  authType m' = authType m.
Proof.
  unfold loadCredentialsFromSQLite.
  destruct (databases w !! expandPath dbPath) as [table|]; [|done].
  destruct (first_row table sqliteTokenKeys) as [[key tokenRow]|];
    [destruct (Unmarshal_TokenData tokenRow) as [tokenData|]|];
    (destruct (first_row table sqliteRegistrationKeys) as [[? regRow]|];
     [destruct (Unmarshal_DeviceRegistration regRow) as [regData|]|]);
    cbn zeta; repeat case_bool_decide; try destruct (parseTime _);
    cbn; repeat split; try done; naive_solver.
Qed.

(** ** Failure *)

Lemma isTokenExpiringSoonUnlocked_stores m w :
  files (isTokenExpiringSoonUnlocked m w).2 = files w /\
  databases (isTokenExpiringSoonUnlocked m w).2 = databases w.
Proof. unfold isTokenExpiringSoonUnlocked. by destruct (IsZero _). Qed.

Lemma isTokenExpiredUnlocked_stores m w :
  files (isTokenExpiredUnlocked m w).2 = files w /\
  databases (isTokenExpiredUnlocked m w).2 = databases w.
Proof. unfold isTokenExpiredUnlocked. by destruct (IsZero _). Qed.

Lemma refresh_or_degrade_failure m w err m' w' :
  refresh_or_degrade m w = (inr err, m', w') ->
  String.prefix "failed to obtain access token: " err = true /\
  m' = m /\ files w' = files w /\ databases w' = databases w.
Proof.
  unfold refresh_or_degrade, mbind, Eff_bind.
  destruct (refreshTokenRequest m w) as [[[e|] m1] w1] eqn:Hr; [|by intros [=]].
  apply refreshTokenRequest_failure in Hr as [-> ->].
  destruct (bool_decide (sqliteDB m <> "") && bool_decide (accessToken m <> "")).
  - pose proof (isTokenExpiredUnlocked_stores m w) as [Hf Hd].
    destruct (isTokenExpiredUnlocked m w) as [[] w2]; cbn [snd negb] in *; [|by intros [=]].
    intros [= <- <- <-]. split; [apply prefix_app | done].
  - intros [= <- <- <-]. split; [apply prefix_app | done].
Qed.

(** X24.  When GetAccessToken fails, its error starts with "failed to
    obtain access token: ", nothing has been written to the credentials
    file or to a database, and the manager is as it was or as the
    database had it. *)
Theorem GetAccessToken_failure (m : Manager) (w : World) (err : string)
    (m' : Manager) (w' : World) :
  GetAccessToken m w = (inr err, m', w') ->
  String.prefix "failed to obtain access token: " err = true /\
  files w' = files w /\ databases w' = databases w /\
  (m' = m \/ exists w1, databases w1 = databases w /\
                        m' = loadCredentialsFromSQLite m (sqliteDB m) w1).
Proof.
  assert (Hdegrade : forall w0 m0, files w0 = files w -> databases w0 = databases w ->
            (m0 = m \/ exists w1, databases w1 = databases w /\
                                  m0 = loadCredentialsFromSQLite m (sqliteDB m) w1) ->
            refresh_or_degrade m0 w0 = (inr err, m', w') ->
            String.prefix "failed to obtain access token: " err = true /\
            files w' = files w /\ databases w' = databases w /\
            (m' = m \/ exists w1, databases w1 = databases w /\
                                  m' = loadCredentialsFromSQLite m (sqliteDB m) w1)).
  { intros w0 m0 Hf Hd Hm (Hp & -> & Hf' & Hd')%refresh_or_degrade_failure.
    by rewrite Hf', Hd'. }
  assert (Hreload : forall w0, files w0 = files w -> databases w0 = databases w ->
            reload_or_refresh m w0 = (inr err, m', w') ->
            String.prefix "failed to obtain access token: " err = true /\
            files w' = files w /\ databases w' = databases w /\
            (m' = m \/ exists w1, databases w1 = databases w /\
                                  m' = loadCredentialsFromSQLite m (sqliteDB m) w1)).
  { intros w0 Hf Hd. unfold reload_or_refresh.
    destruct (bool_decide (sqliteDB m <> "")); [|apply Hdegrade; auto].
    unfold mbind at 1, Eff_bind at 1.
    pose proof (isTokenExpiringSoonUnlocked_stores m w0) as [Hf1 Hd1].
    destruct (isTokenExpiringSoonUnlocked m w0) as [[] w1]; cbn [snd] in *;
      [|apply Hdegrade; auto; congruence].
    unfold mbind at 1, Eff_bind at 1, reload.
    assert (Hm : loadCredentialsFromSQLite m (sqliteDB m) w1 = m \/
                 exists w2, databases w2 = databases w /\
                            loadCredentialsFromSQLite m (sqliteDB m) w1
                            = loadCredentialsFromSQLite m (sqliteDB m) w2).
    { right. exists w1. split; [congruence|done]. }
    case_bool_decide; [|apply Hdegrade; auto; congruence].
    unfold mbind at 1, Eff_bind at 1.
    pose proof (isTokenExpiringSoonUnlocked_stores
                  (loadCredentialsFromSQLite m (sqliteDB m) w1) w1) as [Hf2 Hd2].
    destruct (isTokenExpiringSoonUnlocked _ w1) as [[] w2]; cbn [snd] in *;
      [apply Hdegrade; auto; congruence | by intros [=]]. }
  unfold GetAccessToken. case_bool_decide; [|by apply Hreload].
  unfold mbind at 1, Eff_bind at 1.
  pose proof (isTokenExpiringSoonUnlocked_stores m w) as [Hf1 Hd1].
  destruct (isTokenExpiringSoonUnlocked m w) as [[] w1]; cbn [snd negb] in *;
    [by apply Hreload | by intros [=]].
Qed.

End manager_facts.

(** A world whose refresh endpoint is down, and a manager with a token
    that is valid for an hour to come. *)
Definition refusing_world : auth.World :=
  auth.mkWorld (fun _ => 1700000000 * auth.second)%Z 0 ∅ ∅ (fun _ => true)
    (fun _ => inl "dial tcp: connection refused").

Definition signed_in_manager : auth.Manager :=
  auth.mkManager default_config "refresh-1" "" "us-east-1" "" "" "" "" [] "" ""
    "access-1" (1700003600 * auth.second)%Z auth.AuthTypeKiroDesktop ""
    "https://prod.us-east-1.auth.desktop.kiro.dev/refreshToken"
    "https://q.us-east-1.amazonaws.com" "https://q.us-east-1.amazonaws.com" "0a1b2c3d".

Lemma ForceRefresh_failure_changes_nothing_witness :
  (@auth.ForceRefresh reference_library signed_in_manager refusing_world).1.2
  = signed_in_manager /\
  (@auth.ForceRefresh reference_library signed_in_manager refusing_world).2 = refusing_world /\
  (@auth.refreshTokenRequest reference_library signed_in_manager refusing_world).1.1
  = Some "dial tcp: connection refused".
Proof.
  apply (@ForceRefresh_failure_changes_nothing reference_library signed_in_manager
           refusing_world "dial tcp: connection refused").
  vm_compute. reflexivity.
Defined.

Lemma ForceRefresh_success_witness :
  exists m' w',
    @auth.ForceRefresh reference_library signed_in_manager granting_world
    = (inl "access-2", m', w') /\
    auth.accessToken m' = "access-2" /\
    auth.ticks w' = 1.
Proof.
  eexists _, _. split; [vm_compute; reflexivity|].
  edestruct (@ForceRefresh_success reference_library signed_in_manager granting_world
               "access-2") as (_ & Ha & _ & Ht & _); [vm_compute; reflexivity|].
  split; [exact Ha | exact Ht].
Defined.

Lemma GetAccessToken_failure_witness :
  String.prefix "failed to obtain access token: "
    "failed to obtain access token: dial tcp: connection refused" = true /\
  auth.files (@auth.GetAccessToken reference_library desktop_manager refusing_world).2
  = auth.files refusing_world.
Proof.
  edestruct (@GetAccessToken_failure reference_library desktop_manager refusing_world
               "failed to obtain access token: dial tcp: connection refused")
    as (Hp & Hf & _); [vm_compute; reflexivity|].
  split; [exact Hp | exact Hf].
Defined.

(** * The cache and the suggestions *)
Section cache_facts.
Context `{GoRuntime}.
Import model model_cache.

Lemma foldl_insert_models (ms : list Info) (acc : gmap string Info) :
  (forall id info, acc !! id = Some info -> ModelID info = id) ->
  let result := foldl (fun (acc : gmap string Info) m => <[ModelID m := m]> acc) acc ms in
  (forall id info, result !! id = Some info -> ModelID info = id) /\
  (forall id, is_Some (result !! id) <-> is_Some (acc !! id) \/ id ∈ ModelID <$> ms) /\
  size result <= size acc + length ms.
Proof.
  revert acc. induction ms as [|m ms IH]; intros acc Hacc; cbn [foldl].
  { split; [done|]. split; [|simpl; lia]. intros id. rewrite fmap_nil, elem_of_nil. tauto. }
  destruct (IH (<[ModelID m := m]> acc)) as (I1 & I2 & I3).
  { intros id info. destruct (decide (ModelID m = id)) as [<-|Hne].
    - rewrite lookup_insert_eq. by intros [= <-].
    - rewrite lookup_insert_ne by done. apply Hacc. }
  split; [done|]. split.
  - intros id. rewrite I2, lookup_insert_is_Some, fmap_cons, elem_of_cons. split.
    + intros [[->|[_ ?]]|?]; auto.
    + intros [?|[->|?]]; auto. destruct (decide (ModelID m = id)); auto.
  - cbn zeta in I3. etrans; [exact I3|]. cbn [length].
    destruct (acc !! ModelID m) eqn:E.
    + rewrite map_size_insert_Some by done. lia.
    + rewrite map_size_insert_None by done. lia.
Qed.

Lemma GetAllModelIDs_strict (c : Cache) : StronglySorted string_lt (GetAllModelIDs c).
Proof.
  unfold GetAllModelIDs. apply sort_Strings_strict.
  rewrite foldl_snoc_keys. apply NoDup_map_range_keys.
Qed.

(** X25.  Update replaces the models of the cache: afterwards a model is
    valid exactly when it is on the list given, the ids are listed in
    strictly ascending order, every entry is stored under its own id, and
    there are no more entries than the list has.  The token limits set
    before are kept. *)
Theorem Update_replaces (c : Cache) (ms : list Info) :
  (forall id, IsValidModel (Update c ms) id = true <-> id ∈ ModelID <$> ms) /\
  (forall id, id ∈ GetAllModelIDs (Update c ms) <-> id ∈ ModelID <$> ms) /\
  StronglySorted string_lt (GetAllModelIDs (Update c ms)) /\
  (forall id info, models (Update c ms) !! id = Some info -> ModelID info = id) /\
  Size (Update c ms) <= length ms /\
  (forall id, GetMaxInputTokens (Update c ms) id = GetMaxInputTokens c id).
Proof.
  destruct (foldl_insert_models ms ∅) as (I1 & I2 & I3).
  { intros id info. by rewrite lookup_empty. }
  assert (Hvalid : forall id, is_Some (models (Update c ms) !! id) <-> id ∈ ModelID <$> ms).
  { intros id. unfold Update. cbn [models]. rewrite I2, lookup_empty.
    split; [intros [[? [=]]|?]; done | auto]. }
  split; [intros id; unfold IsValidModel; by rewrite bool_decide_eq_true|].
  split; [intros id; by rewrite GetAllModelIDs_elem_of|].
  split; [apply GetAllModelIDs_strict|].
  split; [done|]. split; [|done].
  unfold Size, Update. cbn [models]. cbn zeta in I3. by rewrite map_size_empty in I3.
Qed.

Lemma foldl_filter_snoc (P : string -> bool) (l acc : list string) :
  foldl (fun result m => if P m then result ++ [m] else result) acc l
  = acc ++ filter (fun m => P m = true) l.
Proof.
  revert acc. induction l as [|x l IH]; intros acc; cbn [foldl].
  { by rewrite app_nil_r. }
  rewrite IH. destruct (P x) eqn:E.
  - rewrite filter_cons_True by done. by rewrite <- app_assoc.
  - rewrite filter_cons_False by congruence. done.
Qed.

Lemma StronglySorted_filter {A} (R : relation A) (P : A -> Prop) `{forall x, Decision (P x)}
    (l : list A) :
  StronglySorted R l -> StronglySorted R (filter P l).
Proof.
  induction 1 as [|x l Hs IH Hx]; [constructor|].
  destruct (decide (P x)).
  - rewrite filter_cons_True by done. constructor; [done|].
    apply Forall_forall. intros y [_ Hy]%list_elem_of_filter.
    eapply Forall_forall in Hx; eauto.
  - by rewrite filter_cons_False.
Qed.

Lemma GetModelsByFamily_filter (r : Resolver) (family : string) :
  GetModelsByFamily r family
  = filter (fun m => strings_Contains (strings_ToLower m) (strings_ToLower family) = true)
           (GetAvailableModels r).
Proof. unfold GetModelsByFamily. by rewrite foldl_filter_snoc. Qed.

Lemma strings_Contains_empty (s : string) : strings_Contains s "" = true.
Proof. unfold strings_Contains, strings_Index. by destruct s. Qed.

(** X26.  The suggestions for a model name are taken from the listing of
    GetAvailableModels, in its order and without repetition: they are the
    listed models whose lower-cased name contains the family found in the
    requested name, and all listed models when no family is found. *)
Theorem GetSuggestionsForModel_listed (r : Resolver) (modelName : string) :
  GetSuggestionsForModel r modelName `sublist_of` GetAvailableModels r /\
  StronglySorted string_lt (GetSuggestionsForModel r modelName) /\
  (forall m, m ∈ GetSuggestionsForModel r modelName <->
             m ∈ GetAvailableModels r /\
             strings_Contains (strings_ToLower m)
               (strings_ToLower (resolver.ExtractModelFamily modelName)) = true) /\
  (resolver.ExtractModelFamily modelName = "" ->
   GetSuggestionsForModel r modelName = GetAvailableModels r).
Proof.
  unfold GetSuggestionsForModel.
  destruct (decide (resolver.ExtractModelFamily modelName <> "")) as [Hf|Hf].
  - rewrite GetModelsByFamily_filter.
    split; [apply sublist_filter|].
    split; [apply StronglySorted_filter, GetAvailableModels_sorted|].
    split; [|done]. intros m. rewrite list_elem_of_filter. tauto.
  - apply dec_stable in Hf. rewrite Hf.
    split; [done|]. split; [apply GetAvailableModels_sorted|]. split; [|done].
    intros m. change (strings_ToLower "") with "". rewrite strings_Contains_empty. tauto.
Qed.

(** ** Names that are not Claude models *)

(** X27.  NormalizeModelName changes only names that begin, in lower
    case, with "claude-": every other name is returned as it is, in the
    case it was written in. *)
Theorem NormalizeModelName_other_names (name : string) :
  String.prefix "claude-" (strings_ToLower name) = false ->
  resolver.NormalizeModelName name = name.
Proof.
  intros Hp. destruct (resolver_facts.NormalizeModelName_cases name) as [Hn|Hn]; [|done].
  exfalso.
  inversion Hn;
    match goal with E : _ = strings_ToLower name |- _ => rewrite <- E in Hp end;
    by rewrite prefix_app in Hp.
Qed.

(** X28.  On a name of ASCII bytes ExtractModelFamily returns "haiku",
    "sonnet", "opus" or the empty string, in lower case whatever the case
    of the name, and what it returns is its own family. *)
Theorem ExtractModelFamily_values (name : string) :
  isASCII name = true ->
  resolver.ExtractModelFamily name ∈ [""; "haiku"; "sonnet"; "opus"] /\
  resolver.ExtractModelFamily (resolver.ExtractModelFamily name)
  = resolver.ExtractModelFamily name.
Proof.
  intros Ha. rewrite (resolver_facts.ExtractModelFamily_family_of name Ha).
  assert (Hv : resolver_facts.family_of name ∈ [""; "haiku"; "sonnet"; "opus"]).
  { clear Ha. induction name as [|c name IH].
    - set_unfold; auto.
    - rewrite resolver_facts.family_of_unfold.
      repeat (destruct (regexp.fold_prefix _ _); [set_unfold; auto|]). exact IH. }
  split; [done|].
  assert (Hs : forall w, w ∈ [""; "haiku"; "sonnet"; "opus"] ->
                 resolver.ExtractModelFamily w = w).
  { intros w Hw. rewrite resolver_facts.ExtractModelFamily_family_of.
    - set_unfold in Hw. destruct Hw as [->|[->|[->|[->|[]]]]]; reflexivity.
    - set_unfold in Hw. destruct Hw as [->|[->|[->|[->|[]]]]]; reflexivity. }
  by apply Hs.
Qed.

End cache_facts.

Lemma NormalizeModelName_other_names_witness :
  @resolver.NormalizeModelName canonical_runtime "GPT-4o-2024-08-06" = "GPT-4o-2024-08-06".
Proof. apply (@NormalizeModelName_other_names canonical_runtime). reflexivity. Defined.

Lemma ExtractModelFamily_values_witness :
  @resolver.ExtractModelFamily canonical_runtime "Claude-3-OPUS-latest"
    ∈ [""; "haiku"; "sonnet"; "opus"] /\
  @resolver.ExtractModelFamily canonical_runtime
    (@resolver.ExtractModelFamily canonical_runtime "Claude-3-OPUS-latest")
  = @resolver.ExtractModelFamily canonical_runtime "Claude-3-OPUS-latest".
Proof. apply (@ExtractModelFamily_values canonical_runtime). reflexivity. Defined.

(** * Schemas *)
Section schema_facts.
Context {float64 : Type}.
Import tools.

(** A measure for induction on values. *)
Fixpoint value_size (v : @Value float64) : nat :=
  match v with
  | Slice items => S (foldr (fun item n => value_size item + n) 0 items)
  | Map m => S (map_fold (fun _ item n => value_size item + n) 0 m)
  | _ => 1
  end.

Lemma value_size_item (items : list (@Value float64)) (item : @Value float64) :
  item ∈ items -> value_size item < value_size (Slice items).
Proof.
  cbn [value_size]. induction 1 as [item items|item x items _ IH]; cbn [foldr]; lia.
Qed.

Lemma value_size_entry (m : gmap string (@Value float64)) (key : string)
    (item : @Value float64) :
  m !! key = Some item -> value_size item < value_size (Map m).
Proof.
  intros Hk. cbn [value_size].
  rewrite (map_fold_delete_L _ _ key item m); [lia | intros; lia | done].
Qed.

Lemma sanitize_Map (m : gmap string (@Value float64)) : sanitize (Map m) = Map (SanitizeJSONSchema m).
Proof. done. Qed.

(** What the loop over the items of a slice builds. *)
Lemma foldl_append_item (f : @Value float64 -> @Value float64)
    (items : list (@Value float64)) :
  foldl (fun newArr item => append_item newArr (f item)) NilSlice items
  = match items with [] => NilSlice | _ => Slice (f <$> items) end.
Proof.
  assert (G : forall items l,
            foldl (fun newArr item => append_item newArr (f item)) (Slice l) items
            = Slice (l ++ (f <$> items))).
  { clear. induction items as [|x items IH]; intros l; cbn [foldl].
    - by rewrite app_nil_r.
    - cbn [append_item]. rewrite IH, <- app_assoc. done. }
  destruct items as [|x items]; [done|]. cbn [foldl append_item]. by rewrite G.
Qed.

(** What is done to the items of a slice and to the properties. *)
Definition sanitize_if_map (item : @Value float64) : @Value float64 :=
  match item with
  | Map _ => sanitize item
  | _ => item
  end.

Lemma sanitize_if_map_idempotent (item : @Value float64) :
  sanitize (sanitize item) = sanitize item ->
  sanitize_if_map (sanitize_if_map item) = sanitize_if_map item.
Proof.
  by destruct item.
Qed.

Lemma sanitize_entry_idempotent (key : string) (value value' : @Value float64) :
  (forall u, value_size u < value_size value -> sanitize (sanitize u) = sanitize u) ->
  sanitize (sanitize value) = sanitize value ->
  sanitize_entry sanitize key value = Some value' ->
  sanitize_entry sanitize key value' = Some value'.
Proof.
  intros IH IHv. unfold sanitize_entry.
  destruct (bool_decide (key = "required") && is_empty_slice value) eqn:Hreq; [done|].
  destruct (decide (key = "additionalProperties")) as [|Hap]; [done|].
  destruct value as [|b|f|s|items| |v].
  - intros [= <-]. by rewrite Hreq.
  - intros [= <-]. by rewrite Hreq.
  - intros [= <-]. by rewrite Hreq.
  - intros [= <-]. by rewrite Hreq.
  - rewrite foldl_append_item. intros [= <-].
    destruct items as [|x items].
    + simpl in *. rewrite andb_true_r in Hreq. by rewrite Hreq.
    + cbn [fmap list_fmap is_empty_slice]. rewrite andb_false_r.
      rewrite foldl_append_item.
      cbn [fmap list_fmap]. do 2 f_equal. f_equal.
      * apply (sanitize_if_map_idempotent x).
        apply IH. apply value_size_item. apply list_elem_of_here.
      * rewrite <- list_fmap_compose. apply list_fmap_ext.
        intros i item Hi. apply (sanitize_if_map_idempotent item).
        apply IH. apply value_size_item. apply list_elem_of_further.
        by eapply list_elem_of_lookup_2.
  - intros [= <-]. by rewrite Hreq.
  - destruct (decide (key = "properties")) as [Hp|Hp].
    + intros [= <-]. cbn [is_empty_slice]. rewrite andb_false_r.
      do 2 f_equal. rewrite <- map_fmap_compose. apply map_fmap_ext.
      intros i propValue Hi. apply (sanitize_if_map_idempotent propValue).
      apply IH. by eapply value_size_entry.
    + intros [= <-]. rewrite !sanitize_Map in IHv |- *. cbn [is_empty_slice].
      rewrite andb_false_r. f_equal. exact IHv.
Qed.

Lemma sanitize_idempotent (v : @Value float64) : sanitize (sanitize v) = sanitize v.
Proof.
  remember (value_size v) as n eqn:Hn. revert v Hn.
  induction n as [n IH] using lt_wf_ind. intros v ->.
  destruct v as [| | | | | |m]; try done.
  rewrite !sanitize_Map. f_equal. unfold SanitizeJSONSchema.
  apply map_eq. intros key. rewrite !map_lookup_imap.
  destruct (m !! key) as [value|] eqn:Hk; [|done]. cbn.
  destruct (sanitize_entry sanitize key value) as [value'|] eqn:He; [|done]. cbn.
  pose proof (value_size_entry m key value Hk) as Hlt.
  eapply sanitize_entry_idempotent; [| |exact He].
  - intros u Hu. apply (IH (value_size u)); [lia | done].
  - by apply (IH (value_size value)).
Qed.

(** X29.  SanitizeJSONSchema drops the key additionalProperties and a
    key required whose value is an empty array, keeps every other key of
    the schema and adds none, and sanitizing a sanitized schema changes
    nothing. *)
Theorem SanitizeJSONSchema_idempotent (schema : gmap string (@Value float64)) :
  SanitizeJSONSchema (SanitizeJSONSchema schema) = SanitizeJSONSchema schema /\
  SanitizeJSONSchema schema !! "additionalProperties" = None /\
  (forall key, is_Some (SanitizeJSONSchema schema !! key) <->
     exists value, schema !! key = Some value /\ key <> "additionalProperties" /\
                   (key = "required" -> is_empty_slice value = false)).
Proof.
  split.
  { pose proof (sanitize_idempotent (Map schema)) as Hi. rewrite !sanitize_Map in Hi.
    by injection Hi. }
  assert (Hkeys : forall key, is_Some (SanitizeJSONSchema schema !! key) <->
            exists value, schema !! key = Some value /\ key <> "additionalProperties" /\
                          (key = "required" -> is_empty_slice value = false)).
  { intros key. unfold SanitizeJSONSchema. rewrite map_lookup_imap.
    destruct (schema !! key) as [value|]; cbn.
    - unfold sanitize_entry. case_bool_decide as Hr; cbn [andb].
      + subst key. destruct (is_empty_slice value) eqn:He.
        * split; [by intros [? [=]]|]. intros (v & [= <-] & _ & Hv).
          specialize (Hv eq_refl). congruence.
        * rewrite decide_False by done.
          split; [intros _; by exists value|]. intros _.
          destruct value as [| | | |items| |]; try done; by destruct items.
      + destruct (decide (key = "additionalProperties")) as [->|Hap].
        * split; [by intros [? [=]]|]. by intros (v & _ & Hv & _).
        * split; [intros _; by exists value|]. intros _.
          destruct value; try done; by destruct (decide _).
    - split; [by intros [? [=]]|]. by intros (v & [=] & _). }
  split; [|done].
  apply eq_None_not_Some. rewrite Hkeys. by intros (v & _ & Hv & _).
Qed.

(** * Long tool descriptions *)

Definition long (maxLen : Z) (tool : @UnifiedTool float64) : Prop :=
  (maxLen < Z.of_nat (String.length (Description tool)))%Z.

#[local] Instance long_dec maxLen tool : Decision (long maxLen tool).
Proof. unfold long. apply _. Defined.

(** The tool as it is passed on. *)
Definition shortened (maxLen : Z) (tool : @UnifiedTool float64) : @UnifiedTool float64 :=
  if decide (long maxLen tool)
  then mkUnifiedTool (Name tool) (tool_reference tool) (InputSchema tool)
  else tool.

Lemma foldl_process_tool maxLen tools processed docParts :
  foldl (process_tool maxLen) (processed, docParts) tools
  = (processed ++ (shortened maxLen <$> tools),
     docParts ++ (tool_doc <$> filter (long maxLen) tools)).
Proof.
  revert processed docParts. induction tools as [|tool tools IH]; intros processed docParts.
  { cbn. by rewrite !app_nil_r. }
  cbn [foldl process_tool].
  destruct (Z.leb_spec (Z.of_nat (String.length (Description tool))) maxLen) as [E|E].
  - assert (Hs : shortened maxLen tool = tool)
      by (unfold shortened; rewrite decide_False; [done | unfold long; lia]).
    rewrite IH, fmap_cons, Hs. rewrite filter_cons_False by (unfold long; lia).
    by rewrite <- app_assoc.
  - assert (Hs : shortened maxLen tool
                 = mkUnifiedTool (Name tool) (tool_reference tool) (InputSchema tool))
      by (unfold shortened; rewrite decide_True; [done | unfold long; lia]).
    rewrite IH, fmap_cons, Hs. rewrite filter_cons_True by (unfold long; lia).
    rewrite fmap_cons. by rewrite <- !app_assoc.
Qed.

Lemma index_prefix (s text : string) :
  String.prefix s text = true -> String.index 0 s text = Some 0.
Proof.
  destruct text as [|c text]; cbn.
  - by destruct s.
  - intros Hp. cbn in Hp. by rewrite Hp.
Qed.

Lemma strings_Contains_app (a s b : string) : strings_Contains (a +:+ s +:+ b) s = true.
Proof.
  unfold strings_Contains, strings_Index. induction a as [|c a IH].
  - change ("" +:+ s +:+ b) with (s +:+ b). by rewrite index_prefix by apply prefix_app.
  - change (String c a +:+ s +:+ b) with (String c (a +:+ s +:+ b)). cbn [String.index].
    destruct (String.prefix s _); [done|].
    by destruct (String.index 0 s (a +:+ s +:+ b)).
Qed.

Lemma strings_Join_contains (parts : list string) (sep part : string) :
  part ∈ parts -> exists a b, strings_Join parts sep = a +:+ part +:+ b.
Proof.
  unfold strings_Join.
  induction 1 as [part parts|part x parts Hin (a & b & IH)].
  - destruct parts as [|y parts].
    + exists "", "". cbn. by rewrite string_app_nil_r.
    + exists "", (sep +:+ String.concat sep (y :: parts)). done.
  - destruct parts as [|y parts]; [by apply not_elem_of_nil in Hin|].
    exists (x +:+ sep +:+ a), b.
    change (String.concat sep (x :: y :: parts))
      with (x +:+ sep +:+ String.concat sep (y :: parts)).
    rewrite IH.
    by rewrite !string_app_assoc.
Qed.

(** X30.  ProcessToolsWithLongDescriptions keeps the tools, their order,
    names and schemas.  With a positive maxLen, a description longer than
    maxLen is replaced by a reference to the system prompt and is found, in
    full, in the documentation returned; every other tool is returned as it
    is, and with maxLen zero or negative all of them are.  The documentation
    is empty exactly when maxLen is zero or negative or no description is
    longer than maxLen, and processing the processed tools again leaves
    them as they are. *)
Theorem ProcessToolsWithLongDescriptions_keeps (tools : list (@UnifiedTool float64))
    (maxLen : Z) :
  let processed := (ProcessToolsWithLongDescriptions tools maxLen).1 in
  let toolDocs := (ProcessToolsWithLongDescriptions tools maxLen).2 in
  Name <$> processed = Name <$> tools /\
  InputSchema <$> processed = InputSchema <$> tools /\
  Forall2 (fun tool p =>
             ((0 < maxLen)%Z /\ long maxLen tool ->
              Description p = tool_reference tool /\
              strings_Contains toolDocs (Description tool) = true) /\
             (~ ((0 < maxLen)%Z /\ long maxLen tool) -> p = tool)) tools processed /\
  (toolDocs = "" <-> (maxLen <= 0)%Z \/ Forall (fun tool => ~ long maxLen tool) tools) /\
  (ProcessToolsWithLongDescriptions processed maxLen).1 = processed.
Proof.
  unfold ProcessToolsWithLongDescriptions.
  destruct (bool_decide (length tools = 0) || (maxLen <=? 0)%Z) eqn:Hearly.
  { cbn zeta. cbn [fst snd]. rewrite Hearly. cbn [fst].
    split; [done|]. split; [done|]. split.
    - apply Forall_Forall2_diag, Forall_forall. intros tool Ht.
      apply orb_true_iff in Hearly as [Hl|Hm].
      + apply bool_decide_eq_true in Hl.
        destruct tools; [by apply not_elem_of_nil in Ht | done].
      + apply Z.leb_le in Hm. split; [lia | done].
    - split; [|done]. split; [|done]. intros _.
      apply orb_true_iff in Hearly as [Hl|Hm].
      + apply bool_decide_eq_true in Hl. right. by destruct tools.
      + apply Z.leb_le in Hm. by left. }
  apply orb_false_iff in Hearly as [Hl Hm]. apply Z.leb_gt in Hm.
  rewrite (foldl_process_tool maxLen tools [] []). cbn zeta. cbn [fst snd app].
  set (docParts := tool_doc <$> filter (long maxLen) tools).
  set (toolDocs := if decide (0 < length docParts) then _ else "").
  split; [|split; [|split; [|split]]].
  - apply list_eq. intros i. rewrite !list_lookup_fmap.
    destruct (tools !! i) as [tool|]; [|done]. cbn.
    unfold shortened. by destruct (decide (long maxLen tool)).
  - apply list_eq. intros i. rewrite !list_lookup_fmap.
    destruct (tools !! i) as [tool|]; [|done]. cbn.
    unfold shortened. by destruct (decide (long maxLen tool)).
  - apply Forall2_fmap_r, Forall_Forall2_diag, Forall_forall. intros tool Ht.
    unfold compose, shortened. cbn beta.
    destruct (decide (long maxLen tool)) as [Hlong|Hshort].
    2:{ split; [by intros [_ ?] | by intros _]. }
    split; [intros _ | intros Hn; exfalso; apply Hn; split; [lia | done]].
    split; [done|].
    {
      assert (tool_doc tool ∈ docParts) as Hin.
      { unfold docParts. apply list_elem_of_fmap. exists tool. split; [done|].
        by apply list_elem_of_filter. }
      unfold toolDocs. rewrite decide_True.
      2:{ destruct docParts; [by apply not_elem_of_nil in Hin | simpl; lia]. }
      destruct (strings_Join_contains docParts (nl +:+ nl +:+ "---" +:+ nl +:+ nl) _ Hin)
        as (a & b & ->).
      unfold tool_doc.
      rewrite <- !string_app_assoc.
      rewrite (string_app_assoc _ (Description tool) b).
      apply strings_Contains_app. }
  - unfold toolDocs. destruct (decide (0 < length docParts)) as [Hd|Hd].
    + split; [by destruct docParts|]. intros [?|Hall]; [lia|]. exfalso.
      unfold docParts in Hd. rewrite length_fmap in Hd.
      destruct (filter (long maxLen) tools) as [|tool l] eqn:Hf; [simpl in Hd; lia|].
      assert (tool ∈ filter (long maxLen) tools) as [Hlong Hin]%list_elem_of_filter
        by (rewrite Hf; apply list_elem_of_here).
      eapply Forall_forall in Hall; eauto.
    + split; [|done]. intros _. right. apply Forall_forall. intros tool Ht Hlong.
      apply Hd. unfold docParts. rewrite length_fmap.
      assert (tool ∈ filter (long maxLen) tools) as Hin by by apply list_elem_of_filter.
      destruct (filter (long maxLen) tools); [by apply not_elem_of_nil in Hin | simpl; lia].
  - rewrite length_fmap, Hl. replace (maxLen <=? 0)%Z with false by (symmetry; by apply Z.leb_gt).
    cbn [orb]. rewrite (foldl_process_tool maxLen _ [] []). cbn [fst app].
    apply list_eq. intros i. rewrite !list_lookup_fmap.
    destruct (tools !! i) as [tool|]; [|done]. cbn. f_equal.
    unfold shortened. destruct (decide (long maxLen tool)) as [Hlong|Hshort].
    + destruct (decide (long maxLen (mkUnifiedTool _ _ _))); [|done].
      by unfold tool_reference.
    + by destruct (decide (long maxLen tool)).
Qed.

End schema_facts.
